(** * sdhasher: the hashing pipeline and its cache, embedded in Rocq

    The program (src/main.go) loads an optional cache.json, drops the entries
    whose file is gone, re-queues the entries whose file is newer than the
    stored time, walks the models directory for files the cache does not
    know, hashes every queued file with SHA-256 and writes the merged cache.

    The first part models what the program takes from Go's library (int64
    and float64 conversions, package time, fmt's verbs, strconv, crypto/sha256,
    strings, path/filepath, encoding/json's treatment of the struct tags);
    the second part is the program itself, function by function; the
    scenarios and the theorems follow.

    Scope of the embedding.
    - Goroutines and channels are read sequentially: the staleness loop runs
      over the loaded map in some iteration order, the directory walk
      follows, the workers' successful results are merged in some completion
      order.  Both orders are parameters of every theorem.  The interleaving
      of the collector's writes with the staleness loop is not modelled.
      The goroutines and their channels are modelled on their own, as a
      transition system ([pipe_step]) over the tasks to queue; what the
      collector has received when such a run ends is one of these
      completion orders.
    - The file system does not change during a run; a file is a finite list
      of read results.
    - The loaded cache is what json.Decoder produced: [Hashes] is a map (the
      document's "hashes" is an object, or absent; the document in which it
      is null is treated on its own, [main_null]).  The keys a run adds
      come from file names and need not be valid UTF-8: the encoder writes
      U+FFFD for what is not, and the next run reads the key back changed
      ([gojson.string_text], [gojson.reread]). *)

From Stdlib Require Import Reals Lra.
From Stdlib Require Import ZArith Floats Uint63 String Ascii List Lia.
From Stdlib.Strings Require Import Byte.
From stdpp Require Import gmap strings list sorting.

Local Open Scope string_scope.
Local Open Scope Z_scope.

(** ** Go's [error] values the program can meet.  The program only ever
    tests an error against [nil]; the constructors name the ones the
    scenarios below use. *)
Inductive error : Type :=
| io_EOF
| ErrNotExist
| ErrPermission
| EIO
| EISDIR
| ErrRel.

(** A Go result pair [(v, err)] with [err != nil] on the left. *)
Definition result (A : Type) : Type := (error + A)%type.

(** ** int64 *)
Module int64.
Definition min : Z := - 2 ^ 63.
Definition max : Z := 2 ^ 63 - 1.
Definition in_range (z : Z) : bool := (min <=? z) && (z <=? max).
(** Two's-complement wrap-around of Go's int64 arithmetic. *)
Definition wrap (z : Z) : Z := (z + 2 ^ 63) mod 2 ^ 64 - 2 ^ 63.
(** Saturation, as time.Time.Sub documents it. *)
Definition clamp (z : Z) : Z := Z.max min (Z.min max z).
End int64.

(** ** float64 (IEEE 754 binary64, Rocq's primitive floats) *)
Module float64.
(** [float64(n)] for an int64 [n]: the nearest binary64, ties to even. *)
Definition of_int64 (n : Z) : float :=
  if n =? int64.min then (-0x1p63)%float
  else if n <? 0 then PrimFloat.opp (PrimFloat.of_uint63 (Uint63.of_Z (- n)))
  else PrimFloat.of_uint63 (Uint63.of_Z n).

(** [int64(f)]: the fraction is discarded (truncation towards zero).  For a
    value int64 cannot hold (NaN, infinities, magnitude 2^63 or more) the
    Go specification leaves the result to the implementation; amd64's
    CVTTSD2SQ returns the smallest int64, which is what is modelled. *)
Definition to_int64 (f : float) : Z :=
  match Prim2SF f with
  | S754_zero _ => 0
  | S754_finite s m e =>
      let a := if 0 <=? e then Z.pos m * 2 ^ e else Z.pos m / 2 ^ (- e) in
      let v := if s then - a else a in
      if int64.in_range v then v else int64.min
  | S754_infinity _ | S754_nan => int64.min
  end.

Definition is_finite (f : float) : bool :=
  match Prim2SF f with
  | S754_zero _ | S754_finite _ _ _ => true
  | S754_infinity _ | S754_nan => false
  end.
End float64.

(** ** package time.  A [Time] without monotonic reading (what [time.Unix]
    builds, and what a file's ModTime is) holds a count of seconds since
    January 1 of the year 1, an int64, and the nanoseconds within that
    second.  It is represented by the number of nanoseconds it lies after
    the Unix epoch, [(seconds - unixToInternal) * 10^9 + nanoseconds]; a
    [Duration] is an int64 count of nanoseconds. *)
Module gotime.
Definition Time : Type := Z.
Definition Duration : Type := Z.
Definition Second : Duration := 1000000000.

(** The seconds from January 1 of the year 1 to the Unix epoch. *)
Definition unixToInternal : Z := 62135596800.

(** [time.Unix(sec, nsec)] for two int64: [nsec] is brought into
    [0, 1e9), carrying into [sec]; the seconds are then counted from the
    year 1 in int64 arithmetic, [sec + unixToInternal], which wraps around
    for [sec] at or above [2^63 - unixToInternal]. *)
Definition Unix (sec nsec : Z) : Time :=
  let '(sec, nsec) :=
    if (nsec <? 0) || (1000000000 <=? nsec) then
      let n := Z.quot nsec 1000000000 in
      let sec := int64.wrap (sec + n) in
      let nsec := nsec - n * 1000000000 in
      if nsec <? 0 then (int64.wrap (sec - 1), nsec + 1000000000) else (sec, nsec)
    else (sec, nsec) in
  (int64.wrap (sec + unixToInternal) - unixToInternal) * 1000000000 + nsec.

(** [t.UnixNano()]: an int64; outside the years 1678..2262 the product
    wraps around. *)
Definition UnixNano (t : Time) : Z := int64.wrap t.

(** [t.Sub(u)]: the duration t-u, or the largest (smallest) Duration when
    the difference does not fit. *)
Definition Sub (t u : Time) : Duration := int64.clamp (t - u).
End gotime.

(** ** package fmt, the two verbs the program uses *)
Module gofmt.
Definition digit_char (d : Z) : ascii :=
  ascii_of_nat (48 + Z.to_nat (d mod 10)).

Definition is_digit (c : ascii) : bool :=
  (48 <=? nat_of_ascii c)%nat && (nat_of_ascii c <=? 57)%nat.

(** The last [k] decimal digits of [n], zero-padded, in front of [acc]. *)
Fixpoint fixed_digits (k : nat) (n : Z) (acc : string) : string :=
  match k with
  | O => acc
  | S k' => fixed_digits k' (n / 10) (String (digit_char n) acc)
  end.

(** The decimal digits of [n >= 0], at least one, in front of [acc]. *)
Fixpoint digits_fuel (fuel : nat) (n : Z) (acc : string) : string :=
  let acc' := String (digit_char n) acc in
  match fuel with
  | O => acc'
  | S k => if n <? 10 then acc' else digits_fuel k (n / 10) acc'
  end.

Definition itoa (n : Z) : string := digits_fuel (Z.to_nat (Z.log2 n)) n "".

(** [num/den] rounded to the nearest integer, ties to even
    ([num >= 0], [den > 0]). *)
Definition round_half_even (num den : Z) : Z :=
  let q := num / den in
  let r := num mod den in
  if 2 * r <? den then q
  else if den <? 2 * r then q + 1
  else if Z.even q then q else q + 1.

(** |m * 2^e| * 10^7 rounded to an integer: the digits of the value at
    seven decimal places. *)
Definition scaled7 (m : positive) (e : Z) : Z :=
  if 0 <=? e then Z.pos m * 2 ^ e * 10 ^ 7
  else round_half_even (Z.pos m * 10 ^ 7) (2 ^ (- e)).

Definition sign_text (s : bool) : string := if s then "-" else "".

Definition fixed7 (s : bool) (v : Z) : string :=
  sign_text s +:+ itoa (v / 10 ^ 7) +:+ "." +:+ fixed_digits 7 (v mod 10 ^ 7) "".

(** [fmt.Sprintf("%.7f", f)]: the exact value of [f] rounded half-even at
    the seventh decimal (strconv's 'f' format with precision 7). *)
Definition Sprintf_7f (f : float) : string :=
  match Prim2SF f with
  | S754_zero s => fixed7 s 0
  | S754_finite s m e => fixed7 s (scaled7 m e)
  | S754_infinity s => if s then "-Inf" else "+Inf"
  | S754_nan => "NaN"
  end.

Definition hex_char (d : Z) : ascii :=
  if d <? 10 then ascii_of_nat (48 + Z.to_nat d)
  else ascii_of_nat (87 + Z.to_nat d).

(** [fmt.Sprintf("%x", b)] for a byte slice: two lower-case hexadecimal
    digits per byte. *)
Fixpoint Sprintf_x (b : list byte) : string :=
  match b with
  | [] => ""
  | c :: rest =>
      let n := Z.of_N (Byte.to_N c) in
      String (hex_char (n / 16)) (String (hex_char (n mod 16)) (Sprintf_x rest))
  end.
End gofmt.

(** ** strconv.ParseFloat, on the texts [Sprintf_7f] writes: the binary64
    nearest to [n / 10^7], ties to even.  encoding/json reads a float64
    field with it. *)
Module strconv.
(** floor(log2 (num/den)) for positive [num], [den]. *)
Definition log2_quot (num den : Z) : Z :=
  let k := Z.log2 num - Z.log2 den in
  let ge := if 0 <=? k then den * 2 ^ k <=? num else den <=? num * 2 ^ (- k) in
  if ge then k else k - 1.

Definition nearest_float (neg : bool) (num den : Z) : float :=
  if num =? 0 then (if neg then (-0)%float else 0%float)
  else
    let ex := log2_quot num den - 52 in
    let m := if 0 <=? ex then gofmt.round_half_even num (den * 2 ^ ex)
             else gofmt.round_half_even (num * 2 ^ (- ex)) den in
    let f := Z.ldexp (PrimFloat.of_uint63 (Uint63.of_Z m)) ex in
    if neg then PrimFloat.opp f else f.

Fixpoint digits_value (s : string) (acc : Z) : Z :=
  match s with
  | EmptyString => acc
  | String c rest =>
      if gofmt.is_digit c then digits_value rest (10 * acc + Z.of_nat (nat_of_ascii c) - 48)
      else digits_value rest acc
  end.

(** The text is a sign, digits, a point and seven digits: its value is the
    number its digits spell, over 10^7. *)
Definition ParseFloat_fixed7 (s : string) : float :=
  match s with
  | String "-"%char rest => nearest_float true (digits_value rest 0) (10 ^ 7)
  | _ => nearest_float false (digits_value s 0) (10 ^ 7)
  end.
End strconv.

(** ** crypto/sha256 (FIPS 180-4, section 6.2) *)
Module sha256.
Definition mask32 : Z := 2 ^ 32 - 1.
Definition add32 (x y : Z) : Z := Z.land (x + y) mask32.
Definition rotr (n x : Z) : Z :=
  Z.lor (Z.shiftr x n) (Z.land (Z.shiftl x (32 - n)) mask32).
Definition not32 (x : Z) : Z := Z.lxor x mask32.

Definition Ch (x y z : Z) : Z := Z.lxor (Z.land x y) (Z.land (not32 x) z).
Definition Maj (x y z : Z) : Z :=
  Z.lxor (Z.lxor (Z.land x y) (Z.land x z)) (Z.land y z).
Definition Sigma0 (x : Z) : Z := Z.lxor (Z.lxor (rotr 2 x) (rotr 13 x)) (rotr 22 x).
Definition Sigma1 (x : Z) : Z := Z.lxor (Z.lxor (rotr 6 x) (rotr 11 x)) (rotr 25 x).
Definition sigma0 (x : Z) : Z := Z.lxor (Z.lxor (rotr 7 x) (rotr 18 x)) (Z.shiftr x 3).
Definition sigma1 (x : Z) : Z := Z.lxor (Z.lxor (rotr 17 x) (rotr 19 x)) (Z.shiftr x 10).

(** The constants are the leading 32 fraction bits of the square roots
    (initial hash value) and cube roots (round constants) of the first
    primes. *)
Definition is_prime (n : Z) : bool :=
  forallb (fun d => negb (n mod d =? 0) || (n <=? d))
          (map Z.of_nat (seq 2 18)).

Definition primes64 : list Z :=
  Eval vm_compute in filter is_prime (map Z.of_nat (seq 2 310)).

(** The integer cube root of [x], bit by bit from bit [n-1] down. *)
Fixpoint cube_root_bits (n : nat) (r x : Z) : Z :=
  match n with
  | O => r
  | S k =>
      let c := r + 2 ^ Z.of_nat k in
      if c * c * c <=? x then cube_root_bits k c x else cube_root_bits k r x
  end.

Definition H0 : list Z :=
  Eval vm_compute in
    map (fun p => Z.land (Z.sqrt (p * 2 ^ 64)) mask32) (firstn 8 primes64).

Definition K : list Z :=
  Eval vm_compute in
    map (fun p => Z.land (cube_root_bits 36 0 (p * 2 ^ 96)) mask32) primes64.

(** The message schedule, newest word first. *)
Fixpoint schedule (n : nat) (w : list Z) : list Z :=
  match n with
  | O => w
  | S k =>
      let x := add32 (add32 (sigma1 (nth 1 w 0)) (nth 6 w 0))
                     (add32 (sigma0 (nth 14 w 0)) (nth 15 w 0)) in
      schedule k (x :: w)
  end.

Definition round (st : list Z) (kw : Z * Z) : list Z :=
  match st with
  | [a; b; c; d; e; f; g; h] =>
      let t1 := add32 (add32 (add32 h (Sigma1 e)) (add32 (Ch e f g) (fst kw))) (snd kw) in
      let t2 := add32 (Sigma0 a) (Maj a b c) in
      [add32 t1 t2; a; b; c; add32 d t1; e; f; g]
  | _ => st
  end.

Fixpoint zip_add (x y : list Z) : list Z :=
  match x, y with
  | a :: x', b :: y' => add32 a b :: zip_add x' y'
  | _, _ => []
  end.

(** One 512-bit block, given as sixteen big-endian words. *)
Definition compress (st : list Z) (block : list Z) : list Z :=
  let w := rev (schedule 48 (rev block)) in
  zip_add st (fold_left round (combine K w) st).

Fixpoint be_words (b : list Z) (n : nat) : list Z :=
  match n, b with
  | S k, b0 :: b1 :: b2 :: b3 :: rest =>
      (((b0 * 256 + b1) * 256 + b2) * 256 + b3) :: be_words rest k
  | _, _ => []
  end.

Fixpoint blocks (fuel : nat) (b : list Z) (st : list Z) : list Z :=
  match fuel with
  | O => st
  | S k =>
      match b with
      | [] => st
      | _ => blocks k (skipn 64 b) (compress st (be_words (firstn 64 b) 16))
      end
  end.

Definition be_bytes (n : nat) (x : Z) : list Z :=
  map (fun i => Z.land (Z.shiftr x (8 * Z.of_nat i)) 255) (rev (seq 0 n)).

(** Padding: a one bit, zeros up to 56 modulo 64, the bit length on 8 bytes. *)
Definition pad (msg : list Z) : list Z :=
  let len := Z.of_nat (length msg) in
  let zeros := Z.to_nat ((55 - len) mod 64) in
  msg ++ [128] ++ repeat 0 zeros ++ be_bytes 8 (8 * len).

Definition byte_of_Z (z : Z) : byte :=
  match Byte.of_N (Z.to_N (z mod 256)) with
  | Some b => b
  | None => x00
  end.

(** [sha256.Sum256]: the 32-byte digest of a message. *)
Definition Sum256 (msg : list byte) : list byte :=
  let p := pad (map (fun b => Z.of_N (Byte.to_N b)) msg) in
  map byte_of_Z (flat_map (be_bytes 4) (blocks (length p) p H0)).

(** A [hash.Hash] from [sha256.New()]: the running hash is determined by
    the bytes written so far. *)
Record digest : Type := { written : list byte }.
Definition New : digest := {| written := [] |}.
(** [h.Write(p)] adds [p] to the running hash; it never returns an error. *)
Definition Write (h : digest) (p : list byte) : digest * option error :=
  ({| written := written h ++ p |}, None).
(** [h.Sum(nil)]: the digest of everything written. *)
Definition Sum (h : digest) : list byte := Sum256 (written h).
End sha256.

(** ** unicode/utf8 *)
Module utf8.
Definition RuneError : Z := 65533.
Definition MaxRune : Z := 1114111.

(** A byte of a string as a number, and back. *)
Definition code (c : ascii) : Z := Z.of_nat (nat_of_ascii c).
Definition byte (z : Z) : ascii := ascii_of_nat (Z.to_nat z).

(** The string of the given bytes. *)
Definition of_bytes (l : list Z) : string := string_of_list_ascii (map byte l).

(** [s[:n]] and [s[n:]] *)
Fixpoint take (n : nat) (s : string) : string :=
  match n, s with
  | S n', String c rest => String c (take n' rest)
  | _, _ => ""
  end.

Fixpoint drop (n : nat) (s : string) : string :=
  match n, s with
  | S n', String _ rest => drop n' rest
  | _, _ => s
  end.

(** [utf8.DecodeRuneInString(s)]: the first rune of [s] and its width in
    bytes.  The table [first] gives, for the leading byte, the width and
    the range the second byte must lie in (narrower after E0, ED, F0 and F4:
    no overlong form, no surrogate, nothing above U+10FFFF); the other
    bytes are continuation bytes, 80 to BF.  Whatever is not such a
    sequence gives [(RuneError, 1)]; the empty string gives
    [(RuneError, 0)]. *)
Definition DecodeRuneInString (s : string) : Z * nat :=
  match s with
  | EmptyString => (RuneError, 0%nat)
  | String c0 rest =>
      let s0 := code c0 in
      if s0 <? 128 then (s0, 1%nat)
      else if (s0 <? 194) || (244 <? s0) then (RuneError, 1%nat)
      else
        let lo := if s0 =? 224 then 160 else if s0 =? 240 then 144 else 128 in
        let hi := if s0 =? 237 then 159 else if s0 =? 244 then 143 else 191 in
        match rest with
        | EmptyString => (RuneError, 1%nat)
        | String c1 rest1 =>
            let s1 := code c1 in
            if (s1 <? lo) || (hi <? s1) then (RuneError, 1%nat)
            else if s0 <? 224 then (s0 mod 32 * 64 + s1 mod 64, 2%nat)
            else
              match rest1 with
              | EmptyString => (RuneError, 1%nat)
              | String c2 rest2 =>
                  let s2 := code c2 in
                  if (s2 <? 128) || (191 <? s2) then (RuneError, 1%nat)
                  else if s0 <? 240
                  then (s0 mod 16 * 4096 + s1 mod 64 * 64 + s2 mod 64, 3%nat)
                  else
                    match rest2 with
                    | EmptyString => (RuneError, 1%nat)
                    | String c3 _ =>
                        let s3 := code c3 in
                        if (s3 <? 128) || (191 <? s3) then (RuneError, 1%nat)
                        else (s0 mod 8 * 262144 + s1 mod 64 * 4096 + s2 mod 64 * 64
                              + s3 mod 64, 4%nat)
                    end
              end
        end
  end.

(** [utf8.AppendRune(nil, r)]: the UTF-8 encoding of [r], that of U+FFFD
    for a surrogate or a value that is no code point. *)
Definition AppendRune (r : Z) : string :=
  if (0 <=? r) && (r <=? 127) then String (byte r) ""
  else if (0 <=? r) && (r <=? 2047)
  then String (byte (192 + r / 64)) (String (byte (128 + r mod 64)) "")
  else
    let r := if (r <? 0) || (MaxRune <? r) || ((55296 <=? r) && (r <=? 57343))
             then RuneError else r in
    if r <=? 65535
    then String (byte (224 + r / 4096))
           (String (byte (128 + r / 64 mod 64)) (String (byte (128 + r mod 64)) ""))
    else String (byte (240 + r / 262144))
           (String (byte (128 + r / 4096 mod 64))
              (String (byte (128 + r / 64 mod 64)) (String (byte (128 + r mod 64)) ""))).

(** The runes of a string, as a [for ... range] loop or a loop over
    [DecodeRuneInString] meets them: each with the bytes it was read from.
    A byte that starts no valid sequence is met as [(RuneError, that byte)]. *)
Fixpoint runes_fuel (fuel : nat) (s : string) : list (Z * string) :=
  match fuel, s with
  | S fuel', String _ _ =>
      let '(r, size) := DecodeRuneInString s in
      (r, take size s) :: runes_fuel fuel' (drop size s)
  | _, _ => []
  end.

Definition runes (s : string) : list (Z * string) := runes_fuel (String.length s) s.

(** The rune was read from a byte that starts no valid sequence. *)
Definition invalid (x : Z * string) : bool :=
  (x.1 =? RuneError) && (String.length x.2 =? 1)%nat.

(** [utf8.ValidString(s)] *)
Definition ValidString (s : string) : bool := forallb (fun x => negb (invalid x)) (runes s).
End utf8.

(** ** package unicode *)
Module unicode.
(** [unicode.ToLower(r)], from the rows of the case table for ASCII, for
    Latin-1, and for U+0130, U+212A and U+212B; the letters of the other
    rows are left as they are.  U+0130 and U+212A are the only runes whose
    lower case is an ASCII letter, so a comparison of the lowered string
    with an ASCII string, as on line 159, comes out as with the whole
    table. *)
Definition ToLower (r : Z) : Z :=
  if r <=? 127 then (if (65 <=? r) && (r <=? 90) then r + 32 else r)
  else if (192 <=? r) && (r <=? 222) && negb (r =? 215) then r + 32
  else if r =? 304 then 105
  else if r =? 8490 then 107
  else if r =? 8491 then 229
  else r.
End unicode.

(** ** package strings *)
Module gostrings.
Fixpoint strip (prefix s : string) : option string :=
  match prefix, s with
  | EmptyString, _ => Some s
  | String a p', String b s' => if Ascii.eqb a b then strip p' s' else None
  | String _ _, EmptyString => None
  end.

(** [strings.HasPrefix(s, prefix)]. *)
Definition HasPrefix (s prefix : string) : bool :=
  match strip prefix s with Some _ => true | None => false end.

(** [strings.TrimPrefix(s, prefix)]: [s] without the leading [prefix], or
    [s] itself when it does not start with it. *)
Definition TrimPrefix (s prefix : string) : string :=
  match strip prefix s with Some rest => rest | None => s end.

Definition lower_ascii (c : ascii) : ascii :=
  let n := nat_of_ascii c in
  if (65 <=? n)%nat && (n <=? 90)%nat then ascii_of_nat (n + 32) else c.

Fixpoint map_string (f : ascii -> ascii) (s : string) : string :=
  match s with
  | EmptyString => EmptyString
  | String c rest => String (f c) (map_string f rest)
  end.

Fixpoint is_ascii (s : string) : bool :=
  match s with
  | EmptyString => true
  | String c rest => (nat_of_ascii c <? 128)%nat && is_ascii rest
  end.

Fixpoint concat (l : list string) : string :=
  match l with
  | [] => ""
  | s :: rest => s +:+ concat rest
  end.

(** [strings.Map(mapping, s)]: the encodings of the mapped runes of [s]; a
    rune mapped to a negative value is dropped, and a byte that is not valid
    UTF-8 is met as U+FFFD. *)
Definition Map (mapping : Z -> Z) (s : string) : string :=
  concat (map (fun x : Z * string =>
                 let r := mapping x.1 in
                 if r <? 0 then "" else utf8.AppendRune r)
              (utf8.runes s)).

(** [strings.ToLower(s)]: byte-wise on an ASCII string (the function's fast
    path); a string with other bytes goes through [Map] with
    unicode.ToLower, which is the parameter [unicode_lower]. *)
Definition ToLower (unicode_lower : string -> string) (s : string) : string :=
  if is_ascii s then map_string lower_ascii s else unicode_lower s.

(** [strings.Join(elems, sep)]. *)
Fixpoint Join (elems : list string) (sep : string) : string :=
  match elems with
  | [] => ""
  | [e] => e
  | e :: rest => e +:+ sep +:+ Join rest sep
  end.
End gostrings.

(** ** path/filepath on a system whose separator is the slash *)
Module filepath.
Definition Separator : ascii := "/"%char.

(** [filepath.Ext(path)]: the suffix from the last dot of the last
    element, empty when that element has no dot.  [cur] is the suffix
    found so far. *)
Fixpoint ext_from (s : string) (cur : string) : string :=
  match s with
  | EmptyString => cur
  | String c rest =>
      if Ascii.eqb c Separator then ext_from rest ""
      else if Ascii.eqb c "."%char then ext_from rest s
      else ext_from rest cur
  end.
Definition Ext (path : string) : string := ext_from path "".

(** The elements between separators; [cur] is the element being read,
    last character first. *)
Fixpoint split_from (s : string) (cur : list ascii) : list string :=
  let elem := string_of_list_ascii (rev cur) in
  match s with
  | EmptyString => [elem]
  | String c rest =>
      if Ascii.eqb c Separator then elem :: split_from rest []
      else split_from rest (c :: cur)
  end.
Definition elements (path : string) : list string := split_from path [].

Definition rooted (path : string) : bool :=
  match path with
  | String c _ => Ascii.eqb c Separator
  | EmptyString => false
  end.

(** The elements of the cleaned path, last first: empty and "." elements
    go, ".." removes the element before it, stays in front of a relative
    path when there is none, and is dropped at the root. *)
Fixpoint clean_elements (root : bool) (elems : list string) (out : list string)
  : list string :=
  match elems with
  | [] => out
  | e :: rest =>
      if String.eqb e "" || String.eqb e "." then clean_elements root rest out
      else if String.eqb e ".." then
        match out with
        | top :: out' =>
            if String.eqb top ".." then clean_elements root rest (e :: out)
            else clean_elements root rest out'
        | [] =>
            if root then clean_elements root rest out
            else clean_elements root rest [e]
        end
      else clean_elements root rest (e :: out)
  end.

(** [filepath.Clean(path)]. *)
Definition Clean (path : string) : string :=
  let r := rooted path in
  let body := gostrings.Join (rev (clean_elements r (elements path) [])) "/" in
  if r then "/" +:+ body
  else if String.eqb body "" then "." else body.

(** [filepath.Join(a, b)] for two elements: empty elements are ignored
    and the result is cleaned; all empty gives the empty string. *)
Definition Join (a b : string) : string :=
  if String.eqb a "" then (if String.eqb b "" then "" else Clean b)
  else Clean (a +:+ "/" +:+ b).

Fixpoint drop_common (b t : list string) : list string * list string :=
  match b, t with
  | x :: b', y :: t' => if String.eqb x y then drop_common b' t' else (b, t)
  | _, _ => (b, t)
  end.

Definition rel_elements (path : string) : list string :=
  if String.eqb path "" then []
  else if String.eqb path "/" then [""]
  else elements path.

(** [filepath.Rel(basepath, targpath)]: both paths cleaned; the same path
    gives "."; a rooted and an unrooted path, or a base that still climbs
    ("..") where the two part, is an error; otherwise one ".." per base
    element left, then what is left of the target. *)
Definition Rel (basepath targpath : string) : result string :=
  let base := Clean basepath in
  let targ := Clean targpath in
  if String.eqb targ base then inr "."
  else
    let base := if String.eqb base "." then "" else base in
    if negb (Bool.eqb (rooted base) (rooted targ)) then inl ErrRel
    else
      let '(b, t) := drop_common (rel_elements base) (rel_elements targ) in
      match b with
      | [] => inr (gostrings.Join t "/")
      | x :: _ =>
          if String.eqb x ".." then inl ErrRel
          else inr (gostrings.Join (map (fun _ => "..") b ++ t) "/")
      end.
End filepath.

(** ** The functions of Go's library whose result depends on the host:
    path/filepath (separator, volume names) and strings.ToLower (Unicode
    tables).  The program is verified for any such library; [unix] is the
    one the scenarios run on. *)
Record GoLib : Type := {
  filepath_Join : string -> string -> string;
  filepath_Rel : string -> string -> result string;
  filepath_Ext : string -> string;
  strings_ToLower : string -> string;
}.

(** Slash-separated paths, and [strings.ToLower] with the case table of
    [unicode.ToLower] above. *)
Definition unix : GoLib := {|
  filepath_Join := filepath.Join;
  filepath_Rel := filepath.Rel;
  filepath_Ext := filepath.Ext;
  strings_ToLower := gostrings.ToLower (gostrings.Map unicode.ToLower);
|}.

(** ** The file system, as the program observes it *)

(** [fs.FileInfo]: the two methods the program calls. *)
Record FileInfo : Type := { ModTime : gotime.Time; fi_IsDir : bool }.

(** [fs.DirEntry]: [IsDir()] and the result of [Info()]. *)
Record DirEntry : Type := { IsDir : bool; Info : result FileInfo }.

(** [fs.FileInfoToDirEntry(info)]. *)
Definition FileInfoToDirEntry (info : FileInfo) : DirEntry :=
  {| IsDir := fi_IsDir info; Info := inr info |}.

(** What one call [f.Read(buf[:])] returns: the bytes [buf[:n]], at most
    16384 of them (the length of [buf], line 58), and the error. *)
Definition ReadResult : Type := (list byte * option error)%type.

(** An open file: its content, and what its successive [Read] calls
    return; once the list is used up, [Read] returns [0, io.EOF]. *)
Record File : Type := { file_bytes : list byte; file_reads : list ReadResult }.

(** A call of the function given to [filepath.WalkDir]: [d] is nil only when
    the root itself cannot be read. *)
Inductive WalkCall : Type :=
| RootError (path : string) (err : error)
| Visit (path : string) (d : DirEntry) (err : option error).

Record FileSystem : Type := {
  os_Stat : string -> result FileInfo;
  os_Open : string -> result File;
  (** The calls [filepath.WalkDir(root, fn)] makes, in order, for a [fn]
      that always returns nil. *)
  filepath_WalkDir : string -> list WalkCall;
}.

(** ** The program: src/main.go *)

(** [type MTime float64] *)
Definition MTime : Type := float.

(** [type entry struct] *)
Record entry : Type := {
  entry_MTime : MTime;
  entry_SHA256 : string;
  entry_path : string;
}.

(** [type cache struct].  [HashesAddnet] is [None] for a nil map. *)
Record cache : Type := {
  Hashes : gmap string entry;
  HashesAddnet : option (gmap string entry);
}.

(** [type task struct] *)
Record task : Type := { task_path : string; task_d : DirEntry }.

(** [func (m MTime) MarshalJSON() ([]byte, error)].  The text of a NaN or
    of an infinity is not a JSON number, and [enc.Encode] would fail on it;
    the times of a run are finite. *)
Definition MarshalJSON (m : MTime) : string := gofmt.Sprintf_7f m.

(** The modification time [worker] stores (line 55). *)
Definition margin_mtime (info : FileInfo) : MTime :=
  (float64.of_int64 (gotime.UnixNano (ModTime info)) / 1e9 + 1)%float.

(** The loop of [worker] (lines 67-79) over what the reads of the open file
    return, from the state [h] of the hash; the result is the error the loop
    leaves with, if any, and the state of the hash at that point. *)
Fixpoint read_loop (reads : list ReadResult) (h : sha256.digest)
  : option error * sha256.digest :=
  match reads with
  | [] =>
      (* n = 0, err = io.EOF *)
      let '(h', werr) := sha256.Write h [] in
      (werr, h')
  | (chunk, err) :: rest =>
      match chunk, err with
      | _ :: _, Some e => (Some e, h)
      | _, _ =>
          let '(h', werr) := sha256.Write h chunk in
          match werr with
          | Some e => (Some e, h')
          | None =>
              match chunk with
              | [] => (None, h')
              | _ :: _ => read_loop rest h'
              end
          end
      end
  end.

(** [func worker(t task)]: the entry, or the error. *)
Definition worker (fs : FileSystem) (t : task) : result entry :=
  match Info (task_d t) with
  | inl err => inl err
  | inr info =>
      let mtime := margin_mtime info in
      match os_Open fs (task_path t) with
      | inl err => inl err
      | inr f =>
          match read_loop (file_reads f) sha256.New with
          | (Some err, _) => inl err
          | (None, h) =>
              inr {| entry_MTime := mtime;
                     entry_SHA256 := gofmt.Sprintf_x (sha256.Sum h);
                     entry_path := task_path t |}
          end
      end
  end.

(** The worker goroutines (lines 109-120): the entries sent on
    [resultChan], one per task that [worker] hashed without error. *)
Definition hashed (fs : FileSystem) (ts : list task) : list entry :=
  omap (fun t => match worker fs t with inr e => Some e | inl _ => None end) ts.

(** The state of the staleness loop (lines 135-149): the map, the tasks
    sent so far and [knownFiles]. *)
Record detection : Type := {
  d_hashes : gmap string entry;
  d_tasks : list task;
  d_known : gset string;
}.

Section Main.
Context (lib : GoLib) (fs : FileSystem).
(** [params.Path] *)
Context (root : string).

(** Line 137. *)
Definition modelPath (p : string) : string :=
  filepath_Join lib root (gostrings.TrimPrefix p "checkpoint/").

(** The test of line 144. *)
Definition changed (fi : FileInfo) (e : entry) : bool :=
  2 * gotime.Second <?
    gotime.Sub (ModTime fi) (gotime.Unix (float64.to_int64 (entry_MTime e)) 0).

(** One iteration of the loop of lines 136-149. *)
Definition detect_step (st : detection) (pe : string * entry) : detection :=
  let '(p, e) := pe in
  match os_Stat fs (modelPath p) with
  | inl _ =>
      {| d_hashes := delete p (d_hashes st);
         d_tasks := d_tasks st;
         d_known := d_known st |}
  | inr fi =>
      {| d_hashes := d_hashes st;
         d_tasks :=
           if changed fi e
           then d_tasks st ++ [{| task_path := modelPath p; task_d := FileInfoToDirEntry fi |}]
           else d_tasks st;
         d_known := {[ modelPath p ]} ∪ d_known st |}
  end.

(** The loop over [result.Hashes], visiting its entries in the order
    [iter]. *)
Definition detect (h : gmap string entry) (iter : list (string * entry)) : detection :=
  fold_left detect_step iter {| d_hashes := h; d_tasks := []; d_known := ∅ |}.

(** Line 158-159. *)
Definition model_ext (path : string) : bool :=
  let ext := strings_ToLower lib (filepath_Ext lib path) in
  String.eqb ext ".safetensors" || String.eqb ext ".ckpt".

(** The function given to WalkDir (lines 150-166): the task it sends, if
    any. *)
Definition visit (known : gset string) (c : WalkCall) : option task :=
  match c with
  | RootError _ _ => None
  | Visit path d err =>
      if IsDir d then None
      else match err with
           | Some _ => None
           | None =>
               if negb (model_ext path) then None
               else if decide (path ∈ known) then None
               else Some {| task_path := path; task_d := d |}
           end
  end.

Definition scan (known : gset string) : list task :=
  omap (visit known) (filepath_WalkDir fs root).

(** The key the collector stores an entry under (lines 125-131), none
    when [filepath.Rel] fails. *)
Definition entry_key (e : entry) : option string :=
  match filepath_Rel lib root (entry_path e) with
  | inl _ => None
  | inr rel => Some ("checkpoint/" +:+ rel)
  end.

(** One iteration of the collector goroutine (lines 124-133). *)
Definition merge (h : gmap string entry) (e : entry) : gmap string entry :=
  match entry_key e with
  | None => h
  | Some k => <[k := e]> h
  end.

Definition collect (h : gmap string entry) (done : list entry) : gmap string entry :=
  fold_left merge done h.

(** Everything sent on [taskChan]: by the staleness loop, then by the
    walk. *)
Definition queued (c : cache) (iter : list (string * entry)) : list task :=
  let d := detect (Hashes c) iter in
  d_tasks d ++ scan (d_known d).

(** [result] when [main] encodes it (line 178), for the loaded cache [c],
    the iteration order [iter] and the results [done] in the order the
    collector received them. *)
Definition main (c : cache) (iter : list (string * entry)) (done : list entry) : cache :=
  {| Hashes := collect (d_hashes (detect (Hashes c) iter)) done;
     HashesAddnet := HashesAddnet c |}.

(** [iter] is an order in which [range] can visit the loaded map, [done]
    an order in which the workers' results can reach the collector. *)
Definition schedule (c : cache) (iter : list (string * entry)) (done : list entry) : Prop :=
  iter ≡ₚ map_to_list (Hashes c) ∧ done ≡ₚ hashed fs (queued c iter).

(** The run whose orders are the map's own and the order of the queue. *)
Definition run (c : cache) : cache :=
  let iter := map_to_list (Hashes c) in
  main c iter (hashed fs (queued c iter)).
End Main.

(** [cache{Hashes: map[string]entry{}}] (line 89): the cache of a run without
    input file. *)
Definition empty_cache : cache := {| Hashes := ∅; HashesAddnet := None |}.

(** ** encoding/json: strings, as the encoder writes them (Go 1.22 and
    later, which write a backspace and a form feed as two characters) and as
    the decoder reads them *)
Module gojson.
(** [htmlSafeSet]: the ASCII bytes written as they are. *)
Definition htmlSafe (b : Z) : bool :=
  (32 <=? b) && negb ((b =? 34) || (b =? 38) || (b =? 60) || (b =? 62) || (b =? 92)).

(** What [appendString] writes for one rune of the string (HTML escaping
    is on, nothing turns it off in [main]): an ASCII byte as it is or
    escaped; six characters for a byte that is not valid UTF-8, and for
    U+2028 and U+2029; the bytes of any other rune. *)
Definition rune_text (x : Z * string) : string :=
  let '(r, bytes) := x in
  if r <? 128 then
    if htmlSafe r then bytes
    else if (r =? 92) || (r =? 34) then String "\" bytes
    else if r =? 8 then "\b"
    else if r =? 12 then "\f"
    else if r =? 10 then "\n"
    else if r =? 13 then "\r"
    else if r =? 9 then "\t"
    else "\u00" +:+ String (gofmt.hex_char (r / 16)) (String (gofmt.hex_char (r mod 16)) "")
  else if utf8.invalid x then "\ufffd"
  else if (r =? 8232) || (r =? 8233) then "\u202" +:+ String (gofmt.hex_char (r mod 16)) ""
  else bytes.

(** The text [appendString] writes for the Go string [s], between the two
    quotes. *)
Definition string_text (s : string) : string :=
  gostrings.concat (map rune_text (utf8.runes s)).

Definition hex_value (c : ascii) : option Z :=
  let k := utf8.code c in
  if (48 <=? k) && (k <=? 57) then Some (k - 48)
  else if (97 <=? k) && (k <=? 102) then Some (k - 97 + 10)
  else if (65 <=? k) && (k <=? 70) then Some (k - 65 + 10)
  else None.

(** [getu4(s)]: the number of a [\uXXXX] at the start of [s], or -1. *)
Definition getu4 (s : string) : Z :=
  match s with
  | String "\" (String "u" (String a (String b (String c (String d _))))) =>
      match hex_value a, hex_value b, hex_value c, hex_value d with
      | Some a, Some b, Some c, Some d => ((a * 16 + b) * 16 + c) * 16 + d
      | _, _, _, _ => -1
      end
  | _ => -1
  end.

(** [utf16.IsSurrogate] and [utf16.DecodeRune] *)
Definition IsSurrogate (r : Z) : bool := (55296 <=? r) && (r <? 57344).

Definition utf16_DecodeRune (r1 r2 : Z) : Z :=
  if (55296 <=? r1) && (r1 <? 56320) && (56320 <=? r2) && (r2 <? 57344)
  then (r1 - 55296) * 1024 + (r2 - 56320) + 65536
  else utf8.RuneError.

(** [unquoteBytes], on the text between the quotes: the Go string the
    decoder makes of it, none when the text is no JSON string.  Escapes are
    resolved, a surrogate pair of escapes gives one rune, a lone surrogate
    U+FFFD, and bytes that are not valid UTF-8 are replaced by U+FFFD. *)
Fixpoint unquote_fuel (fuel : nat) (s : string) : option string :=
  match s with
  | EmptyString => Some ""
  | String c rest =>
      match fuel with
      | O => None
      | S fuel' =>
          let b := utf8.code c in
          if b =? 92 then
            match rest with
            | EmptyString => None
            | String e rest' =>
                let k := utf8.code e in
                if (k =? 34) || (k =? 92) || (k =? 47) || (k =? 39)
                then String e <$> unquote_fuel fuel' rest'
                else if k =? 98 then String (utf8.byte 8) <$> unquote_fuel fuel' rest'
                else if k =? 102 then String (utf8.byte 12) <$> unquote_fuel fuel' rest'
                else if k =? 110 then String (utf8.byte 10) <$> unquote_fuel fuel' rest'
                else if k =? 114 then String (utf8.byte 13) <$> unquote_fuel fuel' rest'
                else if k =? 116 then String (utf8.byte 9) <$> unquote_fuel fuel' rest'
                else if k =? 117 then
                  let rr := getu4 s in
                  if rr <? 0 then None
                  else
                    let s6 := utf8.drop 6 s in
                    if IsSurrogate rr then
                      let dec := utf16_DecodeRune rr (getu4 s6) in
                      if dec =? utf8.RuneError
                      then String.append (utf8.AppendRune utf8.RuneError)
                             <$> unquote_fuel fuel' s6
                      else String.append (utf8.AppendRune dec)
                             <$> unquote_fuel fuel' (utf8.drop 6 s6)
                    else String.append (utf8.AppendRune rr) <$> unquote_fuel fuel' s6
                else None
            end
          else if (b =? 34) || (b <? 32) then None
          else if b <? 128 then String c <$> unquote_fuel fuel' rest
          else
            let '(rr, size) := utf8.DecodeRuneInString s in
            String.append (utf8.AppendRune rr) <$> unquote_fuel fuel' (utf8.drop size s)
      end
  end.

Definition unquote (s : string) : option string := unquote_fuel (String.length s) s.

(** What is read back for one rune of the string that was written: its
    bytes, or U+FFFD for a byte that is not valid UTF-8. *)
Definition read_back (x : Z * string) : string :=
  if utf8.invalid x then utf8.AppendRune utf8.RuneError else x.2.

(** The string with every byte that is not valid UTF-8 replaced by
    U+FFFD. *)
Definition coerced (s : string) : string :=
  gostrings.concat (map read_back (utf8.runes s)).

(** The Go string the decoder reads from the text the encoder wrote for
    [s]. *)
Definition reread (s : string) : string :=
  match unquote (string_text s) with
  | Some t => t
  | None => s
  end.
End gojson.


(** ** encoding/json on [cache]: the document [enc.Encode(result)] writes.
    A number is the text [MarshalJSON] returned; a string and the name of
    a member are the text written between the two quotes. *)
#[warnings="-register-all"]
Inductive json : Type :=
| JNull
| JNumber (text : string)
| JString (text : string)
| JObject (members : list (string * json)).

Definition encode_entry (e : entry) : json :=
  JObject [("mtime", JNumber (MarshalJSON (entry_MTime e)));
           ("sha256", JString (gojson.string_text (entry_SHA256 e)))].

Definition key_le (a b : string) : Prop := String.leb a b = true.
Global Instance key_le_dec (a b : string) : Decision (key_le a b) :=
  bool_eq_dec _ _.

(** The keys of a map in the encoder's order (sorted). *)
Definition sorted_keys (m : gmap string entry) : list string :=
  merge_sort key_le (elements (dom m)).

Definition member_of (m : gmap string entry) (k : string) : list (string * json) :=
  match m !! k with
  | Some e => [(gojson.string_text k, encode_entry e)]
  | None => []
  end.

Definition encode_map (m : gmap string entry) : json :=
  JObject (flat_map (member_of m) (sorted_keys m)).

(** The field tagged [omitempty] is left out for a nil or an empty map. *)
Definition encode_cache (c : cache) : json :=
  JObject (("hashes", encode_map (Hashes c)) ::
           match HashesAddnet c with
           | Some m => if decide (dom m = ∅) then [] else [("hashes-addnet", encode_map m)]
           | None => []
           end).

Fixpoint numbers (j : json) : list string :=
  match j with
  | JNull | JString _ => []
  | JNumber text => [text]
  | JObject members => flat_map (fun kv => let '(_, v) := kv in numbers v) members
  end.

Definition member_names (j : json) : list string :=
  match j with
  | JObject members => map fst members
  | _ => []
  end.

(** What the decoder reads back from [encode_entry e], for a finite time:
    the number through strconv.ParseFloat; the digest as it is (a digest is
    hexadecimal text of [worker] or a string the decoder made, valid UTF-8
    either way, and such a string is read back as it was written); the
    unexported [path] is not in the document. *)
Definition reload_entry (e : entry) : entry :=
  {| entry_MTime := strconv.ParseFloat_fixed7 (MarshalJSON (entry_MTime e));
     entry_SHA256 := entry_SHA256 e;
     entry_path := "" |}.

(** The map the decoder builds from the object [encode_map m]: the members
    in the order they were written, each stored under the key read from its
    text; of two members whose keys read the same, the later one stays. *)
Definition decode_map (m : gmap string entry) : gmap string entry :=
  fold_left (fun (acc : gmap string entry) (k : string) =>
               match m !! k with
               | Some e => <[gojson.reread k := reload_entry e]> acc
               | None => acc
               end)
            (sorted_keys m) ∅.

(** What a second run decodes from the document the first one wrote. *)
Definition reload (c : cache) : cache :=
  {| Hashes := decode_map (Hashes c);
     HashesAddnet :=
       match HashesAddnet c with
       | Some m => if decide (dom m = ∅) then None else Some (decode_map m)
       | None => None
       end |}.

(** ** A document whose "hashes" member is null

    [Decode] then stores a nil map in [result.Hashes] (line 95).  The
    staleness loop has nothing to visit and records no path, the walk
    queues every model file, and the first store of the collector (line
    132) is an assignment to an entry of a nil map: the program panics and
    writes nothing.  When no result reaches line 132 the run writes the nil
    map back, as null. *)
Inductive outcome : Type :=
| Written (doc : json)
| Panic.

Definition main_null (lib : GoLib) (root : string)
    (addnet : option (gmap string entry)) (done : list entry) : outcome :=
  if forallb (fun r => match entry_key lib root r with
                       | Some _ => false
                       | None => true
                       end) done
  then Written (JObject (("hashes", JNull) ::
                 match addnet with
                 | Some m =>
                     if decide (dom m = ∅) then [] else [("hashes-addnet", encode_map m)]
                 | None => []
                 end))
  else Panic.

Definition run_null (lib : GoLib) (fs : FileSystem) (root : string)
    (addnet : option (gmap string entry)) : outcome :=
  main_null lib root addnet (hashed fs (scan lib fs root ∅)).

(** The task the staleness loop sends for one entry of the map, if any. *)
Definition stale_task (lib : GoLib) (fs : FileSystem) (root : string)
    (pe : string * entry) : option task :=
  match os_Stat fs (modelPath lib root pe.1) with
  | inl _ => None
  | inr fi =>
      if changed fi pe.2
      then Some {| task_path := modelPath lib root pe.1; task_d := FileInfoToDirEntry fi |}
      else None
  end.

(** The reads deliver the whole content, in non-empty chunks and without
    error, whatever the sizes of the chunks. *)
Definition clean_reads (f : File) : Prop :=
  Forall (fun r : ReadResult => r.1 ≠ [] ∧ r.2 = None) (file_reads f) ∧
  concat (file_reads f).*1 = file_bytes f.



(** The binary64 value is a zero, or finite and below 2^B in magnitude. *)
Definition small (B : Z) (x : spec_float) : Prop :=
  match x with
  | S754_zero _ => True
  | S754_finite _ m e => Z.pos (digits2_pos m) + e ≤ B
  | _ => False
  end.

(** Joining the relative path of a result back to the root gives the path
    of the result (what filepath.Rel promises for the paths it accepts). *)
Definition coherent (lib : GoLib) (root : string) (r : entry) : bool :=
  match filepath_Rel lib root (entry_path r) with
  | inl _ => true
  | inr rel => String.eqb (filepath_Join lib root rel) (entry_path r)
  end.





(** The bytes of the reads that come before the first read returning no
    byte or an error: what the loop feeds to the hash. *)
Fixpoint delivered (reads : list ReadResult) : list byte :=
  match reads with
  | (b :: chunk, None) :: rest => (b :: chunk) ++ delivered rest
  | _ => []
  end.

(** The first read that returns no byte or an error; none when every read
    delivers bytes (the next one is then [0, io.EOF]). *)
Fixpoint first_stop (reads : list ReadResult) : option ReadResult :=
  match reads with
  | [] => None
  | (_ :: _, None) :: rest => first_stop rest
  | r :: _ => Some r
  end.

(** The error the loop returns: the one of a read that comes with bytes. *)
Definition read_error (reads : list ReadResult) : option error :=
  match first_stop reads with
  | Some (_ :: _, Some e) => Some e
  | _ => None
  end.

(** The paths of the non-directory entries the walk reports without
    error. *)
Definition walk_paths (fs : FileSystem) (root : string) : list string :=
  omap (fun c => match c with
                 | Visit path d None => if IsDir d then None else Some path
                 | _ => None
                 end)
       (filepath_WalkDir fs root).

(** ** The goroutines and their channels (lines 102-134 and 167-170)

    The hashers and the collector run while the main goroutine queues the
    tasks.  A goroutine takes a step when it is not blocked; which one
    steps next is up to the scheduler. *)

(** The number of hasher goroutines the loop of lines 106-120 starts. *)
Definition hasher_count (MaxHashers NumCPU : Z) : nat :=
  Z.to_nat (if MaxHashers =? 0 then NumCPU else MaxHashers).

(** [make(chan *task, 100)], [make(chan *entry, 100)]. *)
Definition chan_cap : nat := 100.

(** Where a hasher (lines 111-119) stands: at the [range] over [taskChan],
    at the send of line 116 with its result, or returned ([wg.Done()] has
    run). *)
Inductive hasher : Type :=
| Ranging
| Sending (e : entry)
| Returned.

(** Where the main goroutine stands from line 135 on: queueing (the tasks
    it has still to send), at [wg.Wait()] (line 168), at [wgResult.Wait()]
    (line 170), or past it. *)
Inductive main_at : Type :=
| Queueing (ts : list task)
| WaitHashers
| WaitCollector
| Encoding.

Record pipe : Type := {
  at_main : main_at;
  taskChan : list task;
  taskChan_closed : bool;
  hashers : list hasher;
  resultChan : list entry;
  resultChan_closed : bool;
  (** what the collector has received, oldest first *)
  collected : list entry;
  collector_returned : bool;
}.

Inductive goroutine : Type :=
| MainG
| HasherG (i : nat)
| CollectorG.

Definition is_returned (h : hasher) : bool :=
  match h with Returned => true | _ => false end.

(** The main goroutine: a send on [taskChan] (lines 146 and 163) blocks
    while the channel is full; then [close(taskChan)], [wg.Wait()],
    [close(resultChan)], [wgResult.Wait()]. *)
Definition main_step (s : pipe) : option pipe :=
  match at_main s with
  | Queueing (t :: ts) =>
      if (length (taskChan s) <? chan_cap)%nat
      then Some {| at_main := Queueing ts;
                   taskChan := taskChan s ++ [t];
                   taskChan_closed := taskChan_closed s;
                   hashers := hashers s;
                   resultChan := resultChan s;
                   resultChan_closed := resultChan_closed s;
                   collected := collected s;
                   collector_returned := collector_returned s |}
      else None
  | Queueing [] =>
      Some {| at_main := WaitHashers;
              taskChan := taskChan s;
              taskChan_closed := true;
              hashers := hashers s;
              resultChan := resultChan s;
              resultChan_closed := resultChan_closed s;
              collected := collected s;
              collector_returned := collector_returned s |}
  | WaitHashers =>
      if forallb is_returned (hashers s)
      then Some {| at_main := WaitCollector;
                   taskChan := taskChan s;
                   taskChan_closed := taskChan_closed s;
                   hashers := hashers s;
                   resultChan := resultChan s;
                   resultChan_closed := true;
                   collected := collected s;
                   collector_returned := collector_returned s |}
      else None
  | WaitCollector =>
      if collector_returned s
      then Some {| at_main := Encoding;
                   taskChan := taskChan s;
                   taskChan_closed := taskChan_closed s;
                   hashers := hashers s;
                   resultChan := resultChan s;
                   resultChan_closed := resultChan_closed s;
                   collected := collected s;
                   collector_returned := collector_returned s |}
      else None
  | Encoding => None
  end.

Definition with_hasher (s : pipe) (i : nat) (h : hasher) (tc : list task)
    (rc : list entry) : pipe :=
  {| at_main := at_main s;
     taskChan := tc;
     taskChan_closed := taskChan_closed s;
     hashers := <[i := h]> (hashers s);
     resultChan := rc;
     resultChan_closed := resultChan_closed s;
     collected := collected s;
     collector_returned := collector_returned s |}.

(** Hasher [i] (lines 112-118): it receives a task and calls [worker], and
    is then at the send when there is no error, back at the [range]
    otherwise; it returns when [taskChan] is closed and empty; its send
    blocks while [resultChan] is full. *)
Definition hasher_step (fs : FileSystem) (i : nat) (s : pipe) : option pipe :=
  match hashers s !! i with
  | Some Ranging =>
      match taskChan s with
      | t :: tc =>
          match worker fs t with
          | inr e => Some (with_hasher s i (Sending e) tc (resultChan s))
          | inl _ => Some (with_hasher s i Ranging tc (resultChan s))
          end
      | [] =>
          if taskChan_closed s
          then Some (with_hasher s i Returned [] (resultChan s))
          else None
      end
  | Some (Sending e) =>
      if (length (resultChan s) <? chan_cap)%nat
      then Some (with_hasher s i Ranging (taskChan s) (resultChan s ++ [e]))
      else None
  | Some Returned | None => None
  end.

(** The collector (lines 123-133): it receives a result, and returns when
    [resultChan] is closed and empty. *)
Definition collector_step (s : pipe) : option pipe :=
  if collector_returned s then None
  else
    match resultChan s with
    | e :: rc =>
        Some {| at_main := at_main s;
                taskChan := taskChan s;
                taskChan_closed := taskChan_closed s;
                hashers := hashers s;
                resultChan := rc;
                resultChan_closed := resultChan_closed s;
                collected := collected s ++ [e];
                collector_returned := false |}
    | [] =>
        if resultChan_closed s
        then Some {| at_main := at_main s;
                     taskChan := taskChan s;
                     taskChan_closed := taskChan_closed s;
                     hashers := hashers s;
                     resultChan := [];
                     resultChan_closed := resultChan_closed s;
                     collected := collected s;
                     collector_returned := true |}
        else None
    end.

Definition fire (fs : FileSystem) (g : goroutine) (s : pipe) : option pipe :=
  match g with
  | MainG => main_step s
  | HasherG i => hasher_step fs i s
  | CollectorG => collector_step s
  end.

(** One step of some goroutine. *)
Definition pipe_step (fs : FileSystem) (s s' : pipe) : Prop :=
  ∃ g, fire fs g s = Some s'.

(** The state at line 135: [n] hashers started, the tasks [ts] to queue. *)
Definition pipe_start (ts : list task) (n : nat) : pipe :=
  {| at_main := Queueing ts;
     taskChan := [];
     taskChan_closed := false;
     hashers := replicate n Ranging;
     resultChan := [];
     resultChan_closed := false;
     collected := [];
     collector_returned := false |}.

(** The schedule that runs the goroutines [gs] in turn, skipping one that
    is blocked. *)
Definition run_goroutines (fs : FileSystem) (gs : list goroutine) (s : pipe) : pipe :=
  fold_left (fun s g => match fire fs g s with Some s' => s' | None => s end) gs s.

(** The results the hashers hold at the send. *)
Definition in_hand (hs : list hasher) : list entry :=
  omap (fun h => match h with Sending e => Some e | _ => None end) hs.

Definition to_queue (s : pipe) : list task :=
  match at_main s with Queueing ts => ts | _ => [] end.

(** The steps a hasher has left without receiving another task. *)
Definition hasher_left (h : hasher) : nat :=
  match h with Ranging => 1 | Sending _ => 3 | Returned => 0 end.

(** A bound on the number of steps the goroutines have left. *)
Definition steps_left (s : pipe) : nat :=
  4 * length (to_queue s) + 3 * length (taskChan s)
  + sum_list_with hasher_left (hashers s)
  + length (resultChan s)
  + (if collector_returned s then 0 else 1)
  + match at_main s with
    | Queueing _ => 3 | WaitHashers => 2 | WaitCollector => 1 | Encoding => 0
    end.

(** What holds of every state the goroutines reach from [pipe_start ts n]:
    each successful result is in exactly one place, and the flags agree
    with the place of the main goroutine. *)
Definition pipe_inv (fs : FileSystem) (ts : list task) (n : nat) (s : pipe) : Prop :=
  hashed fs ts ≡ₚ
    (collected s ++ resultChan s ++ in_hand (hashers s)
       ++ hashed fs (taskChan s ++ to_queue s))%list ∧
  length (hashers s) = n ∧
  match at_main s with
  | Queueing _ =>
      taskChan_closed s = false ∧ resultChan_closed s = false ∧
      Forall (fun h => h ≠ Returned) (hashers s)
  | WaitHashers => taskChan_closed s = true ∧ resultChan_closed s = false
  | WaitCollector =>
      taskChan_closed s = true ∧ resultChan_closed s = true ∧
      Forall (fun h => h = Returned) (hashers s)
  | Encoding =>
      taskChan_closed s = true ∧ resultChan_closed s = true ∧
      Forall (fun h => h = Returned) (hashers s) ∧ collector_returned s = true
  end ∧
  (collector_returned s = true → resultChan s = [] ∧ resultChan_closed s = true) ∧
  (Returned ∈ hashers s → taskChan s = []).

(** Without hashers: nothing leaves [taskChan]. *)
Definition idle_inv (ts : list task) (s : pipe) : Prop :=
  hashers s = [] ∧ resultChan s = [] ∧ collected s = [] ∧
  (taskChan s ++ to_queue s)%list = ts ∧ (length (taskChan s) ≤ chan_cap)%nat ∧
  match at_main s with
  | Queueing _ => resultChan_closed s = false ∧ collector_returned s = false
  | WaitHashers => resultChan_closed s = false ∧ collector_returned s = false
  | WaitCollector => resultChan_closed s = true
  | Encoding => True
  end.

(** ** Real values of binary64 numbers (for the accuracy of the stored
    time) *)

(** The real number [m * 2^e]. *)
Definition F2R (m e : Z) : R := (IZR m * powerRZ 2 e)%R.

(** The value of a binary64 (0 for what is not a number). *)
Definition SF2R (x : spec_float) : R :=
  match x with
  | S754_finite s m e => F2R (cond_Zopp s (Z.pos m)) e
  | _ => 0%R
  end.

(** A zero or a positive binary64. *)
Definition nonneg (x : spec_float) : Prop :=
  match x with
  | S754_zero false | S754_finite false _ _ => True
  | _ => False
  end.

(** [n] is [x] rounded to the nearest integer, ties to even. *)
Definition rounds_to (x : R) (n : Z) : Prop :=
  (IZR n - 1 / 2 <= x <= IZR n + 1 / 2)%R ∧
  ((x = IZR n - 1 / 2 ∨ x = IZR n + 1 / 2)%R → Z.even n = true).

(** [n] is [x] without its fraction: [x] truncated towards zero. *)
Definition truncates_to (x : R) (n : Z) : Prop :=
  ((0 <= x)%R ∧ (IZR n <= x < IZR n + 1)%R) ∨
  ((x < 0)%R ∧ (IZR n - 1 < x <= IZR n)%R).

(** The stored time [m] is finite and [n] is its count of whole seconds. *)
Definition whole_seconds (m : MTime) (n : Z) : Prop :=
  float64.is_finite m = true ∧ truncates_to (SF2R (Prim2SF m)) n.

(** A lower-case hexadecimal digit. *)
Definition is_lower_hex (c : ascii) : bool :=
  let n := nat_of_ascii c in
  ((48 <=? n)%nat && (n <=? 57)%nat) || ((97 <=? n)%nat && (n <=? 102)%nat).

(** The walk reports a regular file: when [worker] hashes the entry, the
    entry's [Info()] dates the file between 1970 and 2262 and [os.Stat]
    dates it no more than a second later. *)
Definition dated_alike (fs : FileSystem) (c : WalkCall) : bool :=
  match c with
  | Visit path d None =>
      match worker fs {| task_path := path; task_d := d |} with
      | inl _ => true
      | inr _ =>
          match Info d, os_Stat fs path with
          | inr info, inr fi =>
              (0 <=? ModTime info) && (ModTime info <? 2 ^ 63) &&
              (ModTime fi <=? ModTime info + gotime.Second)
          | _, _ => false
          end
      end
  | _ => true
  end.

(** The key the collector stores the result under is valid UTF-8. *)
Definition valid_key (lib : GoLib) (root : string) (r : entry) : bool :=
  match entry_key lib root r with
  | Some k => utf8.ValidString k
  | None => true
  end.


(** ** Scenarios: a models directory and some caches *)

Definition text (s : string) : list byte := list_byte_of_string s.

Definition regular (sec nsec : Z) : FileInfo :=
  {| ModTime := gotime.Unix sec nsec; fi_IsDir := false |}.

Definition directory : FileInfo :=
  {| ModTime := gotime.Unix 50 0; fi_IsDir := true |}.

Definition stored (m : MTime) (sha : string) : entry :=
  {| entry_MTime := m; entry_SHA256 := sha; entry_path := "" |}.

Definition only (p : string) (e : entry) : cache :=
  {| Hashes := {[ p := e ]}; HashesAddnet := None |}.

(** models/ holds a.ckpt (the bytes "abc", modified 100.5 s after the
    epoch, read in two chunks), B.SafeTensors (empty, modified at 200.5 s),
    notes.txt, and link.ckpt, a symbolic link whose target is gone:
    [os.Stat] and [os.Open] fail on it, the walk lists it. *)
Definition models : FileSystem := {|
  os_Stat p :=
    if String.eqb p "models" then inr directory
    else if String.eqb p "models/a.ckpt" then inr (regular 100 500000000)
    else if String.eqb p "models/B.SafeTensors" then inr (regular 200 500000000)
    else if String.eqb p "models/notes.txt" then inr (regular 100 500000000)
    else inl ErrNotExist;
  os_Open p :=
    if String.eqb p "models/a.ckpt"
    then inr {| file_bytes := text "abc";
                file_reads := [(text "ab", None); (text "c", None)] |}
    else if String.eqb p "models/B.SafeTensors"
    then inr {| file_bytes := []; file_reads := [] |}
    else if String.eqb p "models/notes.txt"
    then inr {| file_bytes := text "n"; file_reads := [(text "n", None)] |}
    else inl ErrNotExist;
  filepath_WalkDir r :=
    if String.eqb r "models"
    then [Visit "models" (FileInfoToDirEntry directory) None;
          Visit "models/B.SafeTensors" (FileInfoToDirEntry (regular 200 500000000)) None;
          Visit "models/a.ckpt" (FileInfoToDirEntry (regular 100 500000000)) None;
          Visit "models/link.ckpt" (FileInfoToDirEntry (regular 90 0)) None;
          Visit "models/notes.txt" (FileInfoToDirEntry (regular 100 500000000)) None]
    else [RootError r ErrNotExist];
|}.

(** disk/ holds big.ckpt, the bytes "hello world": the first read returns
    "hello ", the second fails with an input/output error, as [os.File.Read]
    reports it: no byte and the error. *)
Definition failing_disk : FileSystem := {|
  os_Stat p :=
    if String.eqb p "disk/big.ckpt" then inr (regular 100 0) else inl ErrNotExist;
  os_Open p :=
    if String.eqb p "disk/big.ckpt"
    then inr {| file_bytes := text "hello world";
                file_reads := [(text "hello ", None); ([], Some EIO)] |}
    else inl ErrNotExist;
  filepath_WalkDir r :=
    if String.eqb r "disk"
    then [Visit "disk/big.ckpt" (FileInfoToDirEntry (regular 100 0)) None]
    else [RootError r ErrNotExist];
|}.

(** links/ holds ln.ckpt, a symbolic link made at 90 s to a file with the
    bytes "abc", modified at 100.5 s: [os.Stat] and [os.Open] follow the
    link, the [DirEntry] of the walk describes the link itself. *)
Definition links : FileSystem := {|
  os_Stat p :=
    if String.eqb p "links/ln.ckpt" then inr (regular 100 500000000) else inl ErrNotExist;
  os_Open p :=
    if String.eqb p "links/ln.ckpt"
    then inr {| file_bytes := text "abc"; file_reads := [(text "abc", None)] |}
    else inl ErrNotExist;
  filepath_WalkDir r :=
    if String.eqb r "links"
    then [Visit "links/ln.ckpt" (FileInfoToDirEntry (regular 90 0)) None]
    else [RootError r ErrNotExist];
|}.

Definition big_task : task :=
  {| task_path := "disk/big.ckpt"; task_d := FileInfoToDirEntry (regular 100 0) |}.

Definition sha_abc : string :=
  "ba7816bf8f01cfea414140de5dae2223b00361a396177a9cb410ff61f20015ad".

(** a.ckpt as a run stores it. *)
Definition cache_fresh : cache := only "checkpoint/a.ckpt" (stored 101.5%float sha_abc).
(** a.ckpt with a stored time 50 s later than the file's. *)
Definition cache_later : cache := only "checkpoint/a.ckpt" (stored 151%float "00").
(** a.ckpt under a key without the namespace tag, and an old time. *)
Definition cache_unprefixed : cache := only "a.ckpt" (stored 1%float "00").
(** An entry for the dangling link. *)
Definition cache_link : cache := only "checkpoint/link.ckpt" (stored 1%float "00").
(** A document with an empty hashes-addnet object. *)
Definition cache_addnet_empty : cache := {| Hashes := ∅; HashesAddnet := Some ∅ |}.
(** A document with one entry in hashes-addnet. *)
Definition cache_addnet : cache :=
  {| Hashes := ∅; HashesAddnet := Some {[ "lora/x" := stored 7.25%float "ab" ]} |}.

(** A schedule for two hashers: each goroutine in turn, twelve times. *)
Definition turns : list goroutine :=
  concat (replicate 12 [MainG; HasherG 0; HasherG 1; CollectorG]).

(** a.ckpt and B.SafeTensors, both with an old time. *)
Definition cache_two_old : cache :=
  {| Hashes := {[ "checkpoint/a.ckpt" := stored 1%float "00";
                  "checkpoint/B.SafeTensors" := stored 1%float "00" ]};
     HashesAddnet := None |}.

(** bytes/ holds one file, whose name is the byte FF, which is not valid
    UTF-8, followed by ".ckpt". *)
Definition ff_ckpt : string := "bytes/" +:+ utf8.of_bytes [255] +:+ ".ckpt".

Definition byte_names : FileSystem := {|
  os_Stat p :=
    if String.eqb p ff_ckpt then inr (regular 100 500000000) else inl ErrNotExist;
  os_Open p :=
    if String.eqb p ff_ckpt
    then inr {| file_bytes := text "abc"; file_reads := [(text "abc", None)] |}
    else inl ErrNotExist;
  filepath_WalkDir r :=
    if String.eqb r "bytes"
    then [Visit ff_ckpt (FileInfoToDirEntry (regular 100 500000000)) None]
    else [RootError r ErrNotExist];
|}.

(** A tree with the single file a.ckpt, modified [sec] seconds after the
    epoch. *)
Definition dated (sec : Z) : FileSystem := {|
  os_Stat p :=
    if String.eqb p "tree/a.ckpt" then inr (regular sec 0) else inl ErrNotExist;
  os_Open p :=
    if String.eqb p "tree/a.ckpt"
    then inr {| file_bytes := text "abc"; file_reads := [(text "abc", None)] |}
    else inl ErrNotExist;
  filepath_WalkDir r :=
    if String.eqb r "tree"
    then [Visit "tree/a.ckpt" (FileInfoToDirEntry (regular sec 0)) None]
    else [RootError r ErrNotExist];
|}.

(** a.ckpt with a stored time just above -151 s: [int64] truncates it to
    -150, the document rounds it to -151. *)
Definition cache_before_epoch : cache :=
  only "checkpoint/a.ckpt" (stored (-0x96.fffffffcp0)%float sha_abc).
(** notes.txt under a key without the namespace tag, and an old time. *)
Definition cache_notes_old : cache := only "notes.txt" (stored 1%float "00").

(** * Properties *)

(** ** The library models on known values *)

(** FIPS 180-4 test vectors: the empty message, "abc", and the 56-byte
    message that needs a second block. *)
Example Sum256_vectors :
  gofmt.Sprintf_x (sha256.Sum256 [])
    = "e3b0c44298fc1c149afbf4c8996fb92427ae41e4649b934ca495991b7852b855" ∧
  gofmt.Sprintf_x (sha256.Sum256 (text "abc")) = sha_abc ∧
  gofmt.Sprintf_x
    (sha256.Sum256 (text "abcdbcdecdefdefgefghfghighijhijkijkljklmklmnlmnomnopnopq"))
    = "248d6a61d20638b8e5c026930c3e6039a33ce45964ff2167f6ecedd419db06c1".
Proof. repeat split; vm_compute; reflexivity. Qed.

(** Rows of the tables Go's own tests check Clean, Rel, Join and Ext
    against. *)
Example filepath_on_known_paths :
  map filepath.Clean ["abc//def//ghi"; "abc/./def"; "abc/def/../.."; "/../abc";
                      "../../abc/.."; ""; "abc/"]
    = ["abc/def/ghi"; "abc/def"; "."; "/abc"; "../.."; "."; "abc"] ∧
  map (fun bt : string * string => filepath.Rel bt.1 bt.2)
      [("a/b", "a/b"); ("a/b", "a/b/c/d"); ("a/b/c", "a/c/d"); ("/a/b", "/a/c/d");
       (".", "a/b"); ("..", "a"); ("a", "/a")]
    = [inr "."; inr "c/d"; inr "../../c/d"; inr "../c/d"; inr "a/b";
       inl ErrRel; inl ErrRel] ∧
  map (fun ab : string * string => filepath.Join ab.1 ab.2)
      [("models", "a.ckpt"); ("models/", "sub/../a.ckpt"); ("", "a"); ("a", ""); ("", "")]
    = ["models/a.ckpt"; "models/a.ckpt"; "a"; "a"; ""] ∧
  map filepath.Ext ["a.ckpt"; "a.b/c"; "a.b/c.d.E"; "dir/.hidden"; ""]
    = [".ckpt"; ""; ".E"; ".hidden"; ""].
Proof. repeat split; vm_compute; reflexivity. Qed.

(** The conversions and the rendering: truncation towards zero, rounding
    half to even at the seventh decimal, and a time of today going through
    the document and back. *)
Example numbers_on_known_values :
  float64.to_int64 101.5%float = 101 ∧
  float64.to_int64 (-0.5)%float = 0 ∧
  float64.to_int64 0x1p63%float = int64.min ∧
  gofmt.Sprintf_7f 101.5%float = "101.5000000" ∧
  gofmt.Sprintf_7f 0.00390625%float = "0.0039062" ∧
  gofmt.Sprintf_7f (-0)%float = "-0.0000000" ∧
  MarshalJSON (margin_mtime (regular 1700000000 123456789)) = "1700000001.1234567" ∧
  strconv.ParseFloat_fixed7 "1700000001.1234567" = margin_mtime (regular 1700000000 123456789) ∧
  gotime.Sub (gotime.Unix 100 500000000) (gotime.Unix 151 0) = -50500000000.
Proof. repeat split; vm_compute; reflexivity. Qed.

(** UTF-8, on rows of the tables Go's own tests check [utf8.ValidString]
    and [DecodeRuneInString] against: a surrogate, an overlong form and a
    value above U+10FFFF are not valid. *)
Example utf8_on_known_strings :
  map utf8.ValidString
      [""; "abc"; utf8.of_bytes [226; 130; 172]; utf8.of_bytes [244; 143; 191; 191];
       utf8.of_bytes [239; 191; 189]; utf8.of_bytes [255]; utf8.of_bytes [192; 128];
       utf8.of_bytes [237; 160; 128]; utf8.of_bytes [244; 144; 128; 128];
       utf8.of_bytes [226; 130]]
    = [true; true; true; true; true; false; false; false; false; false] ∧
  map utf8.DecodeRuneInString
      [utf8.of_bytes [226; 130; 172]; utf8.of_bytes [240; 159; 152; 128]; "a"; "";
       utf8.of_bytes [128]]
    = [(8364, 3%nat); (128512, 4%nat); (97, 1%nat); (65533, 0%nat); (65533, 1%nat)] ∧
  map utf8.AppendRune [97; 233; 8364; 128512; 55296; -1]
    = ["a"; utf8.of_bytes [195; 169]; utf8.of_bytes [226; 130; 172];
       utf8.of_bytes [240; 159; 152; 128]; utf8.of_bytes [239; 191; 189];
       utf8.of_bytes [239; 191; 189]].
Proof. repeat split; vm_compute; reflexivity. Qed.

(** The strings of a document: what the encoder escapes, what it writes for
    a byte that is not valid UTF-8, and what the decoder reads. *)
Example json_strings_on_known_values :
  gojson.string_text "a<b>&c" = "a\u003cb\u003e\u0026c" ∧
  gojson.string_text (utf8.of_bytes [34; 92; 10; 9; 1; 127])
    = "\" +:+ utf8.of_bytes [34] +:+ "\\\n\t\u0001" +:+ utf8.of_bytes [127] ∧
  gojson.string_text (utf8.of_bytes [195; 169; 255; 226; 128; 168; 239; 191; 189])
    = utf8.of_bytes [195; 169] +:+ "\ufffd\u2028" +:+ utf8.of_bytes [239; 191; 189] ∧
  gojson.unquote "\u00e9 \ud83d\ude00 \ud83d \/ \n"
    = Some (utf8.of_bytes [195; 169; 32; 240; 159; 152; 128; 32; 239; 191; 189; 32; 47; 32; 10]) ∧
  gojson.unquote (utf8.of_bytes [97; 255]) = Some (utf8.of_bytes [97; 239; 191; 189]) ∧
  gojson.unquote "\x" = None ∧
  gojson.reread (utf8.of_bytes [255] +:+ ".ckpt") = utf8.of_bytes [239; 191; 189] +:+ ".ckpt".
Proof. repeat split; vm_compute; reflexivity. Qed.

(** [strings.ToLower] beyond ASCII: the Kelvin sign (U+212A) is lowered to
    k, so an extension written with it is a model extension. *)
Example ToLower_on_known_letters :
  gostrings.Map unicode.ToLower (utf8.of_bytes [75; 226; 132; 170; 195; 137; 255])
    = utf8.of_bytes [107; 107; 195; 169; 239; 191; 189] ∧
  strings_ToLower unix ".CKPT" = ".ckpt" ∧
  model_ext unix ("models/a.c" +:+ utf8.of_bytes [226; 132; 170] +:+ "pt") = true ∧
  model_ext unix ("models/a.ckp" +:+ utf8.of_bytes [195; 158]) = false.
Proof. repeat split; vm_compute; reflexivity. Qed.

(** A document whose "hashes" is null: with a model file to hash the
    program panics; with none it writes the null back. *)
Example null_hashes_on_the_models :
  run_null unix models "models" None = Panic ∧
  run_null unix models "elsewhere" None = Written (JObject [("hashes", JNull)]).
Proof. repeat split; vm_compute; reflexivity. Qed.

(** The scenario's library on its paths. *)
Example unix_on_the_models :
  modelPath unix "models" "checkpoint/a.ckpt" = "models/a.ckpt" ∧
  modelPath unix "models" "a.ckpt" = "models/a.ckpt" ∧
  model_ext unix "models/B.SafeTensors" = true ∧
  model_ext unix "models/notes.txt" = false.
Proof. repeat split; vm_compute; reflexivity. Qed.

(** ** strings.TrimPrefix *)

Lemma strip_app (p s : string) : gostrings.strip p (p +:+ s) = Some s.
Proof.
  induction p as [|a p IH]; simpl; [done|].
  by rewrite Ascii.eqb_refl.
Qed.

Lemma TrimPrefix_app (p s : string) : gostrings.TrimPrefix (p +:+ s) p = s.
Proof. unfold gostrings.TrimPrefix. by rewrite strip_app. Qed.

Lemma TrimPrefix_without (s p : string) :
  gostrings.HasPrefix s p = false → gostrings.TrimPrefix s p = s.
Proof.
  unfold gostrings.HasPrefix, gostrings.TrimPrefix.
  by destruct (gostrings.strip p s).
Qed.

Lemma HasPrefix_app (p s : string) : gostrings.HasPrefix (p +:+ s) p = true.
Proof. unfold gostrings.HasPrefix. by rewrite strip_app. Qed.

(** ** time.Unix *)

Lemma wrap_small (z : Z) : - 2 ^ 63 ≤ z < 2 ^ 63 → int64.wrap z = z.
Proof. intros Hz. unfold int64.wrap. rewrite Z.mod_small; lia. Qed.

(** Whole seconds the int64 count from the year 1 can hold. *)
Lemma Unix_seconds (sec : Z) :
  - 2 ^ 63 - gotime.unixToInternal ≤ sec < 2 ^ 63 - gotime.unixToInternal →
  gotime.Unix sec 0 = sec * gotime.Second.
Proof.
  intros Hs. unfold gotime.Unix, gotime.unixToInternal, gotime.Second in *.
  cbn [Z.ltb Z.leb Z.compare orb]. rewrite wrap_small by lia. lia.
Qed.

(** Seconds it cannot hold: the count wraps around, to a time 2^64
    seconds earlier. *)
Lemma Unix_wrapped (sec : Z) :
  2 ^ 63 - gotime.unixToInternal ≤ sec < 2 ^ 63 →
  gotime.Unix sec 0 = (sec - 2 ^ 64) * gotime.Second.
Proof.
  intros Hs. unfold gotime.Unix, gotime.unixToInternal, gotime.Second in *.
  cbn [Z.ltb Z.leb Z.compare orb]. unfold int64.wrap.
  replace (sec + 62135596800 + 2 ^ 63) with (sec + 62135596800 - 2 ^ 63 + 1 * 2 ^ 64) by lia.
  rewrite Z.mod_add by lia. rewrite Z.mod_small; lia.
Qed.

(** ** The worker *)

Lemma worker_inr (fs : FileSystem) (t : task) (e : entry) :
  worker fs t = inr e →
  ∃ info f h,
    Info (task_d t) = inr info ∧
    os_Open fs (task_path t) = inr f ∧
    read_loop (file_reads f) sha256.New = (None, h) ∧
    e = {| entry_MTime := margin_mtime info;
           entry_SHA256 := gofmt.Sprintf_x (sha256.Sum h);
           entry_path := task_path t |}.
Proof.
  unfold worker. intros H.
  destruct (Info (task_d t)) as [?|info]; [done|].
  destruct (os_Open fs (task_path t)) as [?|f]; [done|].
  destruct (read_loop (file_reads f) sha256.New) as [[?|] h] eqn:Hl; [done|].
  exists info, f, h. by inversion H.
Qed.

Lemma worker_path (fs : FileSystem) (t : task) (e : entry) :
  worker fs t = inr e → entry_path e = task_path t.
Proof. intros (info & f & h & _ & _ & _ & ->)%worker_inr. done. Qed.


Lemma elem_of_hashed (fs : FileSystem) (ts : list task) (e : entry) :
  e ∈ hashed fs ts ↔ ∃ t, t ∈ ts ∧ worker fs t = inr e.
Proof.
  unfold hashed. rewrite list_elem_of_omap. split.
  - intros (t & Ht & Hw). exists t. split; [done|].
    destruct (worker fs t); by inversion Hw.
  - intros (t & Ht & Hw). exists t. by rewrite Hw.
Qed.

(** Clean reads: the loop ends without error, having written the content. *)
Lemma read_loop_clean (reads : list ReadResult) (h : sha256.digest) :
  Forall (fun r : ReadResult => r.1 ≠ [] ∧ r.2 = None) reads →
  read_loop reads h =
    (None, {| sha256.written := sha256.written h ++ concat reads.*1 |}).
Proof.
  intros Hall. revert h. induction Hall as [|[chunk err] reads [Hne Herr] _ IH]; intros h.
  - simpl. by rewrite app_nil_r.
  - simpl in Hne, Herr. subst err. cbn [read_loop].
    destruct chunk as [|b chunk]; [done|].
    cbn [sha256.Write]. rewrite IH. cbn. by rewrite <- app_assoc.
Qed.

(** ** The staleness loop, the walk and the collector *)
Section Pipeline.
Context (lib : GoLib) (fs : FileSystem) (root : string).

Local Abbreviation mp := (modelPath lib root).
Local Abbreviation step := (detect_step lib fs root).

Lemma schedule_iter (c : cache) iter done p e :
  schedule lib fs root c iter done →
  (p, e) ∈ iter ↔ Hashes c !! p = Some e.
Proof. intros [Hi _]. rewrite Hi. apply elem_of_map_to_list. Qed.

Lemma schedule_done (c : cache) iter done r :
  schedule lib fs root c iter done →
  r ∈ done ↔ ∃ t, t ∈ queued lib fs root c iter ∧ worker fs t = inr r.
Proof. intros [_ Hd]. rewrite Hd. apply elem_of_hashed. Qed.

(** The loop only ever deletes. *)
Lemma detect_fold_None iter st p :
  d_hashes st !! p = None → d_hashes (fold_left step iter st) !! p = None.
Proof.
  revert st. induction iter as [|[q e] iter IH]; intros st Hst; [done|].
  simpl. apply IH. unfold detect_step.
  destruct (os_Stat fs (mp q)); simpl; [|done].
  destruct (decide (q = p)) as [->|Hne].
  - apply lookup_delete_eq.
  - by rewrite lookup_delete_ne.
Qed.

(** An entry whose file is found stays as it is. *)
Lemma detect_fold_found iter st p fi :
  os_Stat fs (mp p) = inr fi →
  d_hashes (fold_left step iter st) !! p = d_hashes st !! p.
Proof.
  intros Hp. revert st. induction iter as [|[q e] iter IH]; intros st; [done|].
  simpl. rewrite IH. unfold detect_step.
  destruct (os_Stat fs (mp q)) eqn:Hq; simpl; [|done].
  apply lookup_delete_ne. intros ->. congruence.
Qed.

(** An entry whose file is not found is deleted when the loop visits it. *)
Lemma detect_fold_missing iter st p err :
  os_Stat fs (mp p) = inl err → p ∈ iter.*1 →
  d_hashes (fold_left step iter st) !! p = None.
Proof.
  intros Hp. revert st. induction iter as [|[q e] iter IH]; intros st Hin.
  - by apply elem_of_nil in Hin.
  - simpl in Hin. apply elem_of_cons in Hin as [<-|Hin].
    + simpl. apply detect_fold_None. unfold detect_step. rewrite Hp. simpl.
      apply lookup_delete_eq.
    + simpl. by apply IH.
Qed.

Lemma detect_fold_tasks iter st :
  d_tasks (fold_left step iter st) = (d_tasks st ++ omap (stale_task lib fs root) iter)%list.
Proof.
  revert st. induction iter as [|[q e] iter IH]; intros st.
  - simpl. by rewrite app_nil_r.
  - simpl. rewrite IH. unfold detect_step, stale_task. simpl.
    destruct (os_Stat fs (mp q)) as [?|fi]; simpl; [done|].
    destruct (changed fi e); simpl; [|done]. by rewrite <- app_assoc.
Qed.

Lemma detect_fold_known iter st x :
  x ∈ d_known (fold_left step iter st) ↔
  x ∈ d_known st ∨ ∃ p e fi, (p, e) ∈ iter ∧ mp p = x ∧ os_Stat fs x = inr fi.
Proof.
  revert st. induction iter as [|[q e] iter IH]; intros st.
  - simpl. split; [by left|]. intros [?|(p & e & fi & Hin & _)]; [done|].
    by apply elem_of_nil in Hin.
  - simpl. rewrite IH. unfold detect_step.
    destruct (os_Stat fs (mp q)) as [err|fi] eqn:Hq; simpl.
    + split.
      * intros [?|(p & e' & fi & Hin & Hx & Hs)]; [by left|].
        right. exists p, e', fi. by rewrite elem_of_cons; auto.
      * intros [?|(p & e' & fi & Hin & Hx & Hs)]; [by left|].
        apply elem_of_cons in Hin as [[= -> ->]|Hin].
        -- rewrite Hx in Hq. congruence.
        -- right. by exists p, e', fi.
    + rewrite elem_of_union, elem_of_singleton. split.
      * intros [[->|?]|(p & e' & fi' & Hin & Hx & Hs)].
        -- right. exists q, e, fi. rewrite elem_of_cons. auto.
        -- by left.
        -- right. exists p, e', fi'. rewrite elem_of_cons. auto.
      * intros [?|(p & e' & fi' & Hin & Hx & Hs)]; [by left; right|].
        apply elem_of_cons in Hin as [[= -> ->]|Hin].
        -- left. by left.
        -- right. by exists p, e', fi'.
Qed.

Lemma detect_tasks h iter :
  d_tasks (detect lib fs root h iter) = omap (stale_task lib fs root) iter.
Proof. unfold detect. by rewrite detect_fold_tasks. Qed.

Lemma detect_known h iter x :
  x ∈ d_known (detect lib fs root h iter) ↔
  ∃ p e fi, (p, e) ∈ iter ∧ mp p = x ∧ os_Stat fs x = inr fi.
Proof.
  unfold detect. rewrite detect_fold_known. simpl. split.
  - intros [H|H]; [by apply elem_of_empty in H|done].
  - by right.
Qed.

(** A task of the staleness loop: the path of an entry found and judged
    changed, with the information [os.Stat] returned. *)
Lemma elem_of_detect_tasks h iter t :
  t ∈ d_tasks (detect lib fs root h iter) ↔
  ∃ p e fi, (p, e) ∈ iter ∧ os_Stat fs (mp p) = inr fi ∧ changed fi e = true ∧
            t = {| task_path := mp p; task_d := FileInfoToDirEntry fi |}.
Proof.
  rewrite detect_tasks, list_elem_of_omap. unfold stale_task. split.
  - intros ([p e] & Hin & Hs). simpl in Hs.
    destruct (os_Stat fs (mp p)) as [?|fi] eqn:Hp; [done|].
    destruct (changed fi e) eqn:Hc; [|done].
    exists p, e, fi. by inversion Hs.
  - intros (p & e & fi & Hin & Hp & Hc & ->). exists (p, e).
    split; [done|]. simpl. by rewrite Hp, Hc.
Qed.

(** A task of the walk. *)
Lemma elem_of_scan known t :
  t ∈ scan lib fs root known ↔
  Visit (task_path t) (task_d t) None ∈ filepath_WalkDir fs root ∧
  IsDir (task_d t) = false ∧
  model_ext lib (task_path t) = true ∧
  task_path t ∉ known.
Proof.
  unfold scan. rewrite list_elem_of_omap. split.
  - intros (c & Hin & Hv). destruct c as [|path d [err|]]; simpl in Hv; try done.
    + by destruct (IsDir d).
    + destruct (IsDir d) eqn:Hd; [done|].
      destruct (model_ext lib path) eqn:He; [|done]. simpl in Hv.
      destruct (decide (path ∈ known)); [done|].
      injection Hv as <-. done.
  - intros (Hin & Hd & He & Hk). eexists. split; [exact Hin|].
    simpl. rewrite Hd, He. simpl. destruct (decide (task_path t ∈ known)); [done|].
    by destruct t.
Qed.

(** ** The collector *)

Lemma collect_app h done1 done2 :
  collect lib root h (done1 ++ done2)%list = collect lib root (collect lib root h done1) done2.
Proof. unfold collect. apply fold_left_app. Qed.

(** A key no result is stored under keeps what it had. *)
Lemma collect_other h done k :
  (∀ r, r ∈ done → entry_key lib root r ≠ Some k) →
  collect lib root h done !! k = h !! k.
Proof.
  revert h. induction done as [|r done IH]; intros h Hk; [done|].
  simpl. rewrite IH.
  - unfold merge. destruct (entry_key lib root r) as [k'|] eqn:Hr; [|done].
    apply lookup_insert_ne. intros ->. eapply Hk; [|done]. by left.
  - intros r' Hr'. apply Hk. by right.
Qed.

(** A key some result is stored under holds one of those results. *)
Lemma collect_stored h done k r :
  r ∈ done → entry_key lib root r = Some k →
  ∃ r', r' ∈ done ∧ entry_key lib root r' = Some k ∧
        collect lib root h done !! k = Some r'.
Proof.
  revert h. induction done as [|r0 done IH] using rev_ind; intros h Hin Hk.
  - by apply elem_of_nil in Hin.
  - rewrite collect_app. simpl. unfold merge at 1.
    destruct (decide (entry_key lib root r0 = Some k)) as [H0|H0].
    + rewrite H0. exists r0. rewrite lookup_insert_eq.
      split; [|done]. rewrite elem_of_app, list_elem_of_singleton. by right.
    + apply elem_of_app in Hin as [Hin|Hin%list_elem_of_singleton]; [|by subst].
      destruct (IH h Hin Hk) as (r' & Hr' & Hk' & Hl).
      exists r'. split; [rewrite elem_of_app; by left|]. split; [done|].
      destruct (entry_key lib root r0) as [k0|]; [|done].
      rewrite lookup_insert_ne; [done|]. intros ->. done.
Qed.

(** Every key the collector writes starts with the namespace tag. *)
Lemma entry_key_prefix r k :
  entry_key lib root r = Some k → gostrings.HasPrefix k "checkpoint/" = true.
Proof.
  unfold entry_key. destruct (filepath_Rel lib root (entry_path r)); [done|].
  intros [= <-]. apply HasPrefix_app.
Qed.

Lemma entry_key_inr r rel :
  filepath_Rel lib root (entry_path r) = inr rel →
  entry_key lib root r = Some ("checkpoint/" +:+ rel).
Proof. unfold entry_key. by intros ->. Qed.

(** Where joining the relative path back to the root gives the path, the
    key of a result resolves to the path of that result. *)
Lemma entry_key_resolves r k :
  (∀ rel, filepath_Rel lib root (entry_path r) = inr rel →
          filepath_Join lib root rel = entry_path r) →
  entry_key lib root r = Some k → mp k = entry_path r.
Proof.
  unfold entry_key, modelPath. intros Hc.
  destruct (filepath_Rel lib root (entry_path r)) as [|rel] eqn:Hr; [done|].
  intros [= <-]. rewrite TrimPrefix_app. by apply Hc.
Qed.
End Pipeline.

(** ** Staleness detection *)
Section Staleness.
Context (lib : GoLib) (fs : FileSystem) (root : string).

Local Abbreviation mp := (modelPath lib root).

(** The path of an entry whose file is found is known, so the walk sends
    no task for it. *)
Lemma found_is_known (c : cache) iter done p e fi :
  schedule lib fs root c iter done →
  Hashes c !! p = Some e → os_Stat fs (mp p) = inr fi →
  mp p ∈ d_known (detect lib fs root (Hashes c) iter).
Proof.
  intros Hs Hp Hst. apply detect_known. exists p, e, fi.
  by rewrite (schedule_iter _ _ _ _ _ _ _ _ Hs).
Qed.

(** The tasks queued for the path of an entry whose file is found come
    from the staleness loop: from an entry that resolves to that path and
    whose stored time the file's time exceeds by more than two seconds. *)
Lemma queued_for_found (c : cache) iter done p e fi :
  schedule lib fs root c iter done →
  Hashes c !! p = Some e → os_Stat fs (mp p) = inr fi →
  (∃ t, t ∈ queued lib fs root c iter ∧ task_path t = mp p) ↔
  (∃ p' e', Hashes c !! p' = Some e' ∧ mp p' = mp p ∧ changed fi e' = true).
Proof.
  intros Hs Hp Hst. split.
  - intros (t & Ht & Hpath). unfold queued in Ht. apply elem_of_app in Ht as [Ht|Ht].
    + apply elem_of_detect_tasks in Ht as (p' & e' & fi' & Hin & Hst' & Hc & ->).
      simpl in Hpath. exists p', e'.
      rewrite (schedule_iter _ _ _ _ _ _ _ _ Hs) in Hin.
      rewrite Hpath, Hst in Hst'. injection Hst' as <-. done.
    + apply elem_of_scan in Ht as (_ & _ & _ & Hk). destruct Hk.
      rewrite Hpath. by eapply found_is_known.
  - intros (p' & e' & Hp' & Hpath & Hc).
    exists {| task_path := mp p'; task_d := FileInfoToDirEntry fi |}.
    split; [|done]. unfold queued. apply elem_of_app. left.
    apply elem_of_detect_tasks. exists p', e', fi.
    rewrite (schedule_iter _ _ _ _ _ _ _ _ Hs). by rewrite Hpath.
Qed.

Lemma coherent_spec r rel :
  coherent lib root r = true →
  filepath_Rel lib root (entry_path r) = inr rel →
  filepath_Join lib root rel = entry_path r.
Proof. unfold coherent. intros H Hr. rewrite Hr in H. by apply String.eqb_eq in H. Qed.

(** Under coherence, a result stored under the key [k] is the result of a
    queued task for the path [k] resolves to. *)
Lemma stored_result_task (c : cache) iter done r k :
  schedule lib fs root c iter done →
  forallb (coherent lib root) done = true →
  r ∈ done → entry_key lib root r = Some k →
  ∃ t, t ∈ queued lib fs root c iter ∧ task_path t = mp k ∧ worker fs t = inr r.
Proof.
  intros Hs Hco Hr Hk.
  apply (schedule_done _ _ _ _ _ _ _ Hs) in Hr as Hq. destruct Hq as (t & Ht & Hw).
  exists t. split; [done|]. split; [|done].
  rewrite (entry_key_resolves lib root r k); [by rewrite (worker_path _ _ _ Hw)| |done].
  intros rel. apply coherent_spec.
  rewrite forallb_forall in Hco. apply Hco. by apply list_elem_of_In.
Qed.

(** C2 (amended).  The staleness loop records the resolved path of every
    entry it keeps (the file was found), and of no entry it removes: the
    [continue] after the deletion skips the recording.  The walk sends no
    task for a recorded path. *)
Theorem known_paths_are_the_kept_ones (c : cache) iter done :
  schedule lib fs root c iter done →
  let d := detect lib fs root (Hashes c) iter in
  (∀ p e fi, Hashes c !! p = Some e → os_Stat fs (mp p) = inr fi → mp p ∈ d_known d) ∧
  (∀ p e err, Hashes c !! p = Some e → os_Stat fs (mp p) = inl err → mp p ∉ d_known d) ∧
  (∀ t, t ∈ scan lib fs root (d_known d) → task_path t ∉ d_known d).
Proof.
  intros Hs d. split; [|split].
  - intros p e fi Hp Hst. by eapply found_is_known.
  - intros p e err Hp Hst Hk. apply detect_known in Hk as (p' & e' & fi & _ & _ & Hst').
    congruence.
  - intros t Ht. by apply elem_of_scan in Ht as (_ & _ & _ & Hk).
Qed.
End Staleness.

Lemma schedule_run (lib : GoLib) (fs : FileSystem) (root : string) (c : cache) :
  schedule lib fs root c (map_to_list (Hashes c))
    (hashed fs (queued lib fs root c (map_to_list (Hashes c)))).
Proof. by split. Qed.

(** C1, as stated, fails: a.ckpt was modified at 100.5 s, the cache stores
    151 (150 s once the margin is taken off), the absolute difference is
    49.5 s, and no task is queued for the file. *)
Lemma rehash_iff_file_later_counterexample :
  Hashes cache_later !! "checkpoint/a.ckpt" = Some (stored 151%float "00") ∧
  os_Stat models (modelPath unix "models" "checkpoint/a.ckpt") = inr (regular 100 500000000) ∧
  2 * gotime.Second <
    Z.abs (ModTime (regular 100 500000000) - gotime.Unix (float64.to_int64 151%float - 1) 0) ∧
  ¬ ∃ t, t ∈ queued unix models "models" cache_later (map_to_list (Hashes cache_later)) ∧
         task_path t = modelPath unix "models" "checkpoint/a.ckpt".
Proof.
  split; [by vm_compute|]. split; [by vm_compute|]. split; [by vm_compute|].
  intros (t & Ht & Hp). vm_compute in Ht, Hp.
  apply elem_of_cons in Ht as [->|Ht]; [done|].
  apply elem_of_cons in Ht as [->|Ht]; [done|].
  by apply elem_of_nil in Ht.
Qed.

(** C2, as stated, fails: the entry for link.ckpt is removed (its target is
    gone), its path is not recorded, and the walk sends a task for it. *)
Lemma known_paths_are_the_kept_ones_counterexample :
  Hashes cache_link !! "checkpoint/link.ckpt" = Some (stored 1%float "00") ∧
  os_Stat models (modelPath unix "models" "checkpoint/link.ckpt") = inl ErrNotExist ∧
  let d := detect unix models "models" (Hashes cache_link) (map_to_list (Hashes cache_link)) in
  d_hashes d !! "checkpoint/link.ckpt" = None ∧
  (modelPath unix "models" "checkpoint/link.ckpt" ∉ d_known d) ∧
  {| task_path := modelPath unix "models" "checkpoint/link.ckpt";
     task_d := FileInfoToDirEntry (regular 90 0) |} ∈ scan unix models "models" (d_known d).
Proof.
  split; [by vm_compute|]. split; [by vm_compute|]. split; [by vm_compute|]. split.
  - intros (p & e & fi & _ & _ & Hst)%detect_known. by vm_compute in Hst.
  - vm_compute. do 2 right. by left.
Qed.

Lemma known_paths_are_the_kept_ones_witness :
  modelPath unix "models" "checkpoint/a.ckpt"
    ∈ d_known (detect unix models "models" (Hashes cache_fresh) (map_to_list (Hashes cache_fresh))).
Proof.
  apply (known_paths_are_the_kept_ones unix models "models" cache_fresh _ _
           (schedule_run _ _ _ _))
    with (e := stored 101.5%float sha_abc) (fi := regular 100 500000000).
  - by vm_compute.
  - by vm_compute.
Defined.

(** ** The document *)




(** ** What the run leaves in the map *)
Section Merged.
Context (lib : GoLib) (fs : FileSystem) (root : string).

Local Abbreviation mp := (modelPath lib root).


(** C10.  A key of the loaded cache that does not begin with "checkpoint/"
    is resolved by joining it, as it is, to the root.  When that file is
    found and judged changed, a task for it is queued; when the worker
    hashes it and filepath.Rel makes its path relative, the output holds
    the original entry under the original key and a freshly computed entry
    under "checkpoint/" followed by the relative path, a different key:
    two entries for the file. *)
Theorem unprefixed_key_gets_a_second_entry (c : cache) iter done p e fi r rel :
  schedule lib fs root c iter done →
  Hashes c !! p = Some e →
  gostrings.HasPrefix p "checkpoint/" = false →
  os_Stat fs (filepath_Join lib root p) = inr fi →
  changed fi e = true →
  worker fs {| task_path := filepath_Join lib root p; task_d := FileInfoToDirEntry fi |} = inr r →
  filepath_Rel lib root (filepath_Join lib root p) = inr rel →
  mp p = filepath_Join lib root p ∧
  {| task_path := filepath_Join lib root p; task_d := FileInfoToDirEntry fi |}
    ∈ queued lib fs root c iter ∧
  Hashes (main lib fs root c iter done) !! p = Some e ∧
  (∃ r', Hashes (main lib fs root c iter done) !! ("checkpoint/" +:+ rel) = Some r' ∧
         r' ∈ done ∧ filepath_Rel lib root (entry_path r') = inr rel) ∧
  (forallb (coherent lib root) done = true →
   Hashes (main lib fs root c iter done) !! ("checkpoint/" +:+ rel) = Some r) ∧
  "checkpoint/" +:+ rel ≠ p.
Proof.
  intros Hs Hp Hpre Hst Hch Hw Hrel.
  assert (Hmp : mp p = filepath_Join lib root p).
  { unfold modelPath. by rewrite TrimPrefix_without. }
  set (t := {| task_path := filepath_Join lib root p; task_d := FileInfoToDirEntry fi |}) in *.
  assert (Hq : t ∈ queued lib fs root c iter).
  { unfold queued. apply elem_of_app. left. apply elem_of_detect_tasks.
    exists p, e, fi. rewrite (schedule_iter _ _ _ _ _ _ _ _ Hs), Hmp. done. }
  assert (Hr : r ∈ done) by (apply (schedule_done _ _ _ _ _ _ _ Hs); by exists t).
  assert (Hk : entry_key lib root r = Some ("checkpoint/" +:+ rel)).
  { apply entry_key_inr. by rewrite (worker_path _ _ _ Hw). }
  assert (Hne : "checkpoint/" +:+ rel ≠ p).
  { intros <-. by rewrite HasPrefix_app in Hpre. }
  destruct (collect_stored lib root (d_hashes (detect lib fs root (Hashes c) iter))
              done _ r Hr Hk) as (r' & Hr' & Hk' & Hl).
  split; [done|]. split; [done|]. split; [|split; [|split; [|done]]].
  - simpl. rewrite collect_other.
    + unfold detect. rewrite (detect_fold_found _ _ _ _ _ _ fi); [done|by rewrite Hmp].
    + intros r0 _ Hk0%entry_key_prefix. congruence.
  - exists r'. split; [done|]. split; [done|].
    unfold entry_key in Hk'. destruct (filepath_Rel lib root (entry_path r')); [done|].
    injection Hk' as Hk'. simpl in Hk'. by f_equal.
  - intros Hco. simpl. rewrite Hl. f_equal.
    destruct (stored_result_task lib fs root c iter done r' _ Hs Hco Hr' Hk')
      as (t' & Ht' & Hpath' & Hw').
    destruct (stored_result_task lib fs root c iter done r _ Hs Hco Hr Hk)
      as (t0 & _ & Hpath0 & Hw0).
    assert (Hsame : task_path t' = filepath_Join lib root p).
    { rewrite Hpath', <- Hpath0, <- (worker_path _ _ _ Hw0). apply (worker_path _ _ _ Hw). }
    assert (t' = t); [|by congruence].
    unfold queued in Ht'. apply elem_of_app in Ht' as [Ht'|Ht'].
    + apply elem_of_detect_tasks in Ht' as (p' & e' & fi' & _ & Hst' & _ & ->).
      simpl in Hsame. rewrite Hsame in Hst' |- *. by replace fi' with fi by congruence.
    + apply elem_of_scan in Ht' as (_ & _ & _ & Hk0). destruct Hk0.
      rewrite Hsame, <- Hmp. eapply found_is_known; [done..|by rewrite Hmp].
Qed.
End Merged.


Lemma unprefixed_key_gets_a_second_entry_witness :
  Hashes (main unix models "models" cache_unprefixed (map_to_list (Hashes cache_unprefixed))
            (hashed models (queued unix models "models" cache_unprefixed
                              (map_to_list (Hashes cache_unprefixed)))))
    !! "a.ckpt" = Some (stored 1%float "00") ∧
  Hashes (main unix models "models" cache_unprefixed (map_to_list (Hashes cache_unprefixed))
            (hashed models (queued unix models "models" cache_unprefixed
                              (map_to_list (Hashes cache_unprefixed)))))
    !! ("checkpoint/" +:+ "a.ckpt")
    = Some {| entry_MTime := 101.5%float; entry_SHA256 := sha_abc;
              entry_path := "models/a.ckpt" |}.
Proof.
  pose proof (unprefixed_key_gets_a_second_entry unix models "models" cache_unprefixed
                (map_to_list (Hashes cache_unprefixed))
                (hashed models (queued unix models "models" cache_unprefixed
                                  (map_to_list (Hashes cache_unprefixed))))
                "a.ckpt" (stored 1%float "00") (regular 100 500000000)
                {| entry_MTime := 101.5%float; entry_SHA256 := sha_abc;
                   entry_path := "models/a.ckpt" |}
                "a.ckpt" (schedule_run _ _ _ _)) as H.
  destruct H as (_ & _ & Hold & _ & Hnew & _).
  - vm_compute; reflexivity.
  - reflexivity.
  - vm_compute; reflexivity.
  - vm_compute; reflexivity.
  - vm_compute; reflexivity.
  - vm_compute; reflexivity.
  - split; [exact Hold|]. apply Hnew. vm_compute; reflexivity.
Defined.

(** ** The secondary mapping *)

(** C8 (amended).  No step of the run writes to the secondary mapping.  The
    document has a "hashes-addnet" member exactly when the loaded cache
    holds a mapping with at least one entry, and the member is then that
    mapping, encoded like "hashes" (keys and digests by their text, every
    time through MarshalJSON); a mapping that is absent from the input, or
    present and empty, is left out. *)
Theorem addnet_is_carried_unless_empty (lib : GoLib) (fs : FileSystem) (root : string)
    (c : cache) (iter : list (string * entry)) (done : list entry) :
  HashesAddnet (main lib fs root c iter done) = HashesAddnet c ∧
  ("hashes-addnet" ∈ member_names (encode_cache (main lib fs root c iter done)) ↔
   ∃ m, HashesAddnet c = Some m ∧ dom m ≠ ∅) ∧
  (∀ m, HashesAddnet c = Some m → dom m ≠ ∅ →
     encode_cache (main lib fs root c iter done) =
       JObject [("hashes", encode_map (Hashes (main lib fs root c iter done)));
                ("hashes-addnet", encode_map m)]).
Proof.
  split; [done|]. unfold encode_cache. simpl. split.
  - destruct (HashesAddnet c) as [m|]; [destruct (decide (dom m = ∅)) as [He|Hne]|].
    + split.
      * intros [?|?%elem_of_nil]%elem_of_cons; done.
      * intros (m' & [= <-] & Hne). done.
    + split; [by exists m|]. intros _. simpl. right. by left.
    + split.
      * intros [?|?%elem_of_nil]%elem_of_cons; done.
      * by intros (m' & ? & _).
  - intros m -> Hne. by destruct (decide (dom m = ∅)).
Qed.

(** C8, as stated, fails: the input holds the secondary mapping, as an
    empty object, and the output has no "hashes-addnet" member. *)
Lemma addnet_is_carried_unless_empty_counterexample :
  HashesAddnet cache_addnet_empty = Some ∅ ∧
  member_names (encode_cache (run unix models "models" cache_addnet_empty)) = ["hashes"].
Proof. split; [done|]. by vm_compute. Qed.

(** ** binary64: the time a worker stores is finite

    The operations of primitive floats are specified by the functions of
    SpecFloat; what follows bounds the exponent of their results, so that
    dividing an int64 by 1e9 and adding 1 cannot overflow. *)

Lemma digits2_pos_size (p : positive) : digits2_pos p = Pos.size p.
Proof. induction p; simpl; congruence. Qed.

Lemma Zdigits2_log2 (m : Z) : 0 < m → Zdigits2 m = Z.log2 m + 1.
Proof.
  destruct m as [|p|p]; try lia. intros _. simpl. rewrite digits2_pos_size.
  destruct p; simpl; lia.
Qed.

Lemma Zdigits2_nonneg (m : Z) : 0 ≤ Zdigits2 m.
Proof. destruct m; simpl; lia. Qed.


Lemma Zdigits2_succ (m : Z) : 0 ≤ m → Zdigits2 (m + 1) ≤ Zdigits2 m + 1.
Proof.
  intros Hm. destruct (decide (m = 0)) as [->|Hne]; [simpl; lia|].
  replace (m + 1) with (Z.succ m) by lia. rewrite !Zdigits2_log2 by lia.
  pose proof (Z.log2_succ_le m). lia.
Qed.


Lemma shr_1_digits (r : shr_record) :
  0 ≤ shr_m r →
  0 ≤ shr_m (shr_1 r) ∧ Zdigits2 (shr_m (shr_1 r)) = Z.max (Zdigits2 (shr_m r) - 1) 0.
Proof.
  destruct r as [m b s]. simpl. intros Hm.
  destruct m as [|[p|p|]|p]; simpl; try lia.
Qed.

Lemma iter_shr_1_digits (n : positive) (r : shr_record) :
  0 ≤ shr_m r →
  0 ≤ shr_m (SpecFloat.iter_pos shr_1 n r) ∧
  Zdigits2 (shr_m (SpecFloat.iter_pos shr_1 n r)) = Z.max (Zdigits2 (shr_m r) - Z.pos n) 0.
Proof.
  revert r. induction n as [n IH|n IH|]; intros r Hr; simpl.
  - destruct (shr_1_digits r Hr) as [H1 D1].
    destruct (IH _ H1) as [H2 D2]. destruct (IH _ H2) as [H3 D3].
    split; [done|]. rewrite D3, D2, D1. lia.
  - destruct (IH _ Hr) as [H2 D2]. destruct (IH _ H2) as [H3 D3].
    split; [done|]. rewrite D3, D2. lia.
  - apply shr_1_digits, Hr.
Qed.

Lemma shr_record_of_loc_m (m : Z) (l : location) : shr_m (shr_record_of_loc m l) = m.
Proof. by destruct l as [|[| |]]. Qed.

Lemma shr_fexp_digits (m e : Z) (l : location) :
  0 ≤ m →
  let '(r, e1) := shr_fexp prec emax m e l in
  0 ≤ shr_m r ∧
  e1 = Z.max e (fexp prec emax (Zdigits2 m + e)) ∧
  Zdigits2 (shr_m r) + e1 ≤ Z.max (Zdigits2 m + e) e1.
Proof.
  intros Hm. unfold shr_fexp, shr.
  destruct (fexp prec emax (Zdigits2 m + e) - e) as [|n|n] eqn:Hn.
  - rewrite shr_record_of_loc_m. lia.
  - destruct (iter_shr_1_digits n (shr_record_of_loc m l)) as [H D].
    { by rewrite shr_record_of_loc_m. }
    rewrite shr_record_of_loc_m in D. split; [done|]. lia.
  - rewrite shr_record_of_loc_m. lia.
Qed.

Lemma round_nearest_even_digits (m : Z) (l : location) :
  0 ≤ m →
  0 ≤ round_nearest_even m l ∧ Zdigits2 (round_nearest_even m l) ≤ Zdigits2 m + 1.
Proof.
  intros Hm. pose proof (Zdigits2_succ m Hm).
  destruct l as [|[| |]]; simpl; try lia.
  destruct (Z.even m); lia.
Qed.


Lemma iter_xO_digits (mx d : positive) :
  Z.pos (digits2_pos (Pos.iter xO mx d)) = Z.pos (digits2_pos mx) + Z.pos d.
Proof.
  induction d as [|d IH] using Pos.peano_ind.
  - simpl. lia.
  - rewrite Pos.iter_succ. simpl. lia.
Qed.

Lemma shl_align_digits (mx : positive) (ex ex' : Z) :
  Z.pos (digits2_pos (shl_align mx ex ex').1) + (shl_align mx ex ex').2
    = Z.pos (digits2_pos mx) + ex ∧
  (shl_align mx ex ex').2 ≤ ex.
Proof.
  unfold shl_align. destruct (ex' - ex) as [|d|d] eqn:Hd; simpl; [lia|lia|].
  rewrite iter_xO_digits. lia.
Qed.



Lemma small_mono (B B' : Z) (x : spec_float) : B ≤ B' → small B x → small B' x.
Proof. destruct x; simpl; try done. lia. Qed.








Lemma Zdigits2_below (m k : Z) : 0 ≤ m < 2 ^ k → 0 ≤ k → Zdigits2 m ≤ k.
Proof.
  intros [H0 Hk] Hk0. destruct (decide (m = 0)) as [->|Hne]; [simpl; lia|].
  rewrite Zdigits2_log2 by lia. apply Z.log2_lt_pow2 in Hk; lia.
Qed.





(** ** Stored times and their rendering *)

Lemma is_digit_digit_char (d : Z) : gofmt.is_digit (gofmt.digit_char d) = true.
Proof.
  unfold gofmt.is_digit, gofmt.digit_char.
  assert (H : (Z.to_nat (d mod 10) < 10)%nat) by (pose proof (Z.mod_pos_bound d 10); lia).
  rewrite nat_ascii_embedding by lia.
  apply andb_true_intro. split; apply Nat.leb_le; lia.
Qed.









(** ** The read loop *)

(** C3, on the failing disk.  The second read of big.ckpt fails; [worker]
    takes it for the end of the file and returns an entry, without error,
    whose digest covers the six bytes read before.  And a read that returns
    bytes together with an error leaves the loop before [h.Write]: the
    bytes are not fed to the digest. *)
Lemma worker_takes_failed_read_for_end_of_file :
  os_Open failing_disk "disk/big.ckpt"
    = inr {| file_bytes := text "hello world";
             file_reads := [(text "hello ", None); ([], Some EIO)] |} ∧
  worker failing_disk big_task
    = inr {| entry_MTime := 101%float;
             entry_SHA256 := gofmt.Sprintf_x (sha256.Sum256 (text "hello "));
             entry_path := "disk/big.ckpt" |} ∧
  read_loop [(text "hello ", Some EIO)] sha256.New = (Some EIO, sha256.New).
Proof. split; [done|]. split; [by vm_compute|done]. Qed.

(** C4, on the failing disk.  [worker] completes without error on big.ckpt
    and the digest it records, which the run writes to the output, is not
    the SHA-256 of the file's content. *)
Lemma truncated_digest_is_recorded :
  ∃ e f,
    worker failing_disk big_task = inr e ∧
    os_Open failing_disk (task_path big_task) = inr f ∧
    entry_SHA256 e ≠ gofmt.Sprintf_x (sha256.Sum256 (file_bytes f)) ∧
    Hashes (run unix failing_disk "disk" empty_cache) !! "checkpoint/big.ckpt" = Some e.
Proof.
  eexists _, _. split; [by vm_compute|]. split; [done|].
  split; [by vm_compute|by vm_compute].
Qed.

(** X1.  Where every read succeeds, [worker] returns, and what it returns is
    the entry with the margin time and the SHA-256 of the whole content, in
    lower-case hexadecimal, whatever the sizes of the chunks the reads
    deliver (the buffer bounds them by 16384 bytes). *)
Theorem worker_hashes_clean_file (fs : FileSystem) (t : task) (info : FileInfo) (f : File) :
  Info (task_d t) = inr info →
  os_Open fs (task_path t) = inr f →
  clean_reads f →
  worker fs t = inr {| entry_MTime := margin_mtime info;
                       entry_SHA256 := gofmt.Sprintf_x (sha256.Sum256 (file_bytes f));
                       entry_path := task_path t |}.
Proof.
  intros Hi Ho [Hall Hcat]. unfold worker. rewrite Hi, Ho.
  rewrite (read_loop_clean _ _ Hall). unfold sha256.Sum. simpl. by rewrite Hcat.
Qed.

Lemma worker_hashes_clean_file_witness :
  worker models {| task_path := "models/a.ckpt";
                   task_d := FileInfoToDirEntry (regular 100 500000000) |}
    = inr {| entry_MTime := margin_mtime (regular 100 500000000);
             entry_SHA256 := gofmt.Sprintf_x (sha256.Sum256 (text "abc"));
             entry_path := "models/a.ckpt" |}.
Proof.
  pose proof (worker_hashes_clean_file models
                {| task_path := "models/a.ckpt";
                   task_d := FileInfoToDirEntry (regular 100 500000000) |}
                (regular 100 500000000)
                {| file_bytes := text "abc";
                   file_reads := [(text "ab", None); (text "c", None)] |}) as H.
  cbn [file_bytes task_path] in H. apply H.
  - reflexivity.
  - reflexivity.
  - split; [|reflexivity]. by repeat constructor.
Defined.

(** ** A second run over the first run's output *)
Section SecondRun.
Context (lib : GoLib) (fs : FileSystem) (root : string).

Local Abbreviation mp := (modelPath lib root).


(** The collector never removes a key. *)
Lemma collect_keeps h done k :
  is_Some (h !! k) → is_Some (collect lib root h done !! k).
Proof.
  revert h. induction done as [|r done IH]; intros h Hk; [done|].
  simpl. apply IH. unfold merge. destruct (entry_key lib root r) as [k'|]; [|done].
  destruct (decide (k' = k)) as [->|Hne].
  - rewrite lookup_insert_eq. by eexists.
  - by rewrite lookup_insert_ne.
Qed.




End SecondRun.


(** The documents of two successive runs can differ as well: the walk dates
    the link ln.ckpt by the link itself, the staleness loop of the second
    run by its target, which is 10.5 s younger; the second run hashes the
    file again and stores the target's time. *)
Example second_run_can_differ :
  numbers (encode_cache (run unix links "links" empty_cache)) = ["91.0000000"] ∧
  numbers (encode_cache (run unix links "links"
                           (reload (run unix links "links" empty_cache))))
    = ["101.5000000"].
Proof. split; vm_compute; reflexivity. Qed.

(** ** The read loop in closed form *)

Lemma read_loop_summary (reads : list ReadResult) (h : sha256.digest) :
  read_loop reads h =
    (read_error reads, {| sha256.written := sha256.written h ++ delivered reads |}).
Proof.
  revert h. induction reads as [|[chunk err] reads IH]; intros h.
  - cbn. by rewrite app_nil_r.
  - destruct chunk as [|b chunk], err as [e|]; cbn [read_loop sha256.Write].
    + cbn. by rewrite app_nil_r.
    + cbn. by rewrite app_nil_r.
    + destruct h as [w]. cbn. by rewrite app_nil_r.
    + rewrite IH. cbn [sha256.written]. unfold read_error. cbn [first_stop delivered].
      by rewrite <- app_assoc.
Qed.

Lemma delivered_prefix (reads : list ReadResult) :
  delivered reads `prefix_of` concat reads.*1.
Proof.
  induction reads as [|[[|b chunk] [e|]] reads IH]; cbn [delivered];
    try apply prefix_nil.
  cbn. apply prefix_cons. by apply prefix_app.
Qed.

(** X2.  [worker] in closed form.  It returns the error of [Info()], else
    the error of [os.Open]; else it looks at the first read that returns no
    byte or an error: when that read returns bytes together with an error,
    [worker] returns the error; in every other case (no such read, or one
    without bytes, with or without an error) it returns an entry whose
    digest is the SHA-256 of the bytes delivered before that read.  Those
    bytes are a prefix of what the reads return: bytes that come with an
    error, and bytes of later reads, never reach the digest. *)
Theorem worker_summary (fs : FileSystem) (t : task) :
  worker fs t =
    match Info (task_d t), os_Open fs (task_path t) with
    | inl err, _ => inl err
    | inr _, inl err => inl err
    | inr info, inr f =>
        match read_error (file_reads f) with
        | Some err => inl err
        | None =>
            inr {| entry_MTime := margin_mtime info;
                   entry_SHA256 :=
                     gofmt.Sprintf_x (sha256.Sum256 (delivered (file_reads f)));
                   entry_path := task_path t |}
        end
    end ∧
  (∀ reads, delivered reads `prefix_of` concat reads.*1).
Proof.
  split; [|apply delivered_prefix].
  unfold worker. destruct (Info (task_d t)) as [|info]; [done|].
  destruct (os_Open fs (task_path t)) as [|f]; [done|].
  rewrite read_loop_summary. by destruct (read_error (file_reads f)).
Qed.

(** ** The written map: where its entries come from *)
Section Output.
Context (lib : GoLib) (fs : FileSystem) (root : string).

Local Abbreviation mp := (modelPath lib root).

(** The map the staleness loop leaves: the loaded entries whose file is
    found, whatever the order of the iteration. *)
Lemma detect_hashes_lookup (h : gmap string entry) iter k :
  iter ≡ₚ map_to_list h →
  d_hashes (detect lib fs root h iter) !! k =
    match os_Stat fs (mp k) with inr _ => h !! k | inl _ => None end.
Proof.
  intros Hi. unfold detect. destruct (os_Stat fs (mp k)) as [err|fi] eqn:Hk.
  - destruct (h !! k) as [e|] eqn:He.
    + apply (detect_fold_missing _ _ _ _ _ _ err Hk).
      apply list_elem_of_fmap. exists (k, e). split; [done|].
      rewrite Hi. by apply elem_of_map_to_list.
    + by apply detect_fold_None.
  - by rewrite (detect_fold_found _ _ _ _ _ _ fi Hk).
Qed.

(** What a key holds after the collector: the last result stored under
    it, or what it held. *)
Lemma collect_lookup h done k e :
  collect lib root h done !! k = Some e →
  (h !! k = Some e ∧ ∀ r, r ∈ done → entry_key lib root r ≠ Some k) ∨
  (e ∈ done ∧ entry_key lib root e = Some k).
Proof.
  revert h. induction done as [|r done IH]; intros h H.
  - left. split; [done|]. by intros r ?%elem_of_nil.
  - simpl in H. apply IH in H as [[H Hno]|[H Hk]].
    + unfold merge in H. destruct (entry_key lib root r) as [k'|] eqn:Hr.
      * apply lookup_insert_Some in H as [[<- <-]|[Hne H]].
        -- right. split; [by left|done].
        -- left. split; [done|]. intros r' [->|Hr']%elem_of_cons; [congruence|by apply Hno].
      * left. split; [done|]. intros r' [->|Hr']%elem_of_cons; [congruence|by apply Hno].
    + right. split; [by right|done].
Qed.

Lemma omap_NoDup_inj {A B} (f : A → option B) (l : list A) x y b :
  NoDup (omap f l) → x ∈ l → y ∈ l → f x = Some b → f y = Some b → x = y.
Proof.
  induction l as [|a l IH]; intros Hnd Hx Hy Hfx Hfy; [by apply elem_of_nil in Hx|].
  cbn in Hnd. apply elem_of_cons in Hx as [->|Hx], Hy as [->|Hy]; [done| | |].
  - rewrite Hfx in Hnd. apply NoDup_cons in Hnd as [Hn _]. destruct Hn.
    apply list_elem_of_omap. by exists y.
  - rewrite Hfy in Hnd. apply NoDup_cons in Hnd as [Hn _]. destruct Hn.
    apply list_elem_of_omap. by exists x.
  - apply IH; try done. destruct (f a); [by apply NoDup_cons in Hnd as [_ ?]|done].
Qed.

(** Two queued tasks for the same path are the same task, when the walk
    lists each file once. *)
Lemma queued_same_path (c : cache) iter t t' :
  iter ≡ₚ map_to_list (Hashes c) →
  NoDup (walk_paths fs root) →
  t ∈ queued lib fs root c iter → t' ∈ queued lib fs root c iter →
  task_path t = task_path t' → t = t'.
Proof.
  intros Hi Hnd Ht Ht' Hp. unfold queued in Ht, Ht'.
  assert (Hwalk : ∀ t1 t2 known, t1 ∈ scan lib fs root known → t2 ∈ scan lib fs root known →
                    task_path t1 = task_path t2 → t1 = t2).
  { intros t1 t2 known (Hv1 & Hd1 & _)%elem_of_scan (Hv2 & Hd2 & _)%elem_of_scan H12.
    assert (Visit (task_path t1) (task_d t1) None = Visit (task_path t2) (task_d t2) None) as He.
    { eapply (omap_NoDup_inj _ _ _ _ (task_path t1) Hnd Hv1 Hv2); cbn.
      - by rewrite Hd1.
      - by rewrite Hd2, H12. }
    destruct t1, t2. cbn in He. by injection He as -> ->. }
  assert (Hmix : ∀ t1 t2, t1 ∈ d_tasks (detect lib fs root (Hashes c) iter) →
                   t2 ∈ scan lib fs root (d_known (detect lib fs root (Hashes c) iter)) →
                   task_path t1 ≠ task_path t2).
  { intros t1 t2 (p & e & fi & Hin & Hst & _ & ->)%elem_of_detect_tasks
                 (_ & _ & _ & Hk)%elem_of_scan H12.
    apply Hk. rewrite <- H12. apply detect_known. by exists p, e, fi. }
  apply elem_of_app in Ht as [Ht|Ht], Ht' as [Ht'|Ht'].
  - apply elem_of_detect_tasks in Ht as (p & e & fi & _ & Hst & _ & ->).
    apply elem_of_detect_tasks in Ht' as (p' & e' & fi' & _ & Hst' & _ & ->).
    cbn in Hp. rewrite Hp in Hst |- *. by replace fi' with fi by congruence.
  - by destruct (Hmix t t').
  - by destruct (Hmix t' t).
  - by eapply Hwalk.
Qed.

(** Under coherence, and when the walk lists each file once, the results
    stored under one key are one result. *)
Lemma done_same_key (c : cache) iter done r r' k :
  schedule lib fs root c iter done →
  forallb (coherent lib root) done = true →
  NoDup (walk_paths fs root) →
  r ∈ done → r' ∈ done →
  entry_key lib root r = Some k → entry_key lib root r' = Some k → r = r'.
Proof.
  intros Hs Hco Hnd Hr Hr' Hk Hk'.
  destruct (stored_result_task lib fs root c iter done r k Hs Hco Hr Hk) as (t & Ht & Hp & Hw).
  destruct (stored_result_task lib fs root c iter done r' k Hs Hco Hr' Hk') as (t' & Ht' & Hp' & Hw').
  assert (t = t') as <-.
  { apply (queued_same_path c iter); try done; [apply Hs|congruence]. }
  congruence.
Qed.

Lemma collect_Permutation h done1 done2 :
  done1 ≡ₚ done2 →
  (∀ r r' k, r ∈ done1 → r' ∈ done1 →
     entry_key lib root r = Some k → entry_key lib root r' = Some k → r = r') →
  collect lib root h done1 = collect lib root h done2.
Proof.
  intros Hp Hfun. apply map_eq. intros k.
  destruct (decide (Exists (fun r => entry_key lib root r = Some k) done1)) as [He|Hne].
  - apply Exists_exists in He as (r & Hr & Hk).
    destruct (collect_stored lib root h done1 k r Hr Hk) as (r1 & Hr1 & Hk1 & ->).
    assert (Hr2 : r ∈ done2) by (by rewrite <- Hp).
    destruct (collect_stored lib root h done2 k r Hr2 Hk) as (r2 & Hr2' & Hk2 & ->).
    f_equal. apply (Hfun r1 r2 k); try done. by rewrite Hp.
  - rewrite !collect_other; [done| |].
    + intros r Hr Hk. apply Hne, Exists_exists. exists r. split; [by rewrite Hp|done].
    + intros r Hr Hk. apply Hne, Exists_exists. by exists r.
Qed.

Lemma detect_Permutation (h : gmap string entry) iter1 iter2 :
  iter1 ≡ₚ map_to_list h → iter2 ≡ₚ map_to_list h →
  d_hashes (detect lib fs root h iter1) = d_hashes (detect lib fs root h iter2) ∧
  d_known (detect lib fs root h iter1) = d_known (detect lib fs root h iter2) ∧
  d_tasks (detect lib fs root h iter1) ≡ₚ d_tasks (detect lib fs root h iter2).
Proof.
  intros H1 H2. split; [|split].
  - apply map_eq. intros k. by rewrite !detect_hashes_lookup.
  - apply set_eq. intros x. rewrite !detect_known.
    split; intros (p & e & fi & Hin & Hx); exists p, e, fi; split; try done.
    + by rewrite H2, <- H1.
    + by rewrite H1, <- H2.
  - rewrite !detect_tasks. apply omap_Permutation. by rewrite H1, H2.
Qed.

(** X3.  Where the entries of the written map come from.  An entry under
    the key [k] is either the entry the cache was loaded with under [k],
    unchanged, its file found by the staleness loop and no result stored
    under [k]; or the result of [worker] on a queued task, under its key
    "checkpoint/" + relative path.  And [k] is a key of the written map
    exactly when it is a loaded key whose file was found, or the key of
    some result. *)
Theorem output_entries_origin (c : cache) iter done k :
  schedule lib fs root c iter done →
  (∀ e, Hashes (main lib fs root c iter done) !! k = Some e →
     (Hashes c !! k = Some e ∧ (∃ fi, os_Stat fs (mp k) = inr fi) ∧
      ∀ r, r ∈ done → entry_key lib root r ≠ Some k) ∨
     (gostrings.HasPrefix k "checkpoint/" = true ∧ entry_key lib root e = Some k ∧
      ∃ t, t ∈ queued lib fs root c iter ∧ worker fs t = inr e)) ∧
  (is_Some (Hashes (main lib fs root c iter done) !! k) ↔
     (is_Some (Hashes c !! k) ∧ ∃ fi, os_Stat fs (mp k) = inr fi) ∨
     (∃ r, r ∈ done ∧ entry_key lib root r = Some k)).
Proof.
  intros Hs. pose proof Hs as [Hi Hd]. cbn [main Hashes]. split.
  - intros e [[He Hno]|[He Hk]]%collect_lookup.
    + left. rewrite detect_hashes_lookup in He by done.
      destruct (os_Stat fs (mp k)) as [|fi]; [done|]. split; [done|]. split; [by exists fi|done].
    + right. split; [by apply (entry_key_prefix lib root e)|]. split; [done|].
      by apply (schedule_done _ _ _ _ _ _ _ Hs).
  - split.
    + intros [e [[He Hno]|[He Hk]]%collect_lookup].
      * left. rewrite detect_hashes_lookup in He by done.
        destruct (os_Stat fs (mp k)) as [|fi]; [done|]. split; [by exists e|by exists fi].
      * right. by exists e.
    + intros [[Hk [fi Hfi]]|(r & Hr & Hk)].
      * apply collect_keeps. by rewrite detect_hashes_lookup, Hfi.
      * destruct (collect_stored lib root (d_hashes (detect lib fs root (Hashes c) iter))
                    done k r Hr Hk) as (r' & _ & _ & ->). by exists r'.
Qed.

(** X4.  The written map has no entry for a file that was not there during
    the run: every key resolves (line 137) to a path that [os.Stat] found
    in the staleness loop, or to the path of the file a worker opened and
    hashed (where joining a result's relative path to the root gives its
    path back). *)
Theorem output_keys_resolve_to_files (c : cache) iter done k e :
  schedule lib fs root c iter done →
  forallb (coherent lib root) done = true →
  Hashes (main lib fs root c iter done) !! k = Some e →
  (∃ fi, os_Stat fs (mp k) = inr fi) ∨
  (∃ f, os_Open fs (mp k) = inr f ∧ entry_path e = mp k).
Proof.
  intros Hs Hco. pose proof Hs as [Hi Hd]. cbn [main Hashes].
  intros [[He Hno]|[He Hk]]%collect_lookup.
  - left. rewrite detect_hashes_lookup in He by done.
    destruct (os_Stat fs (mp k)) as [|fi]; [done|]. by exists fi.
  - right.
    destruct (stored_result_task lib fs root c iter done e k Hs Hco He Hk) as (t & _ & Hp & Hw).
    pose proof (worker_path _ _ _ Hw) as Hpath.
    apply worker_inr in Hw as (info & f & h & _ & Ho & _). exists f.
    split; [by rewrite <- Hp|by rewrite Hpath].
Qed.

(** X5.  The written cache does not depend on the order in which [range]
    visits the loaded map, nor on the order in which the results reach the
    collector, when the walk lists each file once and joining a result's
    relative path to the root gives its path back: two results stored under
    the same key are then the same result. *)
Theorem output_is_independent_of_the_schedule (c : cache) iter1 done1 iter2 done2 :
  schedule lib fs root c iter1 done1 →
  schedule lib fs root c iter2 done2 →
  forallb (coherent lib root) done1 = true →
  NoDup (walk_paths fs root) →
  main lib fs root c iter1 done1 = main lib fs root c iter2 done2.
Proof.
  intros Hs1 Hs2 Hco Hnd. pose proof Hs1 as [Hi1 Hd1]. pose proof Hs2 as [Hi2 Hd2].
  destruct (detect_Permutation (Hashes c) iter1 iter2 Hi1 Hi2) as (Hh & Hk & Ht).
  assert (Hq : queued lib fs root c iter1 ≡ₚ queued lib fs root c iter2).
  { unfold queued. by rewrite Hk, Ht. }
  assert (Hdone : done1 ≡ₚ done2).
  { rewrite Hd1, Hd2. unfold hashed. by apply omap_Permutation. }
  unfold main. f_equal. rewrite Hh. apply collect_Permutation; [done|].
  intros r r' k Hr Hr'. by apply (done_same_key c iter1 done1).
Qed.

Lemma scan_paths_sublist known :
  sublist (task_path <$> scan lib fs root known) (walk_paths fs root).
Proof.
  unfold scan, walk_paths. induction (filepath_WalkDir fs root) as [|c l IH]; [done|].
  cbn [omap list_omap]. fold (omap (visit lib known) l).
  destruct c as [|path d [err|]]; cbn [visit]; try done.
  - by destruct (IsDir d).
  - destruct (IsDir d); [done|]. destruct (negb (model_ext lib path)).
    + by apply sublist_cons.
    + destruct (decide (path ∈ known)); [by apply sublist_cons|].
      cbn. by apply sublist_skip.
Qed.

(** X6.  No path is queued twice, so no file is hashed twice in a run, when
    the keys of the loaded cache resolve to different paths and the walk
    lists each file once: the staleness loop sends at most one task per
    key, and the walk sends none for a path the loop recorded. *)
Theorem no_file_is_queued_twice (c : cache) iter :
  iter ≡ₚ map_to_list (Hashes c) →
  (∀ p p', is_Some (Hashes c !! p) → is_Some (Hashes c !! p') → mp p = mp p' → p = p') →
  NoDup (walk_paths fs root) →
  NoDup (task_path <$> queued lib fs root c iter).
Proof.
  intros Hi Hinj Hnd. unfold queued. rewrite fmap_app. apply NoDup_app. split; [|split].
  - rewrite detect_tasks.
    assert (Hiter : NoDup iter.*1) by (rewrite Hi; apply NoDup_fst_map_to_list).
    assert (Hin : ∀ p e, (p, e) ∈ iter → is_Some (Hashes c !! p)).
    { intros p e Hp. rewrite Hi in Hp. apply elem_of_map_to_list in Hp. by exists e. }
    clear Hi. induction iter as [|[p e] iter IH]; [constructor|].
    cbn in Hiter. apply NoDup_cons in Hiter as [Hp Hiter].
    cbn [omap list_omap]. fold (omap (stale_task lib fs root) iter).
    assert (IH' : NoDup (task_path <$> omap (stale_task lib fs root) iter)).
    { apply IH; [done|]. intros p' e' H'. apply (Hin p' e'). by right. }
    destruct (stale_task lib fs root (p, e)) as [t|] eqn:Ht; [|done].
    cbn. apply NoDup_cons. split; [|done].
    intros (t' & Hpath & Ht')%list_elem_of_fmap.
    apply list_elem_of_omap in Ht' as ([p' e'] & Hin' & Hs').
    unfold stale_task in Ht, Hs'. cbn in Ht, Hs'.
    destruct (os_Stat fs (mp p)) as [|fi]; [done|]. destruct (changed fi e); [|done].
    destruct (os_Stat fs (mp p')) as [|fi']; [done|]. destruct (changed fi' e'); [|done].
    injection Ht as <-. injection Hs' as <-. cbn in Hpath.
    apply Hp. replace p with p'; [apply list_elem_of_fmap; by exists (p', e')|].
    apply Hinj; [apply (Hin p' e'); by right|apply (Hin p e); by left|done].
  - intros x (t & -> & Ht)%list_elem_of_fmap (t' & Hp & Ht')%list_elem_of_fmap.
    apply elem_of_detect_tasks in Ht as (p & e & fi & Hin & Hst & _ & ->).
    apply elem_of_scan in Ht' as (_ & _ & _ & Hk). apply Hk. rewrite <- Hp. cbn.
    apply detect_known. by exists p, e, fi.
  - eapply sublist_NoDup; [done|apply scan_paths_sublist].
Qed.
End Output.

Lemma output_entries_origin_witness :
  is_Some (Hashes (main unix models "models" cache_unprefixed
                     (map_to_list (Hashes cache_unprefixed))
                     (hashed models (queued unix models "models" cache_unprefixed
                                       (map_to_list (Hashes cache_unprefixed)))))
             !! "a.ckpt") ↔
  (is_Some (Hashes cache_unprefixed !! "a.ckpt") ∧
   ∃ fi, os_Stat models (modelPath unix "models" "a.ckpt") = inr fi) ∨
  (∃ r, r ∈ hashed models (queued unix models "models" cache_unprefixed
                             (map_to_list (Hashes cache_unprefixed))) ∧
        entry_key unix "models" r = Some "a.ckpt").
Proof.
  exact (proj2 (output_entries_origin unix models "models" cache_unprefixed
                  (map_to_list (Hashes cache_unprefixed))
                  (hashed models (queued unix models "models" cache_unprefixed
                                    (map_to_list (Hashes cache_unprefixed))))
                  "a.ckpt" (schedule_run unix models "models" cache_unprefixed))).
Defined.

Lemma output_keys_resolve_to_files_witness :
  (∃ fi, os_Stat models (modelPath unix "models" "checkpoint/a.ckpt") = inr fi) ∨
  (∃ f, os_Open models (modelPath unix "models" "checkpoint/a.ckpt") = inr f ∧
        entry_path {| entry_MTime := 101.5%float; entry_SHA256 := sha_abc;
                      entry_path := "models/a.ckpt" |}
          = modelPath unix "models" "checkpoint/a.ckpt").
Proof.
  pose proof (output_keys_resolve_to_files unix models "models" cache_unprefixed
                (map_to_list (Hashes cache_unprefixed))
                (hashed models (queued unix models "models" cache_unprefixed
                                  (map_to_list (Hashes cache_unprefixed))))
                "checkpoint/a.ckpt"
                {| entry_MTime := 101.5%float; entry_SHA256 := sha_abc;
                   entry_path := "models/a.ckpt" |}
                (schedule_run unix models "models" cache_unprefixed)) as H.
  apply H.
  - vm_compute; reflexivity.
  - vm_compute; reflexivity.
Defined.

Lemma output_is_independent_of_the_schedule_witness :
  main unix models "models" cache_unprefixed (map_to_list (Hashes cache_unprefixed))
    (hashed models (queued unix models "models" cache_unprefixed
                      (map_to_list (Hashes cache_unprefixed))))
  = main unix models "models" cache_unprefixed (map_to_list (Hashes cache_unprefixed))
      (rev (hashed models (queued unix models "models" cache_unprefixed
                             (map_to_list (Hashes cache_unprefixed))))).
Proof.
  pose proof (output_is_independent_of_the_schedule unix models "models" cache_unprefixed
                (map_to_list (Hashes cache_unprefixed))
                (hashed models (queued unix models "models" cache_unprefixed
                                  (map_to_list (Hashes cache_unprefixed))))
                (map_to_list (Hashes cache_unprefixed))
                (rev (hashed models (queued unix models "models" cache_unprefixed
                                       (map_to_list (Hashes cache_unprefixed)))))
                (schedule_run unix models "models" cache_unprefixed)) as H.
  apply H.
  - split; [reflexivity|]. apply Permutation_sym, Permutation_rev.
  - vm_compute; reflexivity.
  - apply (bool_decide_unpack _). vm_compute. exact I.
Defined.

Lemma no_file_is_queued_twice_witness :
  NoDup (task_path <$> queued unix models "models" cache_unprefixed
                         (map_to_list (Hashes cache_unprefixed))).
Proof.
  pose proof (no_file_is_queued_twice unix models "models" cache_unprefixed
                (map_to_list (Hashes cache_unprefixed))) as H.
  apply H.
  - reflexivity.
  - intros p p' [e Hp] [e' Hp'] _. unfold cache_unprefixed, only in Hp, Hp'.
    cbn [Hashes] in Hp, Hp'.
    apply lookup_singleton_Some in Hp as [<- _].
    by apply lookup_singleton_Some in Hp' as [<- _].
  - apply (bool_decide_unpack _). vm_compute. exact I.
Defined.

(** ** The goroutines and their channels *)
Section Goroutines.
Context (fs : FileSystem).

Local Ltac fields :=
  unfold with_hasher, to_queue in *;
  cbn [at_main taskChan taskChan_closed hashers resultChan resultChan_closed
       collected collector_returned] in *.

Lemma hashers_insert (hs : list hasher) (i : nat) (h h' : hasher) :
  hs !! i = Some h →
  ∃ rest, hs ≡ₚ h :: rest ∧ <[i := h']> hs ≡ₚ h' :: rest.
Proof.
  revert i. induction hs as [|x hs IH]; intros [|i] Hi; try done.
  - injection Hi as ->. by exists hs.
  - destruct (IH i Hi) as (rest & H1 & H2). exists (x :: rest). split.
    + rewrite H1. apply perm_swap.
    + cbn. rewrite H2. apply perm_swap.
Qed.

Lemma hasher_left_insert (hs : list hasher) (i : nat) (h h' : hasher) :
  hs !! i = Some h →
  (sum_list_with hasher_left (<[i := h']> hs) + hasher_left h
   = sum_list_with hasher_left hs + hasher_left h')%nat.
Proof.
  revert i. induction hs as [|x hs IH]; intros [|i] Hi; try done.
  - injection Hi as ->. cbn. lia.
  - specialize (IH i Hi). change (<[S i:=h']> (x :: hs)) with (x :: <[i:=h']> hs).
    cbn [sum_list_with]. lia.
Qed.

Lemma hashed_app (ts1 ts2 : list task) :
  hashed fs (ts1 ++ ts2) = (hashed fs ts1 ++ hashed fs ts2)%list.
Proof. apply omap_app. Qed.

Lemma hashed_cons (t : task) (ts : list task) :
  hashed fs (t :: ts) =
    match worker fs t with inr e => e :: hashed fs ts | inl _ => hashed fs ts end.
Proof. unfold hashed. cbn. by destruct (worker fs t). Qed.

Lemma in_hand_perm (hs hs' : list hasher) : hs ≡ₚ hs' → in_hand hs ≡ₚ in_hand hs'.
Proof. apply omap_Permutation. Qed.

Lemma in_hand_replicate (n : nat) : in_hand (replicate n Ranging) = [].
Proof. induction n; [done|]. done. Qed.

Lemma pipe_inv_start (ts : list task) (n : nat) : pipe_inv fs ts n (pipe_start ts n).
Proof.
  unfold pipe_inv, pipe_start. fields. rewrite in_hand_replicate.
  split; [done|]. split; [apply length_replicate|]. split; [|split; [done|]].
  - split; [done|]. split; [done|]. by apply Forall_replicate.
  - by intros [H _]%elem_of_replicate.
Qed.

(** A hasher that has not returned: [resultChan] is still open. *)
Lemma hasher_running (ts : list task) (n : nat) (s : pipe) (i : nat) (h : hasher) :
  pipe_inv fs ts n s → hashers s !! i = Some h → h ≠ Returned →
  resultChan_closed s = false ∧ at_main s ≠ WaitCollector ∧ at_main s ≠ Encoding.
Proof.
  intros (_ & _ & Hat & _) Hi Hh.
  assert (Hin : h ∈ hashers s) by (by eapply list_elem_of_lookup_2).
  destruct (at_main s).
  - by destruct Hat as (_ & -> & _).
  - by destruct Hat as (_ & ->).
  - destruct Hat as (_ & _ & HF). rewrite Forall_forall in HF. by destruct (Hh (HF _ Hin)).
  - destruct Hat as (_ & _ & HF & _). rewrite Forall_forall in HF. by destruct (Hh (HF _ Hin)).
Qed.

Lemma pipe_inv_main (ts : list task) (n : nat) (s s' : pipe) :
  pipe_inv fs ts n s → main_step s = Some s' → pipe_inv fs ts n s'.
Proof.
  intros (Hcons & Hlen & Hat & Hcol & Hret) Hg.
  unfold main_step in Hg. unfold pipe_inv.
  destruct s as [at_ tc tcc hs rc rcc col cr]. fields.
  destruct at_ as [[|t q]| | |].
  - injection Hg as <-. fields. destruct Hat as (? & ? & HF).
    split; [done|]. split; [done|]. split; [done|]. done.
  - destruct (length tc <? chan_cap)%nat; [|done]. injection Hg as <-. fields.
    destruct Hat as (? & ? & HF).
    split; [by rewrite <- app_assoc|]. split; [done|]. split; [done|]. split; [done|].
    intros Hin. rewrite Forall_forall in HF. by destruct (HF _ Hin).
  - destruct (forallb is_returned hs) eqn:Hall; [|done]. injection Hg as <-. fields.
    destruct Hat as (? & ?).
    split; [done|]. split; [done|]. split; [|split; [|done]].
    + split; [done|]. split; [done|].
      apply Forall_forall. intros h Hh. rewrite forallb_forall in Hall.
      specialize (Hall h). rewrite <- list_elem_of_In in Hall.
      specialize (Hall Hh). by destruct h.
    + intros Hc. by destruct (Hcol Hc).
  - destruct cr; [|done]. injection Hg as <-. fields.
    destruct Hat as (? & ? & ?). done.
  - done.
Qed.

Lemma pipe_inv_hasher (ts : list task) (n : nat) (i : nat) (s s' : pipe) :
  pipe_inv fs ts n s → hasher_step fs i s = Some s' → pipe_inv fs ts n s'.
Proof.
  intros Hinv Hg. unfold hasher_step in Hg.
  destruct (hashers s !! i) as [h|] eqn:Hi; [|done].
  assert (Hh : h ≠ Returned) by (by destruct h).
  destruct (hasher_running ts n s i h Hinv Hi Hh) as (Hrcc & Hn1 & Hn2).
  destruct Hinv as (Hcons & Hlen & Hat & Hcol & Hret).
  assert (Hcr : collector_returned s = true → False).
  { intros Hc. destruct (Hcol Hc) as [_ Hc']. congruence. }
  destruct s as [at_ tc tcc hs rc rcc col cr]. fields. unfold pipe_inv.
  assert (Hat' : ∀ h', h' ≠ Returned →
            match at_ with
            | Queueing _ => tcc = false ∧ rcc = false ∧
                            Forall (fun h => h ≠ Returned) (<[i := h']> hs)
            | WaitHashers => tcc = true ∧ rcc = false
            | WaitCollector => tcc = true ∧ rcc = true ∧
                               Forall (fun h => h = Returned) (<[i := h']> hs)
            | Encoding => tcc = true ∧ rcc = true ∧
                          Forall (fun h => h = Returned) (<[i := h']> hs) ∧ cr = true
            end).
  { intros h' Hh'. destruct at_; try done. destruct Hat as (? & ? & HF).
    split; [done|]. split; [done|]. by apply Forall_insert. }
  assert (Hret' : ∀ h', h' ≠ Returned → Returned ∈ <[i := h']> hs → Returned ∈ hs).
  { intros h' Hh' Hin. destruct (hashers_insert hs i h h' Hi) as (rest & Hp1 & Hp2).
    rewrite Hp2 in Hin. rewrite Hp1.
    apply elem_of_cons in Hin as [?|?]; [done|]. by right. }
  destruct h as [|e|]; [| |done].
  - destruct (hashers_insert hs i Ranging Ranging Hi) as (rest & Hp1 & Hp2).
    destruct tc as [|t tc].
    + destruct tcc; [|done]. injection Hg as <-. fields.
      destruct (hashers_insert hs i Ranging Returned Hi) as (rest' & Hq1 & Hq2).
      split; [|split; [|split; [|split]]].
      * rewrite (in_hand_perm _ _ Hq2). by rewrite (in_hand_perm _ _ Hq1) in Hcons.
      * by rewrite length_insert.
      * destruct at_; try done. by destruct Hat.
      * intros Hc. by destruct (Hcr Hc).
      * done.
    + assert (Hnone : Returned ∉ hs) by (intros Hin; by specialize (Hret Hin)).
      change ((t :: tc) ++ ?q)%list with (t :: (tc ++ q))%list in Hcons.
      rewrite hashed_cons in Hcons.
      destruct (worker fs t) as [err|e]; injection Hg as <-; fields.
      * split; [|split; [|split; [|split]]].
        -- rewrite (in_hand_perm _ _ Hp2). by rewrite (in_hand_perm _ _ Hp1) in Hcons.
        -- by rewrite length_insert.
        -- by apply Hat'.
        -- intros Hc. by destruct (Hcr Hc).
        -- intros Hin. destruct Hnone. by apply (Hret' Ranging).
      * destruct (hashers_insert hs i Ranging (Sending e) Hi) as (rest' & Hq1 & Hq2).
        split; [|split; [|split; [|split]]].
        -- rewrite (in_hand_perm _ _ Hq2). rewrite (in_hand_perm _ _ Hq1) in Hcons.
           change (in_hand (Ranging :: rest')) with (in_hand rest') in Hcons.
           change (in_hand (Sending e :: rest')) with (e :: in_hand rest').
           rewrite Hcons. cbn [app]. by rewrite <- !Permutation_middle.
        -- by rewrite length_insert.
        -- by apply Hat'.
        -- intros Hc. by destruct (Hcr Hc).
        -- intros Hin. destruct Hnone. by apply (Hret' (Sending e)).
  - destruct (length rc <? chan_cap)%nat; [|done]. injection Hg as <-. fields.
    destruct (hashers_insert hs i (Sending e) Ranging Hi) as (rest & Hp1 & Hp2).
    split; [|split; [|split; [|split]]].
    + rewrite (in_hand_perm _ _ Hp2). rewrite (in_hand_perm _ _ Hp1) in Hcons.
      change (in_hand (Ranging :: rest)) with (in_hand rest).
      change (in_hand (Sending e :: rest)) with (e :: in_hand rest) in Hcons.
      rewrite Hcons. rewrite <- !app_assoc. cbn [app]. by rewrite <- !Permutation_middle.
    + by rewrite length_insert.
    + by apply Hat'.
    + intros Hc. by destruct (Hcr Hc).
    + intros Hin. apply Hret. by apply (Hret' Ranging).
Qed.

Lemma pipe_inv_collector (ts : list task) (n : nat) (s s' : pipe) :
  pipe_inv fs ts n s → collector_step s = Some s' → pipe_inv fs ts n s'.
Proof.
  intros (Hcons & Hlen & Hat & Hcol & Hret) Hg.
  unfold collector_step in Hg. unfold pipe_inv.
  destruct s as [at_ tc tcc hs rc rcc col cr]. fields.
  destruct cr; [done|]. destruct rc as [|e rc].
  - destruct rcc; [|done]. injection Hg as <-. fields.
    split; [done|]. split; [done|]. split; [|done].
    destruct at_; try done. by destruct Hat as (? & ? & ? & ?).
  - injection Hg as <-. fields.
    split; [|split; [done|split; [|done]]].
    + rewrite Hcons. by rewrite <- !app_assoc.
    + by destruct at_.
Qed.

Lemma pipe_inv_step (ts : list task) (n : nat) (s s' : pipe) :
  pipe_inv fs ts n s → pipe_step fs s s' → pipe_inv fs ts n s'.
Proof.
  intros Hinv [[|i|] Hg]; cbn [fire] in Hg.
  - by eapply pipe_inv_main.
  - by eapply pipe_inv_hasher.
  - by eapply pipe_inv_collector.
Qed.

Lemma pipe_inv_reach (ts : list task) (n : nat) (s : pipe) :
  rtc (pipe_step fs) (pipe_start ts n) s → pipe_inv fs ts n s.
Proof.
  intros H. apply rtc_nsteps in H as [k H].
  revert s H. induction k as [|k IH]; intros s H.
  - inversion H; subst. apply pipe_inv_start.
  - apply nsteps_inv_r in H as (s0 & H0 & Hs). eapply pipe_inv_step; [|done]. by apply IH.
Qed.
End Goroutines.

Section Runs.
Context (fs : FileSystem).

Local Ltac fields :=
  unfold with_hasher, to_queue in *;
  cbn [at_main taskChan taskChan_closed hashers resultChan resultChan_closed
       collected collector_returned] in *.

Lemma run_goroutines_reach (gs : list goroutine) (s : pipe) :
  rtc (pipe_step fs) s (run_goroutines fs gs s).
Proof.
  revert s. induction gs as [|g gs IH]; intros s; [done|].
  cbn. destruct (fire fs g s) as [s'|] eqn:Hg; [|apply IH].
  eapply rtc_l; [by exists g|apply IH].
Qed.

Lemma fire_steps_left (g : goroutine) (s s' : pipe) :
  fire fs g s = Some s' → (steps_left s' < steps_left s)%nat.
Proof.
  destruct s as [at_ tc tcc hs rc rcc col cr]. destruct g as [|i|]; cbn [fire].
  - unfold main_step. fields. destruct at_ as [[|t q]| | |]; try done.
    + intros [= <-]. unfold steps_left. fields. lia.
    + destruct (length tc <? chan_cap)%nat; [|done]. intros [= <-].
      unfold steps_left. fields. rewrite length_app. cbn [length]. lia.
    + destruct (forallb is_returned hs); [|done]. intros [= <-].
      unfold steps_left. fields. lia.
    + destruct cr; [|done]. intros [= <-]. unfold steps_left. fields. lia.
  - unfold hasher_step. fields. destruct (hs !! i) as [[|e|]|] eqn:Hi; try done.
    + destruct tc as [|t tc].
      * destruct tcc; [|done]. intros [= <-]. unfold steps_left. fields.
        pose proof (hasher_left_insert hs i Ranging Returned Hi) as H. cbn [hasher_left] in H.
        lia.
      * destruct (worker fs t) as [err|e]; intros [= <-]; unfold steps_left; fields.
        -- pose proof (hasher_left_insert hs i Ranging Ranging Hi) as H. cbn [length]. lia.
        -- pose proof (hasher_left_insert hs i Ranging (Sending e) Hi) as H.
           cbn [hasher_left] in H. cbn [length]. lia.
    + destruct (length rc <? chan_cap)%nat; [|done]. intros [= <-].
      unfold steps_left. fields.
      pose proof (hasher_left_insert hs i (Sending e) Ranging Hi) as H.
      cbn [hasher_left] in H. rewrite length_app. cbn [length]. lia.
  - unfold collector_step. fields. destruct cr; [done|]. destruct rc as [|e rc].
    + destruct rcc; [|done]. intros [= <-]. unfold steps_left. fields. lia.
    + intros [= <-]. unfold steps_left. fields. cbn [length]. lia.
Qed.

Lemma hashers_cases (hs : list hasher) :
  (∃ i e, hs !! i = Some (Sending e)) ∨ (∃ i, hs !! i = Some Ranging) ∨
  Forall (fun h => h = Returned) hs.
Proof.
  induction hs as [|h hs IH]; [by right; right|].
  destruct h as [|e|].
  - right. left. by exists 0%nat.
  - left. by exists 0%nat, e.
  - destruct IH as [(i & e & Hi)|[(i & Hi)|HF]].
    + left. by exists (S i), e.
    + right. left. by exists (S i).
    + right. right. by constructor.
Qed.

(** With a hasher, some goroutine can step until the main goroutine is past
    line 170. *)
Lemma pipe_progress (ts : list task) (n : nat) (s : pipe) :
  (0 < n)%nat → pipe_inv fs ts n s → at_main s ≠ Encoding →
  ∃ g s', fire fs g s = Some s'.
Proof.
  intros Hn (Hcons & Hlen & Hat & Hcol & Hret) Hend.
  destruct s as [at_ tc tcc hs rc rcc col cr]. fields.
  (* a result in the channel: the collector takes it *)
  destruct rc as [|e rc].
  2:{ exists CollectorG. cbn [fire]. unfold collector_step. fields.
      destruct cr; [|by eexists]. by destruct (Hcol eq_refl). }
  (* a hasher at the send *)
  destruct (hashers_cases hs) as [(i & e & Hi)|[(i & Hi)|Hall]].
  { exists (HasherG i). cbn [fire]. unfold hasher_step. fields. rewrite Hi.
    cbn. by eexists. }
  { destruct tc as [|t tc].
    - destruct at_ as [[|t q]| | |].
      + exists MainG. cbn. by eexists.
      + exists MainG. cbn. by eexists.
      + exists (HasherG i). cbn [fire]. unfold hasher_step. fields. rewrite Hi.
        destruct Hat as [-> _]. by eexists.
      + destruct Hat as (_ & _ & HF). rewrite Forall_forall in HF.
        by specialize (HF Ranging (list_elem_of_lookup_2 _ _ _ Hi)).
      + done.
    - exists (HasherG i). cbn [fire]. unfold hasher_step. fields. rewrite Hi.
      destruct (worker fs t); by eexists. }
  (* every hasher has returned *)
  assert (Hin : Returned ∈ hs).
  { destruct hs as [|h hs]; [cbn in Hlen; lia|]. inversion Hall; subst. by left. }
  destruct at_ as [[|t q]| | |].
  - exists MainG. cbn. by eexists.
  - destruct Hat as (_ & _ & HF). rewrite Forall_forall in HF. by destruct (HF _ Hin).
  - exists MainG. cbn [fire]. unfold main_step. fields.
    assert (Hb : forallb is_returned hs = true).
    { apply forallb_forall. intros h Hh%list_elem_of_In. rewrite Forall_forall in Hall.
      by rewrite (Hall h Hh). }
    rewrite Hb. by eexists.
  - destruct cr.
    + exists MainG. cbn. by eexists.
    + exists CollectorG. cbn [fire]. unfold collector_step. fields.
      destruct Hat as (_ & -> & _). by eexists.
  - done.
Qed.

Lemma pipe_reaches_end (ts : list task) (n : nat) (s : pipe) :
  (0 < n)%nat → pipe_inv fs ts n s →
  ∃ s', rtc (pipe_step fs) s s' ∧ at_main s' = Encoding.
Proof.
  intros Hn. remember (steps_left s) as k eqn:Hk. revert s Hk.
  induction (lt_wf k) as [k _ IH]. intros s -> Hinv.
  assert (Hd : at_main s = Encoding ∨ at_main s ≠ Encoding)
    by (destruct (at_main s); (by left) || (by right)).
  destruct Hd as [He|Hne]; [by exists s|].
  destruct (pipe_progress ts n s Hn Hinv Hne) as (g & s1 & Hg).
  destruct (IH (steps_left s1) (fire_steps_left g s s1 Hg) s1 eq_refl) as (s' & Hr & He).
  { eapply pipe_inv_step; [done|by exists g]. }
  exists s'. split; [|done]. eapply rtc_l; [by exists g|done].
Qed.

Lemma nsteps_steps_left (k : nat) (s s' : pipe) :
  nsteps (pipe_step fs) k s s' → (k + steps_left s' ≤ steps_left s)%nat.
Proof.
  induction 1 as [|k s s1 s' [g Hg] _ IH]; [lia|].
  pose proof (fire_steps_left g s s1 Hg). lia.
Qed.
End Runs.

Section NoHasher.
Context (fs : FileSystem).

Local Ltac fields :=
  unfold with_hasher, to_queue in *;
  cbn [at_main taskChan taskChan_closed hashers resultChan resultChan_closed
       collected collector_returned] in *.

Lemma hasher_count_pos (MaxHashers NumCPU : Z) :
  0 ≤ MaxHashers → 0 < NumCPU → (0 < hasher_count MaxHashers NumCPU)%nat.
Proof.
  unfold hasher_count. intros Hm Hc. destruct (Z.eqb_spec MaxHashers 0); lia.
Qed.

Lemma hasher_count_neg (MaxHashers NumCPU : Z) :
  MaxHashers < 0 → hasher_count MaxHashers NumCPU = 0%nat.
Proof.
  unfold hasher_count. intros Hm. destruct (Z.eqb_spec MaxHashers 0); lia.
Qed.

Lemma reaches_end (I : pipe → Prop) :
  (∀ s s', I s → pipe_step fs s s' → I s') →
  (∀ s, I s → at_main s ≠ Encoding → ∃ g s', fire fs g s = Some s') →
  ∀ s, I s → ∃ s', rtc (pipe_step fs) s s' ∧ at_main s' = Encoding.
Proof.
  intros Hstep Hprog s. remember (steps_left s) as k eqn:Hk. revert s Hk.
  induction (lt_wf k) as [k _ IH]. intros s -> Hinv.
  assert (Hd : at_main s = Encoding ∨ at_main s ≠ Encoding)
    by (destruct (at_main s); (by left) || (by right)).
  destruct Hd as [He|Hne]; [by exists s|].
  destruct (Hprog s Hinv Hne) as (g & s1 & Hg).
  destruct (IH (steps_left s1) (fire_steps_left fs g s s1 Hg) s1 eq_refl) as (s' & Hr & He).
  { eapply Hstep; [done|by exists g]. }
  exists s'. split; [|done]. eapply rtc_l; [by exists g|done].
Qed.

Lemma idle_inv_step (ts : list task) (s s' : pipe) :
  idle_inv ts s → pipe_step fs s s' → idle_inv ts s'.
Proof.
  intros (Hh & Hr & Hc & Hts & Hlen & Hat) [[|i|] Hg]; cbn [fire] in Hg.
  - unfold main_step in Hg. unfold idle_inv.
    destruct s as [at_ tc tcc hs rc rcc col cr]. fields.
    destruct at_ as [[|t q]| | |]; try done.
    + by injection Hg as <-.
    + destruct (Nat.ltb_spec (length tc) chan_cap); [|done]. injection Hg as <-. fields.
      rewrite <- app_assoc, length_app. cbn [length app].
      split; [done|]. split; [done|]. split; [done|]. split; [done|]. split; [lia|done].
    + destruct (forallb is_returned hs); [|done]. by injection Hg as <-.
    + destruct cr; [|done]. by injection Hg as <-.
  - unfold hasher_step in Hg. by rewrite Hh in Hg.
  - unfold collector_step in Hg. unfold idle_inv.
    destruct s as [at_ tc tcc hs rc rcc col cr]. fields. subst rc.
    destruct cr; [done|]. destruct rcc; [|done]. injection Hg as <-. fields.
    repeat split; try done. by destruct at_; try done; destruct Hat.
Qed.

Lemma idle_inv_reach (ts : list task) (s : pipe) :
  rtc (pipe_step fs) (pipe_start ts 0) s → idle_inv ts s.
Proof.
  intros H. apply rtc_nsteps in H as [k H].
  revert s H. induction k as [|k IH]; intros s H.
  - inversion H; subst. unfold idle_inv, pipe_start. fields.
    repeat split; try done. cbn. lia.
  - apply nsteps_inv_r in H as (s0 & H0 & Hs). eapply idle_inv_step; [|done]. by apply IH.
Qed.

Lemma idle_progress (ts : list task) (s : pipe) :
  (length ts ≤ chan_cap)%nat → idle_inv ts s → at_main s ≠ Encoding →
  ∃ g s', fire fs g s = Some s'.
Proof.
  intros Hcap (Hh & Hr & Hc & Hts & Hlen & Hat) Hend.
  destruct s as [at_ tc tcc hs rc rcc col cr]. fields. subst hs rc col.
  destruct at_ as [[|t q]| | |]; try done.
  - exists MainG. cbn. by eexists.
  - exists MainG. cbn [fire]. unfold main_step. fields.
    assert (Hlt : (length tc <? chan_cap)%nat = true).
    { apply Nat.ltb_lt. rewrite <- Hts, length_app in Hcap. cbn [length] in Hcap. lia. }
    rewrite Hlt. by eexists.
  - exists MainG. cbn. by eexists.
  - destruct cr.
    + exists MainG. cbn. by eexists.
    + exists CollectorG. cbn [fire]. unfold collector_step. fields. rewrite Hat. by eexists.
Qed.

(** With more tasks than [taskChan] holds, the main goroutine fills the
    channel and every goroutine is then blocked. *)
Lemma idle_blocks (ts : list task) (s : pipe) :
  (chan_cap < length ts)%nat → idle_inv ts s →
  ∃ s', rtc (pipe_step fs) s s' ∧ ∀ g, fire fs g s' = None.
Proof.
  intros Hcap. remember (chan_cap - length (taskChan s))%nat as k eqn:Hk.
  revert s Hk. induction k as [|k IH]; intros s Hk Hinv.
  - exists s. split; [done|]. destruct Hinv as (Hh & Hr & Hc & Hts & Hlen & Hat).
    destruct s as [at_ tc tcc hs rc rcc col cr]. fields. subst hs rc col.
    assert (Hfull : (length tc <? chan_cap)%nat = false) by (apply Nat.ltb_ge; lia).
    destruct at_ as [[|t q]| | |].
    + rewrite app_nil_r in Hts. subst tc. lia.
    + intros [|i|]; cbn [fire].
      * unfold main_step. fields. by rewrite Hfull.
      * done.
      * unfold collector_step. fields. destruct Hat as [-> ->]. done.
    + rewrite app_nil_r in Hts. subst tc. lia.
    + rewrite app_nil_r in Hts. subst tc. lia.
    + rewrite app_nil_r in Hts. subst tc. lia.
  - destruct Hinv as (Hh & Hr & Hc & Hts & Hlen & Hat).
    assert (Hq : ∃ t q, at_main s = Queueing (t :: q)).
    { destruct (at_main s) as [[|t q]| | |] eqn:Hm; fields; rewrite ?Hm in Hts;
        try (rewrite app_nil_r in Hts; subst ts; lia).
      by exists t, q. }
    destruct Hq as (t & q & Hm).
    assert (Hlt : (length (taskChan s) <? chan_cap)%nat = true) by (apply Nat.ltb_lt; lia).
    assert (Hg : ∃ s1, fire fs MainG s = Some s1 ∧ taskChan s1 = (taskChan s ++ [t])%list).
    { cbn [fire]. unfold main_step. rewrite Hm, Hlt. by eexists. }
    destruct Hg as (s1 & Hg & Htc).
    destruct (IH s1) as (s' & Hr' & Hb).
    + rewrite Htc, length_app. cbn [length]. lia.
    + eapply idle_inv_step; [|by exists MainG]. done.
    + exists s'. split; [|done]. eapply rtc_l; [by exists MainG|done].
Qed.
End NoHasher.

Section Pipe.
Context (fs : FileSystem).

(** X7.  The goroutines and their channels lose no result and repeat none.
    Whatever the scheduler does, what the collector has received is at any
    time a part of the successful results of the queued tasks; and once the
    main goroutine is past [wgResult.Wait()] (line 170) it has received each
    of them exactly once, in some order: the sequential reading [schedule]
    of the run.  (At least one hasher: [MaxHashers] is not negative, and
    [runtime.NumCPU()] is positive.) *)
Theorem collector_receives_each_result_once (lib : GoLib) (root : string) (c : cache)
    (iter : list (string * entry)) (MaxHashers NumCPU : Z) (s : pipe) :
  0 ≤ MaxHashers → 0 < NumCPU →
  iter ≡ₚ map_to_list (Hashes c) →
  rtc (pipe_step fs)
      (pipe_start (queued lib fs root c iter) (hasher_count MaxHashers NumCPU)) s →
  collected s ⊆+ hashed fs (queued lib fs root c iter) ∧
  (at_main s = Encoding → schedule lib fs root c iter (collected s)).
Proof.
  intros Hm Hc Hi Hr. apply pipe_inv_reach in Hr as (Hcons & Hlen & Hat & Hcol & Hret).
  split.
  - rewrite Hcons. by apply submseteq_inserts_r.
  - intros He. split; [done|]. rewrite He in Hat. destruct Hat as (_ & _ & HF & Hcr).
    destruct (Hcol Hcr) as [Hrc _].
    assert (Hin : Returned ∈ hashers s).
    { pose proof (hasher_count_pos MaxHashers NumCPU Hm Hc) as Hn.
      destruct (hashers s) as [|h hs]; [cbn in Hlen; lia|]. inversion HF; subst. by left. }
    assert (Hh : in_hand (hashers s) = []).
    { clear -HF. induction HF as [|h hs -> _ IH]; [done|]. done. }
    rewrite Hcons, Hrc, Hh, (Hret Hin). unfold to_queue. rewrite He. cbn.
    by rewrite app_nil_r.
Qed.

(** X8.  With at least one hasher the goroutines cannot deadlock: in every
    state they reach, some goroutine can take a step until the main
    goroutine is past line 170; from every such state the run can be
    completed; and no run takes more than 4 steps per task, one per hasher
    and 4 more. *)
Theorem pipeline_runs_to_the_end (ts : list task) (MaxHashers NumCPU : Z) (s : pipe) :
  0 ≤ MaxHashers → 0 < NumCPU →
  rtc (pipe_step fs) (pipe_start ts (hasher_count MaxHashers NumCPU)) s →
  (at_main s ≠ Encoding → ∃ g s', fire fs g s = Some s') ∧
  (∃ s', rtc (pipe_step fs) s s' ∧ at_main s' = Encoding) ∧
  (∀ k, nsteps (pipe_step fs) k (pipe_start ts (hasher_count MaxHashers NumCPU)) s →
        (k ≤ 4 * length ts + hasher_count MaxHashers NumCPU + 4)%nat).
Proof.
  intros Hm Hc Hr. pose proof (hasher_count_pos MaxHashers NumCPU Hm Hc) as Hn.
  apply pipe_inv_reach in Hr as Hinv. split; [|split].
  - by apply (pipe_progress fs ts _ s Hn).
  - apply (reaches_end fs (pipe_inv fs ts (hasher_count MaxHashers NumCPU))); [| |done].
    + apply pipe_inv_step.
    + intros s0. by apply pipe_progress.
  - intros k Hk. apply (nsteps_steps_left fs) in Hk. unfold steps_left at 2 in Hk.
    unfold pipe_start, to_queue in Hk.
    cbn [at_main taskChan hashers resultChan collector_returned length] in Hk.
    assert (Hsum : ∀ n, sum_list_with hasher_left (replicate n Ranging) = n).
    { intros n. induction n as [|n IH]; [done|]. cbn. by rewrite IH. }
    rewrite Hsum in Hk. lia.
Qed.

(** X9.  A negative [MaxHashers] starts no hasher (the loop of line 109 does
    not run; only 0 is replaced by the number of CPUs).  The collector then
    never receives a result.  With at most 100 tasks the run still ends,
    having hashed nothing; with more, the main goroutine never gets past
    its sends: it fills [taskChan], and every goroutine is then blocked. *)
Theorem negative_hasher_count_hashes_nothing (ts : list task) (MaxHashers NumCPU : Z)
    (s : pipe) :
  MaxHashers < 0 →
  rtc (pipe_step fs) (pipe_start ts (hasher_count MaxHashers NumCPU)) s →
  collected s = [] ∧
  ((length ts ≤ chan_cap)%nat →
   ∃ s', rtc (pipe_step fs) s s' ∧ at_main s' = Encoding ∧ collected s' = []) ∧
  ((chan_cap < length ts)%nat →
   at_main s ≠ Encoding ∧
   ∃ s', rtc (pipe_step fs) s s' ∧ ∀ g, fire fs g s' = None).
Proof.
  intros Hm Hr. rewrite (hasher_count_neg _ _ Hm) in Hr.
  pose proof (idle_inv_reach fs ts s Hr) as Hinv. split; [|split].
  - by destruct Hinv as (_ & _ & ? & _).
  - intros Hcap.
    destruct (reaches_end fs (idle_inv ts) (idle_inv_step fs ts)
                (fun s0 => idle_progress fs ts s0 Hcap) s Hinv) as (s' & Hr' & He).
    exists s'. split; [done|]. split; [done|].
    assert (H' : idle_inv ts s') by (apply (idle_inv_reach fs); by etrans).
    by destruct H' as (_ & _ & ? & _).
  - intros Hcap. split; [|by apply (idle_blocks fs ts)].
    destruct Hinv as (_ & _ & _ & Hts & Hlen & _). intros He.
    unfold to_queue in Hts. rewrite He, app_nil_r in Hts. subst ts. lia.
Qed.
End Pipe.

Lemma collector_receives_each_result_once_witness :
  schedule unix models "models" empty_cache (map_to_list (Hashes empty_cache))
    (collected
       (run_goroutines models turns
          (pipe_start (queued unix models "models" empty_cache
                         (map_to_list (Hashes empty_cache)))
                      (hasher_count 2 4)))).
Proof.
  pose proof (collector_receives_each_result_once models unix "models" empty_cache
                (map_to_list (Hashes empty_cache)) 2 4
                (run_goroutines models turns
                   (pipe_start (queued unix models "models" empty_cache
                                  (map_to_list (Hashes empty_cache)))
                               (hasher_count 2 4)))) as H.
  apply H.
  - lia.
  - lia.
  - reflexivity.
  - apply run_goroutines_reach.
  - vm_compute; reflexivity.
Defined.

Lemma pipeline_runs_to_the_end_witness :
  ∃ s', rtc (pipe_step models)
            (pipe_start [{| task_path := "models/a.ckpt";
                            task_d := FileInfoToDirEntry (regular 100 500000000) |}]
                        (hasher_count 0 4)) s' ∧
        at_main s' = Encoding.
Proof.
  pose proof (pipeline_runs_to_the_end models
                [{| task_path := "models/a.ckpt";
                    task_d := FileInfoToDirEntry (regular 100 500000000) |}] 0 4
                (pipe_start [{| task_path := "models/a.ckpt";
                                task_d := FileInfoToDirEntry (regular 100 500000000) |}]
                            (hasher_count 0 4))) as H.
  apply H.
  - lia.
  - lia.
  - apply rtc_refl.
Defined.

Lemma negative_hasher_count_hashes_nothing_witness :
  ∃ s', rtc (pipe_step models)
            (pipe_start [{| task_path := "models/a.ckpt";
                            task_d := FileInfoToDirEntry (regular 100 500000000) |}]
                        (hasher_count (-1) 4)) s' ∧
        at_main s' = Encoding ∧ collected s' = [].
Proof.
  pose proof (negative_hasher_count_hashes_nothing models
                [{| task_path := "models/a.ckpt";
                    task_d := FileInfoToDirEntry (regular 100 500000000) |}] (-1) 4
                (pipe_start [{| task_path := "models/a.ckpt";
                                task_d := FileInfoToDirEntry (regular 100 500000000) |}]
                            (hasher_count (-1) 4))) as H.
  apply H.
  - lia.
  - apply rtc_refl.
  - vm_compute. lia.
Defined.

(** ** binary64: how close the stored time is to the file's time *)

Lemma pow2_pos (e : Z) : (0 < powerRZ 2 e)%R.
Proof. apply powerRZ_lt. lra. Qed.

Lemma pow2_add (a b : Z) : powerRZ 2 (a + b) = (powerRZ 2 a * powerRZ 2 b)%R.
Proof. apply powerRZ_add. lra. Qed.

Lemma pow2_IZR (n : Z) : 0 ≤ n → powerRZ 2 n = IZR (2 ^ n).
Proof.
  intros Hn. rewrite <- (Z2Nat.id n Hn) at 1. rewrite <- pow_powerRZ.
  rewrite <- (Z2Nat.id n Hn) at 2. by rewrite <- pow_IZR.
Qed.

Lemma pow2_le (a b : Z) : a ≤ b → (powerRZ 2 a <= powerRZ 2 b)%R.
Proof.
  intros Hab. replace b with (a + (b - a)) by lia. rewrite pow2_add.
  rewrite (pow2_IZR (b - a)) by lia.
  assert (1 ≤ 2 ^ (b - a)) by (apply (Z.pow_le_mono_r 2 0); lia).
  apply IZR_le in H. pose proof (pow2_pos a). nra.
Qed.

Lemma pow2_lt_inv (a b : Z) : (powerRZ 2 a < powerRZ 2 b)%R → a < b.
Proof.
  intros H. destruct (Z_lt_le_dec a b) as [|Hle]; [done|].
  apply pow2_le in Hle. lra.
Qed.

(** Dropping [n] low bits: the floor of the value, in units of [2^(e+n)]. *)
Lemma F2R_floor (m e n : Z) :
  0 ≤ n →
  (F2R (m / 2 ^ n) (e + n) <= F2R m e < F2R (m / 2 ^ n) (e + n) + powerRZ 2 (e + n))%R.
Proof.
  intros Hn. unfold F2R. rewrite pow2_add, (pow2_IZR n Hn).
  assert (Hp : 0 < 2 ^ n) by (apply Z.pow_pos_nonneg; lia).
  pose proof (Z.div_mod m (2 ^ n) ltac:(lia)) as Hdm.
  pose proof (Z.mod_pos_bound m (2 ^ n) Hp) as [Hr0 Hr1].
  apply IZR_le in Hr0. apply IZR_lt in Hr1. apply IZR_lt in Hp.
  rewrite Hdm at 2 3. rewrite plus_IZR, mult_IZR.
  pose proof (pow2_pos e). split; nra.
Qed.

Lemma F2R_mono (m m' e : Z) : m ≤ m' → (F2R m e <= F2R m' e)%R.
Proof. intros H%IZR_le. unfold F2R. pose proof (pow2_pos e). nra. Qed.

Lemma F2R_succ (m e : Z) : F2R (m + 1) e = (F2R m e + powerRZ 2 e)%R.
Proof. unfold F2R. rewrite plus_IZR. lra. Qed.

Lemma F2R_shift (m e s : Z) : 0 ≤ s → F2R (m * 2 ^ s) (e - s) = F2R m e.
Proof.
  intros Hs. unfold F2R. rewrite mult_IZR, <- (pow2_IZR s Hs).
  replace e with ((e - s) + s) at 2 by lia. rewrite pow2_add. lra.
Qed.

(** The magnitude of a value bounds its number of digits. *)
Lemma F2R_digits (m : positive) (e B : Z) :
  (F2R (Z.pos m) e < powerRZ 2 B)%R → Z.pos (digits2_pos m) + e ≤ B.
Proof.
  intros H. pose proof (Zdigits2_log2 (Z.pos m) ltac:(lia)) as Hd. cbn [Zdigits2] in Hd.
  pose proof (Z.log2_spec (Z.pos m) ltac:(lia)) as [Hlo _].
  assert (Hlt : (powerRZ 2 (Z.log2 (Z.pos m) + e) < powerRZ 2 B)%R).
  { eapply Rle_lt_trans; [|exact H]. unfold F2R. rewrite pow2_add.
    rewrite (pow2_IZR (Z.log2 (Z.pos m))) by apply Z.log2_nonneg.
    apply IZR_le in Hlo. pose proof (pow2_pos e). nra. }
  apply pow2_lt_inv in Hlt. lia.
Qed.

Lemma F2R_below (m : positive) (e : Z) :
  (F2R (Z.pos m) e < powerRZ 2 (Z.pos (digits2_pos m) + e))%R.
Proof.
  pose proof (Zdigits2_log2 (Z.pos m) ltac:(lia)) as Hd. cbn [Zdigits2] in Hd.
  pose proof (Z.log2_spec (Z.pos m) ltac:(lia)) as [_ Hhi].
  unfold F2R. rewrite pow2_add, Hd.
  rewrite (pow2_IZR (Z.log2 (Z.pos m) + 1)) by (pose proof (Z.log2_nonneg (Z.pos m)); lia).
  replace (Z.succ (Z.log2 (Z.pos m))) with (Z.log2 (Z.pos m) + 1) in Hhi by lia.
  apply IZR_lt in Hhi. pose proof (pow2_pos e). nra.
Qed.

Lemma shr_1_half (r : shr_record) : 0 ≤ shr_m r → shr_m (shr_1 r) = shr_m r / 2.
Proof.
  destruct r as [m b s]. cbn [shr_m]. intros Hm. rewrite <- Z.div2_div.
  destruct m as [|[p|p|]|p]; cbn [shr_1 shr_m]; done || lia.
Qed.

Lemma iter_shr_1_floor (n : positive) (r : shr_record) :
  0 ≤ shr_m r → shr_m (SpecFloat.iter_pos shr_1 n r) = shr_m r / 2 ^ Z.pos n.
Proof.
  revert r. induction n as [n IH|n IH|]; intros r Hr; cbn [SpecFloat.iter_pos].
  - pose proof (shr_1_half r Hr) as H1.
    assert (H1' : 0 ≤ shr_m (shr_1 r)) by (rewrite H1; apply Z.div_pos; lia).
    pose proof (IH _ H1') as H2.
    assert (H2' : 0 ≤ shr_m (SpecFloat.iter_pos shr_1 n (shr_1 r))).
    { rewrite H2. apply Z.div_pos; [lia|]. apply Z.pow_pos_nonneg; lia. }
    rewrite (IH _ H2'), H2, H1.
    rewrite !Z.div_div by (try apply Z.pow_pos_nonneg; lia).
    f_equal. rewrite <- Z.pow_add_r, <- (Z.pow_succ_r 2) by lia. f_equal. lia.
  - pose proof (IH _ Hr) as H2.
    assert (H2' : 0 ≤ shr_m (SpecFloat.iter_pos shr_1 n r)).
    { rewrite H2. apply Z.div_pos; [lia|]. apply Z.pow_pos_nonneg; lia. }
    rewrite (IH _ H2'), H2.
    rewrite !Z.div_div by (try apply Z.pow_pos_nonneg; lia).
    f_equal. rewrite <- Z.pow_add_r by lia. f_equal. lia.
  - rewrite shr_1_half by done. done.
Qed.

Lemma shr_fexp_floor (m e : Z) (l : location) :
  0 ≤ m →
  let '(r, e1) := shr_fexp prec emax m e l in
  e ≤ e1 ∧ shr_m r = m / 2 ^ (e1 - e).
Proof.
  intros Hm. unfold shr_fexp, shr.
  destruct (fexp prec emax (Zdigits2 m + e) - e) as [|n|n] eqn:Hn.
  - rewrite shr_record_of_loc_m, Z.sub_diag, Z.pow_0_r, Z.div_1_r. lia.
  - rewrite iter_shr_1_floor by (by rewrite shr_record_of_loc_m).
    rewrite shr_record_of_loc_m. split; [lia|]. f_equal. f_equal. lia.
  - rewrite shr_record_of_loc_m, Z.sub_diag, Z.pow_0_r, Z.div_1_r. lia.
Qed.

Lemma round_nearest_even_near (m : Z) (l : location) :
  m ≤ round_nearest_even m l ≤ m + 1.
Proof. destruct l as [|[| |]]; cbn; try lia. destruct (IntDef.Z.even m); lia. Qed.

(** Rounding to binary64 moves a non-negative value [mx * 2^ex] of
    magnitude below [2^(E+52)] by less than [2 * 2^E]. *)
Lemma binary_round_aux_near (E mx ex : Z) (lx : location) :
  0 ≤ mx → Zdigits2 mx + ex ≤ E + 52 → ex ≤ E → -1074 ≤ E ≤ 970 →
  nonneg (binary_round_aux prec emax false mx ex lx) ∧
  (F2R mx ex - 2 * powerRZ 2 E <= SF2R (binary_round_aux prec emax false mx ex lx)
     <= F2R mx ex + powerRZ 2 E)%R.
Proof.
  intros Hm HB He HE. unfold binary_round_aux.
  pose proof (shr_fexp_digits mx ex lx Hm) as H1.
  pose proof (shr_fexp_floor mx ex lx Hm) as F1.
  destruct (shr_fexp prec emax mx ex lx) as [r1 e1].
  destruct H1 as (Hr1 & He1 & Hd1). destruct F1 as (Hle1 & Hf1).
  pose proof (round_nearest_even_digits (shr_m r1) (loc_of_shr_record r1) Hr1) as [Hr2 Hd2].
  pose proof (round_nearest_even_near (shr_m r1) (loc_of_shr_record r1)) as Hn2.
  set (m2 := round_nearest_even (shr_m r1) (loc_of_shr_record r1)) in *.
  pose proof (shr_fexp_digits m2 e1 loc_Exact Hr2) as H3.
  pose proof (shr_fexp_floor m2 e1 loc_Exact Hr2) as F3.
  destruct (shr_fexp prec emax m2 e1 loc_Exact) as [r3 e3].
  destruct H3 as (Hr3 & He3 & Hd3). destruct F3 as (Hle3 & Hf3).
  pose proof (Zdigits2_nonneg mx). pose proof (Zdigits2_nonneg (shr_m r1)).
  pose proof (Zdigits2_nonneg m2).
  assert (HE1 : e1 ≤ E) by (unfold fexp, emin, prec, emax in *; lia).
  assert (HE3 : e3 ≤ E) by (unfold fexp, emin, prec, emax in *; lia).
  pose proof (F2R_floor mx ex (e1 - ex) ltac:(lia)) as V1.
  replace (ex + (e1 - ex)) with e1 in V1 by lia. rewrite <- Hf1 in V1.
  pose proof (F2R_floor m2 e1 (e3 - e1) ltac:(lia)) as V3.
  replace (e1 + (e3 - e1)) with e3 in V3 by lia. rewrite <- Hf3 in V3.
  pose proof (F2R_mono (shr_m r1) m2 e1 ltac:(lia)) as V2a.
  pose proof (F2R_mono m2 (shr_m r1 + 1) e1 ltac:(lia)) as V2b.
  rewrite F2R_succ in V2b.
  pose proof (pow2_le e1 E HE1). pose proof (pow2_le e3 E HE3).
  pose proof (pow2_pos E).
  assert (Hval : (F2R mx ex - 2 * powerRZ 2 E <= F2R (shr_m r3) e3
                  <= F2R mx ex + powerRZ 2 E)%R) by lra.
  destruct (shr_m r3) as [|m|m] eqn:Hm3; [| |lia].
  - split; [done|]. cbn [SF2R]. unfold F2R in Hval at 2 3. lra.
  - destruct (Z.leb_spec e3 (emax - prec)) as [_|Hov].
    + split; [done|]. exact Hval.
    + unfold emax, prec in Hov. lia.
Qed.

Lemma iter_xO_value (mx d : positive) :
  Z.pos (Pos.iter xO mx d) = Z.pos mx * 2 ^ Z.pos d.
Proof.
  induction d as [|d IH] using Pos.peano_ind.
  - cbn. lia.
  - rewrite Pos.iter_succ, Pos2Z.inj_succ, Z.pow_succ_r by lia.
    change (Z.pos (Pos.iter xO mx d)~0) with (2 * Z.pos (Pos.iter xO mx d)). lia.
Qed.

Lemma shl_align_value (mx : positive) (ex ex' : Z) :
  F2R (Z.pos (shl_align mx ex ex').1) (shl_align mx ex ex').2 = F2R (Z.pos mx) ex.
Proof.
  unfold shl_align. destruct (ex' - ex) as [|d|d] eqn:Hd; cbn [fst snd]; [done|done|].
  rewrite iter_xO_value. replace ex' with (ex - Z.pos d) by lia.
  apply F2R_shift. lia.
Qed.

Lemma binary_round_near (E : Z) (mx : positive) (ex : Z) :
  Z.pos (digits2_pos mx) + ex ≤ E + 52 → -1074 ≤ E ≤ 970 →
  nonneg (binary_round prec emax false mx ex) ∧
  (F2R (Z.pos mx) ex - 2 * powerRZ 2 E <= SF2R (binary_round prec emax false mx ex)
     <= F2R (Z.pos mx) ex + powerRZ 2 E)%R.
Proof.
  intros HB HE. unfold binary_round.
  pose proof (shl_align_digits mx ex (fexp prec emax (Z.pos (digits2_pos mx) + ex))) as [Hd Hle].
  pose proof (shl_align_value mx ex (fexp prec emax (Z.pos (digits2_pos mx) + ex))) as Hv.
  assert (Hez : (shl_align mx ex (fexp prec emax (Z.pos (digits2_pos mx) + ex))).2 ≤ E).
  { unfold shl_align, fexp, emin, prec, emax.
    destruct (Z.max (Z.pos (digits2_pos mx) + ex - 53) (3 - 1024 - 53) - ex) eqn:Hs;
      cbn [snd]; lia. }
  destruct (shl_align mx ex (fexp prec emax (Z.pos (digits2_pos mx) + ex))) as [mz ez].
  cbn [fst snd] in *. rewrite <- Hv.
  apply binary_round_aux_near; cbn [Zdigits2]; lia.
Qed.

Lemma binary_normalize_near (E m e : Z) :
  0 ≤ m → Zdigits2 m + e ≤ E + 52 → -1074 ≤ E ≤ 970 →
  nonneg (binary_normalize prec emax m e false) ∧
  (F2R m e - 2 * powerRZ 2 E <= SF2R (binary_normalize prec emax m e false)
     <= F2R m e + powerRZ 2 E)%R.
Proof.
  intros Hm HB HE. destruct m as [|m|m]; [| |lia].
  - cbn. unfold F2R. pose proof (pow2_pos E). split; [done|]. lra.
  - by apply binary_round_near.
Qed.

(** [float64(n)] for [0 <= n < 2^63]. *)
Lemma of_int64_near (n : Z) :
  0 ≤ n < 2 ^ 63 →
  nonneg (Prim2SF (float64.of_int64 n)) ∧
  (IZR n - 4096 <= SF2R (Prim2SF (float64.of_int64 n)) <= IZR n + 2048)%R.
Proof.
  intros Hn. unfold float64.of_int64.
  assert (Hmin : (n =? int64.min) = false) by (apply Z.eqb_neq; unfold int64.min; lia).
  assert (Hneg : (n <? 0) = false) by (apply Z.ltb_ge; lia).
  rewrite Hmin, Hneg, FloatAxioms.of_uint63_spec.
  assert (Hz : Uint63.to_Z (Uint63.of_Z n) = n).
  { rewrite Uint63.of_Z_spec. apply Z.mod_small. by replace Uint63.wB with (2 ^ 63) by reflexivity. }
  rewrite Hz.
  assert (Hd : Zdigits2 n ≤ 63) by (apply Zdigits2_below; lia).
  destruct (binary_normalize_near 11 n 0) as [Hnn Hv]; [lia|lia|lia|].
  split; [done|]. unfold F2R in Hv. rewrite !pow2_IZR in Hv by lia.
  change (2 ^ 0) with 1 in Hv. change (2 ^ 11) with 2048 in Hv. lra.
Qed.

Lemma F2R_pos (m : positive) (e : Z) : (0 < F2R (Z.pos m) e)%R.
Proof.
  unfold F2R. pose proof (pow2_pos e). assert (H1 : (1 <= IZR (Z.pos m))%R) by (apply IZR_le; lia).
  nra.
Qed.

Lemma F2R_above (m : positive) (e : Z) :
  (powerRZ 2 (Z.pos (digits2_pos m) + e - 1) <= F2R (Z.pos m) e)%R.
Proof.
  pose proof (Zdigits2_log2 (Z.pos m) ltac:(lia)) as Hd. cbn [Zdigits2] in Hd.
  pose proof (Z.log2_spec (Z.pos m) ltac:(lia)) as [Hlo _].
  replace (Z.pos (digits2_pos m) + e - 1) with (Z.log2 (Z.pos m) + e) by lia.
  unfold F2R. rewrite pow2_add, (pow2_IZR (Z.log2 (Z.pos m))) by apply Z.log2_nonneg.
  apply IZR_le in Hlo. pose proof (pow2_pos e). nra.
Qed.

Lemma nonneg_value (x : spec_float) : nonneg x → (0 <= SF2R x)%R.
Proof.
  destruct x as [[|]|[|]| |[|] m e]; try done; cbn; intros _; try lra.
  pose proof (F2R_pos m e). lra.
Qed.

Lemma Rdiv_between (a b c : R) :
  (0 < c)%R → (a * c <= b < (a + 1) * c)%R → (a <= b / c < a + 1)%R.
Proof.
  intros Hc [H1 H2]. assert (H : (b / c * c = b)%R) by (field; lra).
  split; nra.
Qed.

Lemma Rdiv_below (b c d : R) : (0 < c)%R → (b < d * c)%R → (b / c < d)%R.
Proof. intros Hc H1. assert (H : (b / c * c = b)%R) by (field; lra). nra. Qed.

(** Division of a non-negative binary64 below [2^B] by a positive one. *)
Lemma SFdiv_near (E B : Z) (x : spec_float) (my : positive) (ey : Z) :
  nonneg x → (SF2R x < powerRZ 2 B)%R →
  B - (Z.pos (digits2_pos my) + ey) + 1 ≤ E + 52 → -1074 ≤ E ≤ 970 →
  nonneg (SFdiv prec emax x (S754_finite false my ey)) ∧
  (SF2R x / F2R (Z.pos my) ey - 3 * powerRZ 2 E
     <= SF2R (SFdiv prec emax x (S754_finite false my ey))
     <= SF2R x / F2R (Z.pos my) ey + powerRZ 2 E)%R.
Proof.
  intros Hx HB HBE HE. pose proof (F2R_pos my ey) as Hy. pose proof (pow2_pos E) as HpE.
  destruct x as [[|]|[|]| |[|] mx ex]; try done.
  - cbn. split; [done|]. unfold Rdiv. rewrite Rmult_0_l. lra.
  - cbn [SFdiv xorb SF2R cond_Zopp] in *. unfold SFdiv_core_binary.
    set (d1 := Zdigits2 (Z.pos mx)). set (d2 := Zdigits2 (Z.pos my)).
    set (e' := Z.min (fexp prec emax (d1 + ex - (d2 + ey))) (ex - ey)).
    set (s := ex - ey - e').
    set (m' := match s with Z.pos _ => Z.shiftl (Z.pos mx) s | 0 => Z.pos mx | Z.neg _ => 0 end).
    destruct (Z.div_eucl m' (Z.pos my)) as [q r] eqn:Hdiv.
    assert (Hq : q = m' / Z.pos my) by (unfold Z.div; by rewrite Hdiv).
    assert (Hs : 0 ≤ s) by (unfold s, e'; lia).
    assert (Hm' : m' = Z.pos mx * 2 ^ s).
    { unfold m'. destruct s as [|p|p] eqn:Hp; [lia| |lia]. by rewrite Z.shiftl_mul_pow2. }
    assert (Hm'pos : 0 < m').
    { rewrite Hm'. apply Z.mul_pos_pos; [lia|]. apply Z.pow_pos_nonneg; lia. }
    assert (Hq0 : 0 ≤ q) by (rewrite Hq; apply Z.div_pos; lia).
    pose proof (F2R_digits mx ex B HB) as Hd1. fold d1 in Hd1. cbn [Zdigits2] in d1, d2.
    assert (He' : e' ≤ E) by (unfold e', fexp, emin, prec, emax, d1, d2 in *; lia).
    (* the quotient, as a real *)
    set (Q := (F2R (Z.pos mx) ex / F2R (Z.pos my) ey)%R).
    assert (HQ : (F2R q e' <= Q < F2R q e' + powerRZ 2 e')%R).
    { pose proof (Z.div_mod m' (Z.pos my) ltac:(lia)) as Hdm.
      pose proof (Z.mod_pos_bound m' (Z.pos my) ltac:(lia)) as [Hr0 Hr1].
      rewrite <- Hq in Hdm.
      assert (HQeq : Q = (IZR m' / IZR (Z.pos my) * powerRZ 2 e')%R).
      { unfold Q, F2R. rewrite Hm', mult_IZR, <- (pow2_IZR s Hs).
        replace ex with (s + e' + ey) at 1 by (unfold s; lia). rewrite !pow2_add.
        pose proof (pow2_pos ey). assert (1 <= IZR (Z.pos my))%R by (apply IZR_le; lia).
        field. split; lra. }
      assert (HM : (1 <= IZR (Z.pos my))%R) by (apply IZR_le; lia).
      assert (H12 : (IZR q <= IZR m' / IZR (Z.pos my) < IZR q + 1)%R).
      { apply Rdiv_between; [lra|]. rewrite <- plus_IZR, <- !mult_IZR.
        split; [apply IZR_le|apply IZR_lt]; lia. }
      destruct H12 as [H1 H2]. rewrite HQeq. unfold F2R. pose proof (pow2_pos e'). split; nra. }
    assert (HQB : (Q < powerRZ 2 (B - (d2 + ey) + 1))%R).
    { pose proof (F2R_above my ey) as Ha. fold d2 in Ha.
      replace B with ((B - (d2 + ey) + 1) + (d2 + ey - 1)) in HB by lia.
      rewrite pow2_add in HB.
      pose proof (pow2_pos (d2 + ey - 1)). pose proof (pow2_pos (B - (d2 + ey) + 1)).
      unfold Q. apply Rdiv_below; [lra|]. nra. }
    assert (Hdq : Zdigits2 q + e' ≤ E + 52).
    { destruct q as [|q|q]; [cbn; lia| |lia]. cbn [Zdigits2].
      pose proof (F2R_digits q e' (B - (d2 + ey) + 1) ltac:(lra)). unfold d2 in *. lia. }
    destruct (binary_round_aux_near E q e' (new_location (Z.pos my) r) Hq0 Hdq He' HE)
      as [Hnn Hv].
    split; [done|]. pose proof (pow2_le e' E He'). fold Q. lra.
Qed.

(** Addition of a non-negative and a positive binary64, both below [2^B]. *)
Lemma SFadd_near (E B : Z) (x : spec_float) (my : positive) (ey : Z) :
  nonneg x → (SF2R x < powerRZ 2 B)%R → (F2R (Z.pos my) ey < powerRZ 2 B)%R →
  B + 1 ≤ E + 52 → -1074 ≤ E ≤ 970 →
  nonneg (SFadd prec emax x (S754_finite false my ey)) ∧
  (SF2R x + F2R (Z.pos my) ey - 2 * powerRZ 2 E
     <= SF2R (SFadd prec emax x (S754_finite false my ey))
     <= SF2R x + F2R (Z.pos my) ey + powerRZ 2 E)%R.
Proof.
  intros Hx HBx HBy HBE HE. pose proof (pow2_pos E) as HpE.
  destruct x as [[|]|[|]| |[|] mx ex]; try done.
  - cbn. split; [done|]. lra.
  - cbn [SFadd SF2R cond_Zopp] in *.
    change (IntDef.Z.min ex ey) with (Z.min ex ey).
    set (ez := Z.min ex ey).
    pose proof (shl_align_value mx ex ez) as Vx. pose proof (shl_align_value my ey ez) as Vy.
    assert (Hx2 : (shl_align mx ex ez).2 = ez).
    { unfold shl_align. destruct (ez - ex) eqn:Hs; cbn [snd]; unfold ez in *; lia. }
    assert (Hy2 : (shl_align my ey ez).2 = ez).
    { unfold shl_align. destruct (ez - ey) eqn:Hs; cbn [snd]; unfold ez in *; lia. }
    rewrite Hx2 in Vx. rewrite Hy2 in Vy.
    set (ax := (shl_align mx ex ez).1) in *. set (ay := (shl_align my ey ez).1) in *.
    assert (Hsum : F2R (Z.pos ax + Z.pos ay) ez = (F2R (Z.pos mx) ex + F2R (Z.pos my) ey)%R).
    { rewrite <- Vx, <- Vy. unfold F2R. rewrite plus_IZR. lra. }
    assert (Hlt : (F2R (Z.pos (ax + ay)) ez < powerRZ 2 (B + 1))%R).
    { change (Z.pos (ax + ay)) with (Z.pos ax + Z.pos ay). rewrite Hsum, pow2_add.
      change (powerRZ 2 1) with (2 * 1)%R. lra. }
    apply F2R_digits in Hlt.
    destruct (binary_normalize_near E (Z.pos ax + Z.pos ay) ez) as [Hnn Hv];
      [lia|change (Z.pos ax + Z.pos ay) with (Z.pos (ax + ay)); cbn [Zdigits2]; lia|lia|].
    split; [done|]. rewrite Hsum in Hv. exact Hv.
Qed.

Lemma pow2_neg (n : Z) : 0 ≤ n → (powerRZ 2 (- n) * IZR (2 ^ n) = 1)%R.
Proof.
  intros Hn. rewrite <- (pow2_IZR n Hn), <- pow2_add.
  by replace (- n + n) with 0 by lia.
Qed.

Lemma F2R_int (m : Z) : F2R m 0 = IZR m.
Proof. unfold F2R. cbn. lra. Qed.

Lemma UnixNano_small (t : Z) : 0 ≤ t < 2 ^ 63 → gotime.UnixNano t = t.
Proof.
  intros Ht. unfold gotime.UnixNano, int64.wrap. rewrite Z.mod_small; lia.
Qed.

(** The time a worker stores, for a file dated between 1970 and 2262: the
    seconds since the epoch plus one, within a tenth of a millisecond. *)
Lemma margin_mtime_near (info : FileInfo) :
  0 ≤ ModTime info < 2 ^ 63 →
  nonneg (Prim2SF (margin_mtime info)) ∧
  (IZR (ModTime info) / 1000000000 + 1 - 1 / 10000
     <= SF2R (Prim2SF (margin_mtime info))
     <= IZR (ModTime info) / 1000000000 + 1 + 1 / 10000)%R.
Proof.
  intros Ht. unfold margin_mtime. rewrite (UnixNano_small _ Ht).
  set (ns := ModTime info) in *.
  assert (H9 : Prim2SF 1e9 = S754_finite false 8388608000000000 (-23)) by (vm_compute; reflexivity).
  assert (H1 : Prim2SF 1 = S754_finite false 4503599627370496 (-52)) by (vm_compute; reflexivity).
  rewrite FloatAxioms.add_spec, FloatAxioms.div_spec, H9, H1. unfold SF64add, SF64div.
  destruct (of_int64_near ns Ht) as [N0 V0].
  set (x0 := Prim2SF (float64.of_int64 ns)) in *.
  assert (Hns : (0 <= IZR ns < 9223372036854775808)%R).
  { split; [apply IZR_le|apply IZR_lt]; lia. }
  assert (V9 : F2R 8388608000000000 (-23) = 1000000000%R).
  { change 8388608000000000 with (1000000000 * 2 ^ 23). change (-23) with (0 - 23).
    rewrite F2R_shift by lia. apply F2R_int. }
  assert (V1 : F2R 4503599627370496 (-52) = 1%R).
  { change 4503599627370496 with (1 * 2 ^ 52). change (-52) with (0 - 52).
    rewrite F2R_shift by lia. apply F2R_int. }
  pose proof (pow2_IZR 64 ltac:(lia)) as P64. change (2 ^ 64) with 18446744073709551616 in P64.
  pose proof (pow2_IZR 35 ltac:(lia)) as P35. change (2 ^ 35) with 34359738368 in P35.
  pose proof (pow2_neg 17 ltac:(lia)) as P17. change (2 ^ 17) with 131072 in P17.
  pose proof (pow2_neg 16 ltac:(lia)) as P16. change (2 ^ 16) with 65536 in P16.
  change (- (17)) with (-17) in P17. change (- (16)) with (-16) in P16.
  pose proof (pow2_pos (-17)). pose proof (pow2_pos (-16)).
  destruct (SFdiv_near (-17) 64 x0 8388608000000000 (-23) N0) as [N1 D1];
    [rewrite P64; lra|cbn; lia|lia|].
  rewrite V9 in D1.
  set (x1 := SFdiv prec emax x0 (S754_finite false 8388608000000000 (-23))) in *.
  destruct (SFadd_near (-16) 35 x1 4503599627370496 (-52) N1) as [N2 D2];
    [rewrite P35; lra|rewrite V1, P35; lra|lia|lia|].
  rewrite V1 in D2. split; [done|]. lra.
Qed.

(** [int64(f)] is the floor of a non-negative [f] below [2^63]. *)
Lemma to_int64_floor (f : float) :
  nonneg (Prim2SF f) → (SF2R (Prim2SF f) < 9223372036854775808)%R →
  (IZR (float64.to_int64 f) <= SF2R (Prim2SF f) < IZR (float64.to_int64 f) + 1)%R.
Proof.
  unfold float64.to_int64. destruct (Prim2SF f) as [[|]|[|]| |[|] m e]; try done; intros _ Hlt.
  { cbn. lra. }
  cbn [SF2R cond_Zopp] in *.
  set (a := if 0 <=? e then Z.pos m * 2 ^ e else Z.pos m / 2 ^ (- e)).
  assert (Ha : (IZR a <= F2R (Z.pos m) e < IZR a + 1)%R ∧ 0 ≤ a).
  { unfold a. destruct (Z.leb_spec 0 e) as [He|He].
    - split.
      + rewrite mult_IZR, <- (pow2_IZR e He). unfold F2R. lra.
      + apply Z.mul_nonneg_nonneg; [lia|]. apply Z.pow_nonneg. lia.
    - pose proof (F2R_floor (Z.pos m) e (- e) ltac:(lia)) as H.
      replace (e + - e) with 0 in H by lia. rewrite F2R_int in H. cbn [powerRZ] in H.
      split; [lra|]. apply Z.div_pos; [lia|]. apply Z.pow_pos_nonneg; lia. }
  destruct Ha as [[Ha1 Ha2] Ha0].
  assert (Hmax : a < 2 ^ 63).
  { apply lt_IZR. change (2 ^ 63) with 9223372036854775808. lra. }
  assert (Hr : int64.in_range a = true).
  { unfold int64.in_range, int64.min, int64.max. apply andb_true_intro.
    split; apply Z.leb_le; lia. }
  rewrite Hr. lra.
Qed.

(** Truncating a time stored with its margin gives the file's second, or one
    of the next two. *)
Lemma stored_seconds (f : float) (t : Z) :
  0 ≤ t < 2 ^ 63 → nonneg (Prim2SF f) →
  (IZR t / 1000000000 + 1 - 1 / 10 <= SF2R (Prim2SF f)
     <= IZR t / 1000000000 + 1 + 1 / 10)%R →
  t / 1000000000 ≤ float64.to_int64 f ≤ t / 1000000000 + 2.
Proof.
  intros Ht Hn Hv.
  pose proof (Z.div_mod t 1000000000 ltac:(lia)) as Hdm.
  pose proof (Z.mod_pos_bound t 1000000000 ltac:(lia)) as [Hr0 Hr1].
  set (sec := t / 1000000000) in *. set (nsec := t mod 1000000000) in *.
  assert (Ht' : IZR t = (1000000000 * IZR sec + IZR nsec)%R).
  { rewrite Hdm at 1. by rewrite plus_IZR, mult_IZR. }
  apply IZR_le in Hr0. apply IZR_lt in Hr1.
  assert (Hsec : (IZR sec <= IZR t / 1000000000 < IZR sec + 1)%R).
  { rewrite Ht'. split.
    - apply (Rmult_le_reg_r 1000000000); [lra|]. field_simplify. lra.
    - apply (Rmult_lt_reg_r 1000000000); [lra|]. field_simplify. lra. }
  assert (Hsmall : (IZR sec < 9223372037)%R).
  { assert (sec < 9223372037); [|by apply IZR_lt].
    unfold sec. apply Z.div_lt_upper_bound; lia. }
  destruct (to_int64_floor f Hn) as [F1 F2]; [lra|].
  split.
  - apply Z.lt_succ_r. apply lt_IZR. rewrite succ_IZR. lra.
  - apply Z.lt_succ_r. apply lt_IZR. rewrite succ_IZR, plus_IZR. lra.
Qed.

Section Fresh.
Context (lib : GoLib) (fs : FileSystem) (root : string).

(** The staleness test on an entry whose stored time truncates to the
    second of the time [t], or to one of the next two. *)
Lemma changed_by_seconds (fi : FileInfo) (e : entry) (t : Z) :
  0 ≤ t < 2 ^ 63 →
  t / 1000000000 ≤ float64.to_int64 (entry_MTime e) ≤ t / 1000000000 + 2 →
  (ModTime fi ≤ t + gotime.Second → changed fi e = false) ∧
  (t + 4 * gotime.Second < ModTime fi → changed fi e = true).
Proof.
  intros Ht HU.
  pose proof (Z.div_mod t 1000000000 ltac:(lia)) as Hdm.
  pose proof (Z.mod_pos_bound t 1000000000 ltac:(lia)) as [Hr0 Hr1].
  assert (Hsec : 0 ≤ t / 1000000000 < 9223372037).
  { split; [apply Z.div_pos; lia|apply Z.div_lt_upper_bound; lia]. }
  unfold changed. rewrite Unix_seconds by (unfold gotime.unixToInternal; lia).
  unfold gotime.Sub, gotime.Second, int64.clamp, int64.min, int64.max in *.
  set (U := float64.to_int64 (entry_MTime e)) in *.
  split; intros Hfi.
  - apply Z.ltb_ge. lia.
  - apply Z.ltb_lt. lia.
Qed.
End Fresh.

Lemma round_half_even_near (num den : Z) :
  0 ≤ num → 0 < den →
  0 ≤ gofmt.round_half_even num den ∧
  (IZR num / IZR den - 1 / 2 <= IZR (gofmt.round_half_even num den)
     <= IZR num / IZR den + 1 / 2)%R.
Proof.
  intros Hn Hd. unfold gofmt.round_half_even.
  pose proof (Z.div_mod num den ltac:(lia)) as Hdm.
  pose proof (Z.mod_pos_bound num den Hd) as [Hr0 Hr1].
  assert (Hq0 : 0 ≤ num / den) by (apply Z.div_pos; lia).
  set (q := num / den) in *. set (r := num mod den) in *.
  assert (HD : (0 < IZR den)%R) by (by apply IZR_lt).
  assert (Hv : (IZR num / IZR den = IZR q + IZR r / IZR den)%R).
  { rewrite Hdm at 1. rewrite plus_IZR, mult_IZR. field. lra. }
  assert (Hr : (0 <= IZR r / IZR den < 1)%R).
  { pose proof (IZR_le _ _ Hr0) as Hr0'. pose proof (IZR_lt _ _ Hr1) as Hr1'.
    destruct (Rdiv_between 0 (IZR r) (IZR den) HD); lra. }
  assert (Hhalf : ∀ c : Z, (c = 2 * r - den)%Z →
            (IZR r / IZR den - 1 / 2 = IZR c / (2 * IZR den))%R).
  { intros c ->. rewrite minus_IZR, mult_IZR. field. lra. }
  pose proof (Hhalf _ eq_refl) as Hh.
  assert (Hsign : ∀ c : Z, (0 < 2 * IZR den)%R →
            (c < 0 → (IZR c / (2 * IZR den) < 0)%R) ∧
            (0 < c → (0 < IZR c / (2 * IZR den))%R) ∧
            (c = 0 → (IZR c / (2 * IZR den))%R = 0%R)).
  { intros c Hp. split; [|split].
    - intros Hc%IZR_lt. apply Rdiv_below; [done|]. lra.
    - intros Hc%IZR_lt. apply Rdiv_lt_0_compat; lra.
    - intros ->. unfold Rdiv. lra. }
  destruct (Hsign (2 * r - den) ltac:(lra)) as (S1 & S2 & S3).
  destruct (Z.ltb_spec (2 * r) den) as [H1|H1].
  { split; [done|]. specialize (S1 ltac:(lia)). lra. }
  destruct (Z.ltb_spec den (2 * r)) as [H2|H2].
  { split; [lia|]. specialize (S2 ltac:(lia)). rewrite plus_IZR. lra. }
  specialize (S3 ltac:(lia)).
  destruct (Z.even q); (split; [lia|]); rewrite ?plus_IZR; lra.
Qed.

(** The digits [Sprintf_7f] writes spell the value times [10^7], rounded. *)
Lemma scaled7_near (m : positive) (e : Z) :
  0 ≤ gofmt.scaled7 m e ∧
  (F2R (Z.pos m) e * 10000000 - 1 / 2 <= IZR (gofmt.scaled7 m e)
     <= F2R (Z.pos m) e * 10000000 + 1 / 2)%R.
Proof.
  unfold gofmt.scaled7. destruct (Z.leb_spec 0 e) as [He|He].
  - split.
    + apply Z.mul_nonneg_nonneg; [|lia]. apply Z.mul_nonneg_nonneg; [lia|].
      apply Z.pow_nonneg. lia.
    + rewrite !mult_IZR, <- (pow2_IZR e He). unfold F2R.
      change (10 ^ 7) with 10000000. lra.
  - destruct (round_half_even_near (Z.pos m * 10 ^ 7) (2 ^ (- e))) as [H0 Hv].
    + lia.
    + apply Z.pow_pos_nonneg; lia.
    + split; [done|].
      assert (Heq : (IZR (Z.pos m * 10 ^ 7) / IZR (2 ^ (- e)) = F2R (Z.pos m) e * 10000000)%R).
      { rewrite mult_IZR. change (10 ^ 7) with 10000000. unfold F2R.
        pose proof (pow2_neg (- e) ltac:(lia)) as Hp. rewrite Z.opp_involutive in Hp.
        pose proof (pow2_pos e).
        assert (Hne : (IZR (2 ^ (- e)) <> 0)%R).
        { intros H0'. rewrite H0' in Hp. lra. }
        apply (Rmult_eq_reg_r (IZR (2 ^ (- e)))); [|done].
        replace (IZR (Z.pos m) * 10000000 / IZR (2 ^ (- e)) * IZR (2 ^ (- e)))%R
          with (IZR (Z.pos m) * 10000000)%R by (field; done).
        replace (IZR (Z.pos m) * powerRZ 2 e * 10000000 * IZR (2 ^ (- e)))%R
          with (IZR (Z.pos m) * 10000000 * (powerRZ 2 e * IZR (2 ^ (- e))))%R by ring.
        rewrite Hp. ring. }
      by rewrite <- Heq.
Qed.

Lemma SFldexp_near (E : Z) (x : spec_float) (ex B : Z) :
  nonneg x → (SF2R x < powerRZ 2 B)%R → B + ex ≤ E + 52 → -1074 ≤ E ≤ 970 →
  nonneg (SFldexp prec emax x ex) ∧
  (SF2R x * powerRZ 2 ex - 2 * powerRZ 2 E <= SF2R (SFldexp prec emax x ex)
     <= SF2R x * powerRZ 2 ex + powerRZ 2 E)%R.
Proof.
  intros Hx HB HBE HE. pose proof (pow2_pos E).
  destruct x as [[|]|[|]| |[|] m e]; try done.
  - cbn. split; [done|]. lra.
  - cbn [SFldexp SF2R cond_Zopp] in *. apply F2R_digits in HB.
    destruct (binary_round_near E m (e + ex)) as [Hn Hv]; [lia|lia|].
    split; [done|].
    replace (F2R (Z.pos m) e * powerRZ 2 ex)%R with (F2R (Z.pos m) (e + ex)); [done|].
    unfold F2R. rewrite pow2_add. ring.
Qed.

(** [strconv.ParseFloat] on [n / 10^7], for [0 < n < 2^62]: the value read
    is within a hundredth of the text's. *)
Lemma nearest_float_near (n : Z) :
  0 < n < 2 ^ 62 →
  nonneg (Prim2SF (strconv.nearest_float false n (10 ^ 7))) ∧
  (IZR n / 10000000 - 1 / 100
     <= SF2R (Prim2SF (strconv.nearest_float false n (10 ^ 7)))
     <= IZR n / 10000000 + 1 / 100)%R.
Proof.
  intros Hn. unfold strconv.nearest_float.
  assert (Hn0 : (n =? 0) = false) by (apply Z.eqb_neq; lia). rewrite Hn0.
  set (k := strconv.log2_quot n (10 ^ 7)).
  assert (Hk : Z.log2 n - 24 ≤ k ≤ Z.log2 n - 23).
  { unfold k, strconv.log2_quot. change (Z.log2 (10 ^ 7)) with 23.
    destruct (0 <=? Z.log2 n - 23);
      [destruct (10 ^ 7 * 2 ^ (Z.log2 n - 23) <=? n)
      |destruct (10 ^ 7 <=? n * 2 ^ (- (Z.log2 n - 23)))]; lia. }
  pose proof (Z.log2_spec n ltac:(lia)) as [Hlo Hhi].
  assert (Hl0 : 0 ≤ Z.log2 n) by apply Z.log2_nonneg.
  assert (Hl61 : Z.log2 n < 62) by (apply Z.log2_lt_pow2; lia).
  set (ex := k - 52).
  assert (Hex : -76 ≤ ex ≤ -14) by (unfold ex; lia).
  assert (Hneg : (0 <=? ex) = false) by (apply Z.leb_gt; lia). rewrite Hneg.
  set (num := n * 2 ^ (- ex)).
  assert (Hpe : 0 < 2 ^ (- ex)) by (apply Z.pow_pos_nonneg; lia).
  destruct (round_half_even_near num (10 ^ 7)) as [Hm0 Hm]; [unfold num; lia|lia|].
  set (m := gofmt.round_half_even num (10 ^ 7)) in *.
  change (IZR (10 ^ 7)) with 10000000%R in Hm.
  (* the target value, in units of 2^ex *)
  pose proof (pow2_neg (- ex) ltac:(lia)) as Pex. rewrite Z.opp_involutive in Pex.
  pose proof (pow2_pos ex) as Ppos.
  assert (HI : (0 < IZR (2 ^ (- ex)))%R) by (by apply IZR_lt).
  assert (Hnum : (IZR num / 10000000 * powerRZ 2 ex = IZR n / 10000000)%R).
  { unfold num. rewrite mult_IZR.
    replace (IZR n * IZR (2 ^ (- ex)) / 10000000 * powerRZ 2 ex)%R
      with (IZR n / 10000000 * (powerRZ 2 ex * IZR (2 ^ (- ex))))%R by (field; lra).
    rewrite Pex. ring. }
  (* m is below 2^55 *)
  assert (Hnum55 : num < 10 ^ 7 * 2 ^ 54).
  { unfold num. replace (Z.succ (Z.log2 n)) with (Z.log2 n + 1) in Hhi by lia.
    assert (H1 : n * 2 ^ (- ex) < 2 ^ (Z.log2 n + 1) * 2 ^ (- ex)) by nia.
    rewrite <- Z.pow_add_r in H1 by lia.
    assert (H2 : 2 ^ (Z.log2 n + 1 + - ex) ≤ 2 ^ 77).
    { apply Z.pow_le_mono_r; [lia|]. unfold ex. lia. }
    change (10 ^ 7 * 2 ^ 54) with 180143985094819840000000.
    change (2 ^ 77) with 151115727451828646838272 in H2. lia. }
  assert (Hm55 : (IZR m < 18014398509481985)%R).
  { apply IZR_lt in Hnum55. rewrite mult_IZR in Hnum55.
    change (IZR (10 ^ 7)) with 10000000%R in Hnum55.
    change (IZR (2 ^ 54)) with 18014398509481984%R in Hnum55.
    assert (IZR num / 10000000 < 18014398509481984)%R by (apply Rdiv_below; lra). lra. }
  assert (Hmz : m < 2 ^ 55).
  { apply lt_IZR. change (2 ^ 55) with 36028797018963968. lra. }
  assert (Hto : Uint63.to_Z (Uint63.of_Z m) = m).
  { rewrite Uint63.of_Z_spec. apply Z.mod_small.
    replace Uint63.wB with (2 ^ 63) by reflexivity. lia. }
  rewrite Z_ldexp_spec, FloatAxioms.of_uint63_spec, Hto.
  destruct (binary_normalize_near 3 m 0) as [N0 V0];
    [lia|pose proof (Zdigits2_below m 55); lia|lia|].
  rewrite F2R_int in V0. rewrite (pow2_IZR 3) in V0 by lia. change (2 ^ 3) with 8 in V0.
  set (y0 := binary_normalize prec emax m 0 false) in *.
  pose proof (pow2_IZR 56 ltac:(lia)) as P56. change (2 ^ 56) with 72057594037927936 in P56.
  destruct (SFldexp_near (ex + 4) y0 ex 56 N0) as [N1 V1]; [rewrite P56; lra|lia|lia|].
  split; [done|].
  rewrite pow2_add in V1. rewrite (pow2_IZR 4) in V1 by lia. change (2 ^ 4) with 16 in V1.
  assert (P14 : (powerRZ 2 ex <= powerRZ 2 (-14))%R) by (apply pow2_le; lia).
  pose proof (pow2_neg 14 ltac:(lia)) as Q14. change (- (14)) with (-14) in Q14.
  change (2 ^ 14) with 16384 in Q14.
  rewrite <- Hnum. nra.
Qed.

(** ** Reading back the digits [Sprintf_7f] writes *)

Lemma digits_value_digit (d : Z) (s : string) (acc : Z) :
  strconv.digits_value (String (gofmt.digit_char d) s) acc
    = strconv.digits_value s (10 * acc + d mod 10).
Proof.
  cbn [strconv.digits_value]. rewrite is_digit_digit_char. f_equal.
  unfold gofmt.digit_char.
  assert (H : (Z.to_nat (d mod 10) < 10)%nat) by (pose proof (Z.mod_pos_bound d 10); lia).
  rewrite nat_ascii_embedding by lia. pose proof (Z.mod_pos_bound d 10). lia.
Qed.

Lemma digits_value_app (s1 s2 : string) (acc : Z) :
  strconv.digits_value (s1 +:+ s2) acc
    = strconv.digits_value s2 (strconv.digits_value s1 acc).
Proof.
  revert acc. induction s1 as [|c s1 IH]; intros acc; [done|].
  change (String c s1 +:+ s2) with (String c (s1 +:+ s2)).
  cbn [strconv.digits_value]. destruct (gofmt.is_digit c); apply IH.
Qed.

Lemma digits_value_fixed (k : nat) (n : Z) (s : string) (acc : Z) :
  strconv.digits_value (gofmt.fixed_digits k n s) acc
    = strconv.digits_value s (acc * 10 ^ Z.of_nat k + n mod 10 ^ Z.of_nat k).
Proof.
  revert n s. induction k as [|k IH]; intros n s.
  - cbn [gofmt.fixed_digits]. change (10 ^ Z.of_nat 0) with 1. rewrite Z.mod_1_r. f_equal. lia.
  - cbn [gofmt.fixed_digits]. rewrite IH, digits_value_digit. f_equal.
    rewrite Nat2Z.inj_succ, Z.pow_succ_r by lia.
    assert (Hp : 0 < 10 ^ Z.of_nat k) by (apply Z.pow_pos_nonneg; lia).
    rewrite (Z.rem_mul_r n 10 (10 ^ Z.of_nat k)) by lia. lia.
Qed.

Lemma digits_value_fuel (fuel : nat) (n : Z) :
  0 ≤ n < 10 ^ (Z.of_nat fuel + 1) →
  ∃ j, 0 ≤ j ∧ ∀ s acc,
    strconv.digits_value (gofmt.digits_fuel fuel n s) acc
      = strconv.digits_value s (acc * 10 ^ j + n).
Proof.
  revert n. induction fuel as [|fuel IH]; intros n Hn.
  - exists 1. split; [lia|]. intros s acc. cbn [gofmt.digits_fuel].
    rewrite digits_value_digit. f_equal. change (10 ^ (Z.of_nat 0 + 1)) with 10 in Hn.
    rewrite Z.mod_small by lia. lia.
  - cbn [gofmt.digits_fuel]. destruct (Z.ltb_spec n 10) as [H10|H10].
    + exists 1. split; [lia|]. intros s acc. rewrite digits_value_digit. f_equal.
      rewrite Z.mod_small by lia. lia.
    + destruct (IH (n / 10)) as (j & Hj & Hval).
      { split; [apply Z.div_pos; lia|]. apply Z.div_lt_upper_bound; [lia|].
        rewrite <- Z.pow_succ_r by lia. replace (Z.succ (Z.of_nat fuel + 1))
          with (Z.of_nat (S fuel) + 1) by lia. lia. }
      exists (j + 1). split; [lia|]. intros s acc.
      rewrite Hval, digits_value_digit. f_equal.
      rewrite Z.pow_add_r by lia. pose proof (Z.div_mod n 10 ltac:(lia)). lia.
Qed.

Lemma digits_value_itoa (n : Z) (s : string) :
  0 ≤ n → strconv.digits_value (gofmt.itoa n +:+ s) 0 = strconv.digits_value s n.
Proof.
  intros Hn. rewrite digits_value_app. f_equal. unfold gofmt.itoa.
  destruct (digits_value_fuel (Z.to_nat (Z.log2 n)) n) as (j & Hj & Hval).
  - split; [done|]. pose proof (Z.log2_nonneg n). rewrite Z2Nat.id by done.
    destruct (decide (n = 0)) as [->|Hne]; [done|].
    pose proof (Z.log2_spec n ltac:(lia)) as [_ Hhi].
    replace (Z.succ (Z.log2 n)) with (Z.log2 n + 1) in Hhi by lia.
    eapply Z.lt_le_trans; [exact Hhi|]. apply Z.pow_le_mono_l. lia.
  - rewrite (Hval "" 0). cbn [strconv.digits_value]. lia.
Qed.

Lemma digits_fuel_head (fuel : nat) (n : Z) (s : string) :
  ∃ d rest, gofmt.digits_fuel fuel n s = String (gofmt.digit_char d) rest.
Proof.
  revert n s. induction fuel as [|fuel IH]; intros n s; cbn [gofmt.digits_fuel].
  - by exists n, s.
  - destruct (n <? 10); [by exists n, s|]. apply IH.
Qed.

Lemma ParseFloat_unsigned (c : ascii) (s : string) :
  gofmt.is_digit c = true →
  strconv.ParseFloat_fixed7 (String c s)
    = strconv.nearest_float false (strconv.digits_value (String c s) 0) (10 ^ 7).
Proof.
  intros Hc. unfold strconv.ParseFloat_fixed7.
  destruct c as [[] [] [] [] [] [] [] []]; try reflexivity. done.
Qed.

(** The text of a non-negative time reads back as the nearest binary64 to
    the number its digits spell. *)
Lemma ParseFloat_fixed7_digits (v : Z) :
  0 ≤ v →
  strconv.ParseFloat_fixed7 (gofmt.fixed7 false v) = strconv.nearest_float false v (10 ^ 7).
Proof.
  intros Hv. unfold gofmt.fixed7, gofmt.sign_text.
  change ("" +:+ ?s) with s.
  assert (Hval : strconv.digits_value
            (gofmt.itoa (v / 10 ^ 7) +:+ "." +:+ gofmt.fixed_digits 7 (v mod 10 ^ 7) "") 0 = v).
  { rewrite digits_value_itoa by (apply Z.div_pos; lia).
    change ("." +:+ ?s) with (String "."%char s).
    cbn [strconv.digits_value]. change (gofmt.is_digit ".") with false. cbv iota.
    rewrite digits_value_fixed. cbn [strconv.digits_value].
    change (Z.of_nat 7) with 7. rewrite Z.mod_mod by lia.
    pose proof (Z.div_mod v (10 ^ 7) ltac:(lia)). lia. }
  destruct (digits_fuel_head (Z.to_nat (Z.log2 (v / 10 ^ 7))) (v / 10 ^ 7) "") as (d & rest & Hd).
  unfold gofmt.itoa in *. rewrite Hd in *.
  change (String ?c ?r +:+ ?t) with (String c (r +:+ t)) in *.
  rewrite ParseFloat_unsigned by apply is_digit_digit_char. by rewrite Hval.
Qed.

(** The time of a fresh entry, read back from the document. *)
Lemma reload_margin_near (info : FileInfo) :
  0 ≤ ModTime info < 2 ^ 63 →
  nonneg (Prim2SF (strconv.ParseFloat_fixed7 (MarshalJSON (margin_mtime info)))) ∧
  (IZR (ModTime info) / 1000000000 + 1 - 1 / 10
     <= SF2R (Prim2SF (strconv.ParseFloat_fixed7 (MarshalJSON (margin_mtime info))))
     <= IZR (ModTime info) / 1000000000 + 1 + 1 / 10)%R.
Proof.
  intros Ht. destruct (margin_mtime_near info Ht) as [N2 V2].
  assert (Hns : (0 <= IZR (ModTime info) < 9223372036854775808)%R).
  { split; [apply IZR_le|apply IZR_lt]; lia. }
  assert (Hq : (0 <= IZR (ModTime info) / 1000000000 < 9223372037)%R).
  { split; [|apply Rdiv_below; lra].
    assert (H : (IZR (ModTime info) / 1000000000 * 1000000000 = IZR (ModTime info))%R)
      by (field; lra).
    lra. }
  unfold MarshalJSON, gofmt.Sprintf_7f.
  destruct (Prim2SF (margin_mtime info)) as [[|]|[|]| |[|] m e]; try done.
  { cbn in V2. lra. }
  cbn [SF2R cond_Zopp] in V2.
  destruct (scaled7_near m e) as [H0 HN].
  rewrite ParseFloat_fixed7_digits by done.
  destruct (nearest_float_near (gofmt.scaled7 m e)) as [N3 V3].
  - split.
    + apply lt_IZR. lra.
    + apply lt_IZR. change (2 ^ 62) with 4611686018427387904. lra.
  - split; [done|]. lra.
Qed.

(** X10.  The margin does its work.  For a file dated between 1970 and 2262
    that [worker] hashed, the staleness test of the next run, on the entry
    read back from the document, does not ask for a rehash while the file's
    modification time is no more than one second later than the one that
    was hashed, and asks for one when it is more than four seconds later
    (in between, the fraction of the second decides).  The same holds for
    the entry as it is in memory. *)
Theorem hashed_entry_is_fresh (fs : FileSystem) (t : task) (e : entry)
    (info fi : FileInfo) :
  worker fs t = inr e →
  Info (task_d t) = inr info →
  0 ≤ ModTime info < 2 ^ 63 →
  (ModTime fi ≤ ModTime info + gotime.Second →
   changed fi (reload_entry e) = false ∧ changed fi e = false) ∧
  (ModTime info + 4 * gotime.Second < ModTime fi →
   changed fi (reload_entry e) = true ∧ changed fi e = true).
Proof.
  intros (info' & f & h & Hi & _ & _ & ->)%worker_inr Hinfo Ht.
  rewrite Hinfo in Hi. injection Hi as <-.
  destruct (reload_margin_near info Ht) as [N3 V3].
  destruct (margin_mtime_near info Ht) as [N2 V2].
  pose proof (stored_seconds _ (ModTime info) Ht N3 V3) as U3.
  pose proof (stored_seconds (margin_mtime info) (ModTime info) Ht N2 ltac:(lra)) as U2.
  split; intros Hfi; split.
  - by apply (changed_by_seconds fi (reload_entry _) (ModTime info) Ht).
  - by apply (changed_by_seconds fi _ (ModTime info) Ht).
  - by apply (changed_by_seconds fi (reload_entry _) (ModTime info) Ht).
  - by apply (changed_by_seconds fi _ (ModTime info) Ht).
Qed.

Lemma hashed_entry_is_fresh_witness :
  changed (regular 100 500000000)
    (reload_entry {| entry_MTime := margin_mtime (regular 100 500000000);
                     entry_SHA256 := gofmt.Sprintf_x (sha256.Sum256 (text "abc"));
                     entry_path := "models/a.ckpt" |}) = false.
Proof.
  pose proof (hashed_entry_is_fresh models
                {| task_path := "models/a.ckpt";
                   task_d := FileInfoToDirEntry (regular 100 500000000) |}
                {| entry_MTime := margin_mtime (regular 100 500000000);
                   entry_SHA256 := gofmt.Sprintf_x (sha256.Sum256 (text "abc"));
                   entry_path := "models/a.ckpt" |}
                (regular 100 500000000) (regular 100 500000000)) as H.
  apply H.
  - vm_compute; reflexivity.
  - reflexivity.
  - vm_compute. split; [discriminate|reflexivity].
  - vm_compute. discriminate.
Defined.



(** ** binary64: a rendered time reads back to a time rendered the same *)

Lemma round_half_even_rounds (num den : Z) :
  0 ≤ num → 0 < den → rounds_to (IZR num / IZR den) (gofmt.round_half_even num den).
Proof.
  intros Hn Hd. unfold gofmt.round_half_even.
  pose proof (Z.div_mod num den ltac:(lia)) as Hdm.
  pose proof (Z.mod_pos_bound num den Hd) as [Hr0 Hr1].
  set (q := num / den) in *. set (r := num mod den) in *.
  assert (HD : (0 < IZR den)%R) by (by apply IZR_lt).
  assert (Hv : (IZR num / IZR den = IZR q + IZR r / IZR den)%R).
  { rewrite Hdm at 1. rewrite plus_IZR, mult_IZR. field. lra. }
  assert (Hh : (IZR r / IZR den - 1 / 2 = IZR (2 * r - den) / (2 * IZR den))%R).
  { rewrite minus_IZR, mult_IZR. field. lra. }
  assert (Hsign : (2 * r - den < 0 → (IZR (2 * r - den) / (2 * IZR den) < 0)%R) ∧
                  (0 < 2 * r - den → (0 < IZR (2 * r - den) / (2 * IZR den))%R) ∧
                  (2 * r - den = 0 → (IZR (2 * r - den) / (2 * IZR den))%R = 0%R)).
  { split; [|split].
    - intros Hc%IZR_lt. apply Rdiv_below; lra.
    - intros Hc%IZR_lt. apply Rdiv_lt_0_compat; lra.
    - intros ->. unfold Rdiv. lra. }
  destruct Hsign as (S1 & S2 & S3).
  assert (Hr : (0 <= IZR r / IZR den < 1)%R).
  { pose proof (IZR_le _ _ Hr0) as Hr0'. pose proof (IZR_lt _ _ Hr1) as Hr1'.
    destruct (Rdiv_between 0 (IZR r) (IZR den) HD); lra. }
  unfold rounds_to. rewrite Hv.
  destruct (Z.ltb_spec (2 * r) den) as [H1|H1].
  { specialize (S1 ltac:(lia)). split; [lra|]. intros [?|?]; lra. }
  destruct (Z.ltb_spec den (2 * r)) as [H2|H2].
  { specialize (S2 ltac:(lia)). rewrite plus_IZR. split; [lra|]. intros [?|?]; lra. }
  specialize (S3 ltac:(lia)).
  destruct (Z.even q) eqn:He.
  - split; [lra|]. done.
  - rewrite plus_IZR. split; [lra|]. intros _.
    replace (q + 1) with (Z.succ q) by lia. rewrite Z.even_succ, <- Z.negb_even, He. done.
Qed.

Lemma rounds_to_unique (x : R) (n n' : Z) : rounds_to x n → rounds_to x n' → n = n'.
Proof.
  intros [[L1 U1] T1] [[L2 U2] T2].
  assert (H1 : n ≤ n' + 1).
  { apply Z.lt_succ_r, lt_IZR. rewrite succ_IZR, plus_IZR. lra. }
  assert (H2 : n' ≤ n + 1).
  { apply Z.lt_succ_r, lt_IZR. rewrite succ_IZR, plus_IZR. lra. }
  destruct (Z.eq_dec n n') as [|Hne]; [done|]. exfalso.
  assert (Hc : n' = n + 1 ∨ n = n' + 1) by lia.
  destruct Hc as [->| ->].
  - rewrite plus_IZR in *. assert (Hx : x = (IZR n + 1 / 2)%R) by lra.
    specialize (T1 (or_intror Hx)). specialize (T2 ltac:(left; lra)).
    replace (n + 1) with (Z.succ n) in T2 by lia.
    rewrite Z.even_succ, <- Z.negb_even, T1 in T2. done.
  - rewrite plus_IZR in *. assert (Hx : x = (IZR n' + 1 / 2)%R) by lra.
    specialize (T2 (or_intror Hx)). specialize (T1 ltac:(left; lra)).
    replace (n' + 1) with (Z.succ n') in T1 by lia.
    rewrite Z.even_succ, <- Z.negb_even, T2 in T1. done.
Qed.

(** A value at least as close to [n] as one that rounds to [n] rounds to
    [n]. *)
Lemma rounds_to_closer (x y : R) (n : Z) :
  rounds_to x n → (Rabs (y - IZR n) <= Rabs (x - IZR n))%R → rounds_to y n.
Proof.
  intros [[L U] T] Hc. unfold Rabs in Hc.
  destruct (Rcase_abs (y - IZR n)), (Rcase_abs (x - IZR n)); (split; [lra|]);
    intros [Hy|Hy]; apply T; lra.
Qed.

Lemma scaled7_rounds (m : positive) (e : Z) :
  rounds_to (F2R (Z.pos m) e * 10000000) (gofmt.scaled7 m e).
Proof.
  unfold gofmt.scaled7. destruct (Z.leb_spec 0 e) as [He|He].
  - assert (Hx : (F2R (Z.pos m) e * 10000000)%R = IZR (Z.pos m * 2 ^ e * 10 ^ 7)).
    { rewrite !mult_IZR, <- (pow2_IZR e He). unfold F2R. change (10 ^ 7) with 10000000. lra. }
    rewrite Hx. split; [lra|]. intros [?|?]; lra.
  - assert (Heq : (IZR (Z.pos m * 10 ^ 7) / IZR (2 ^ (- e)) = F2R (Z.pos m) e * 10000000)%R).
    { rewrite mult_IZR. change (10 ^ 7) with 10000000. unfold F2R.
      pose proof (pow2_neg (- e) ltac:(lia)) as Hp. rewrite Z.opp_involutive in Hp.
      assert (Hne : (IZR (2 ^ (- e)) <> 0)%R).
      { intros H0'. rewrite H0' in Hp. lra. }
      apply (Rmult_eq_reg_r (IZR (2 ^ (- e)))); [|done].
      replace (IZR (Z.pos m) * 10000000 / IZR (2 ^ (- e)) * IZR (2 ^ (- e)))%R
        with (IZR (Z.pos m) * 10000000)%R by (field; done).
      replace (IZR (Z.pos m) * powerRZ 2 e * 10000000 * IZR (2 ^ (- e)))%R
        with (IZR (Z.pos m) * 10000000 * (powerRZ 2 e * IZR (2 ^ (- e))))%R by ring.
      rewrite Hp. ring. }
    rewrite <- Heq. apply round_half_even_rounds; [lia|]. apply Z.pow_pos_nonneg; lia.
Qed.

(** X12.  [MarshalJSON] rounds to the seventh decimal.  For a finite time
    that is not a zero, the text is the sign followed by digits and a
    point, and read as an integer the digits spell the magnitude times
    [10^7] rounded to the nearest integer, ties to even. *)
Theorem MarshalJSON_rounds_to_seven_decimals (m : MTime) (s : bool) (mm : positive)
    (e : Z) :
  Prim2SF m = S754_finite s mm e →
  ∃ n : Z,
    0 ≤ n ∧
    MarshalJSON m = gofmt.sign_text s +:+ gofmt.itoa (n / 10 ^ 7) +:+ "." +:+
                    gofmt.fixed_digits 7 (n mod 10 ^ 7) "" ∧
    strconv.digits_value (MarshalJSON m) 0 = n ∧
    rounds_to (F2R (Z.pos mm) e * 10000000) n.
Proof.
  intros Hm. exists (gofmt.scaled7 mm e). destruct (scaled7_near mm e) as [H0 Hv].
  split; [done|]. unfold MarshalJSON, gofmt.Sprintf_7f. rewrite Hm.
  split; [done|]. split; [|apply scaled7_rounds].
  unfold gofmt.fixed7. rewrite digits_value_app.
  assert (Hs : strconv.digits_value (gofmt.sign_text s) 0 = 0) by (by destruct s).
  rewrite Hs, digits_value_itoa by (apply Z.div_pos; lia).
  change ("." +:+ ?x) with (String "."%char x).
  cbn [strconv.digits_value]. change (gofmt.is_digit ".") with false. cbv iota.
  rewrite digits_value_fixed. cbn [strconv.digits_value].
  change (Z.of_nat 7) with 7. rewrite Z.mod_mod by lia.
  pose proof (Z.div_mod (gofmt.scaled7 mm e) (10 ^ 7) ltac:(lia)). lia.
Qed.

Lemma MarshalJSON_rounds_to_seven_decimals_witness :
  ∃ n : Z,
    0 ≤ n ∧
    MarshalJSON 0.00390625%float
      = gofmt.sign_text false +:+ gofmt.itoa (n / 10 ^ 7) +:+ "." +:+
        gofmt.fixed_digits 7 (n mod 10 ^ 7) "" ∧
    strconv.digits_value (MarshalJSON 0.00390625%float) 0 = n ∧
    rounds_to (F2R 4503599627370496 (-60) * 10000000) n.
Proof.
  apply (MarshalJSON_rounds_to_seven_decimals 0.00390625%float false 4503599627370496 (-60)).
  vm_compute; reflexivity.
Defined.

(** A mantissa of 53 digits is not rounded. *)
Lemma binary_round_exact (s : bool) (mx : positive) (ex : Z) :
  Z.pos (digits2_pos mx) = 53 → -1074 ≤ ex ≤ 971 →
  binary_round prec emax s mx ex = S754_finite s mx ex.
Proof.
  intros Hd He. unfold binary_round.
  assert (Hf : fexp prec emax (Z.pos (digits2_pos mx) + ex) = ex).
  { unfold fexp, emin, prec, emax. lia. }
  rewrite Hf. unfold shl_align. rewrite Z.sub_diag.
  unfold binary_round_aux, shr_fexp. cbn [Zdigits2]. rewrite Hf, Z.sub_diag.
  cbn [shr shr_record_of_loc shr_m loc_of_shr_record round_nearest_even Zdigits2].
  rewrite Hf, Z.sub_diag. cbn [shr shr_record_of_loc shr_m].
  destruct (Z.leb_spec ex (emax - prec)) as [|Hov]; [done|].
  unfold emax, prec in Hov. lia.
Qed.

Lemma digits_53 (m : Z) : 2 ^ 52 ≤ m < 2 ^ 53 → Zdigits2 m = 53.
Proof.
  intros Hm. rewrite Zdigits2_log2 by lia.
  assert (Z.log2 m = 52); [|lia]. apply Z.log2_unique; lia.
Qed.

(** [log2_quot n d] is the binary exponent of [n / d]. *)
Lemma log2_quot_spec (n d : Z) :
  0 < n → 0 < d →
  (IZR d * powerRZ 2 (strconv.log2_quot n d) <= IZR n
     < IZR d * powerRZ 2 (strconv.log2_quot n d + 1))%R.
Proof.
  intros Hn Hd. unfold strconv.log2_quot.
  pose proof (Z.log2_spec n Hn) as [Ln Un]. pose proof (Z.log2_spec d Hd) as [Ld Ud].
  pose proof (Z.log2_nonneg n) as Hln. pose proof (Z.log2_nonneg d) as Hld.
  replace (Z.succ (Z.log2 n)) with (Z.log2 n + 1) in Un by lia.
  replace (Z.succ (Z.log2 d)) with (Z.log2 d + 1) in Ud by lia.
  apply IZR_le in Ln, Ld. apply IZR_lt in Un, Ud.
  rewrite <- pow2_IZR in Ln, Un, Ld, Ud by lia.
  set (k := Z.log2 n - Z.log2 d).
  assert (Hup : (IZR n < IZR d * powerRZ 2 (k + 1))%R).
  { replace (Z.log2 n + 1) with ((k + 1) + Z.log2 d) in Un by (unfold k; lia).
    rewrite pow2_add in Un. pose proof (pow2_pos (k + 1)). nra. }
  assert (Hlo : (IZR d * powerRZ 2 (k - 1) <= IZR n)%R).
  { replace (Z.log2 n) with ((k - 1) + (Z.log2 d + 1)) in Ln by (unfold k; lia).
    rewrite pow2_add in Ln. pose proof (pow2_pos (k - 1)). nra. }
  assert (Hge : (if 0 <=? k then d * 2 ^ k <=? n else d <=? n * 2 ^ (- k)) = true ↔
                (IZR d * powerRZ 2 k <= IZR n)%R).
  { destruct (Z.leb_spec 0 k) as [Hk|Hk].
    - rewrite Z.leb_le, (pow2_IZR k Hk), <- mult_IZR. split; [apply IZR_le|apply le_IZR].
    - rewrite Z.leb_le.
      pose proof (pow2_neg (- k) ltac:(lia)) as Hp. rewrite Z.opp_involutive in Hp.
      pose proof (pow2_pos k) as Hk0.
      assert (HI : (0 < IZR (2 ^ (- k)))%R).
      { apply IZR_lt, Z.pow_pos_nonneg; lia. }
      split.
      + intros H%IZR_le. rewrite mult_IZR in H.
        assert (IZR d * powerRZ 2 k <= IZR n * (IZR (2 ^ (- k)) * powerRZ 2 k))%R by nra.
        rewrite (Rmult_comm (IZR (2 ^ (- k)))), Hp in H0. lra.
      + intros H. apply le_IZR. rewrite mult_IZR.
        assert (IZR d * (powerRZ 2 k * IZR (2 ^ (- k))) <= IZR n * IZR (2 ^ (- k)))%R by nra.
        rewrite Hp in H0. lra. }
  fold k. destruct (if 0 <=? k then d * 2 ^ k <=? n else d <=? n * 2 ^ (- k)) eqn:Hc.
  - split; [by apply Hge|done].
  - replace (k - 1 + 1) with k by lia. split; [done|].
    apply Rnot_le_lt. intros H. apply Hge in H. congruence.
Qed.

(** What [nearest_float] returns, for [0 < n < 2^62]: the binary64 of
    mantissa [n / (10^7 * 2^ex)] rounded to an integer, between [2^52] and
    [2^53], and of exponent [ex]. *)
Lemma nearest_float_value (s : bool) (n : Z) :
  0 < n < 2 ^ 62 →
  let ex := strconv.log2_quot n (10 ^ 7) - 52 in
  ∃ (mr : Z) (md : positive) (ed : Z),
    -76 ≤ ex ≤ -14 ∧
    rounds_to (IZR n / 10000000 * powerRZ 2 (- ex)) mr ∧
    (4503599627370496 <= IZR n / 10000000 * powerRZ 2 (- ex))%R ∧
    2 ^ 52 ≤ mr ≤ 2 ^ 53 ∧
    Prim2SF (strconv.nearest_float s n (10 ^ 7)) = S754_finite s md ed ∧
    F2R (Z.pos md) ed = (IZR mr * powerRZ 2 ex)%R.
Proof.
  intros Hn ex. unfold strconv.nearest_float.
  assert (Hn0 : (n =? 0) = false) by (apply Z.eqb_neq; lia). rewrite Hn0.
  pose proof (log2_quot_spec n (10 ^ 7) ltac:(lia) ltac:(lia)) as HK.
  set (k := strconv.log2_quot n (10 ^ 7)) in *.
  assert (Hk : Z.log2 n - 24 ≤ k ≤ Z.log2 n - 23).
  { unfold k, strconv.log2_quot. change (Z.log2 (10 ^ 7)) with 23.
    destruct (0 <=? Z.log2 n - 23);
      [destruct (10 ^ 7 * 2 ^ (Z.log2 n - 23) <=? n)
      |destruct (10 ^ 7 <=? n * 2 ^ (- (Z.log2 n - 23)))]; lia. }
  assert (Hl0 : 0 ≤ Z.log2 n) by apply Z.log2_nonneg.
  assert (Hl61 : Z.log2 n < 62) by (apply Z.log2_lt_pow2; lia).
  assert (Hex : -76 ≤ ex ≤ -14) by (unfold ex; lia).
  fold ex. assert (Hneg : (0 <=? ex) = false) by (apply Z.leb_gt; lia). rewrite Hneg.
  set (num := n * 2 ^ (- ex)).
  assert (Hpe : 0 < 2 ^ (- ex)) by (apply Z.pow_pos_nonneg; lia).
  pose proof (round_half_even_rounds num (10 ^ 7) ltac:(unfold num; lia) ltac:(lia)) as Hr.
  set (mr := gofmt.round_half_even num (10 ^ 7)) in *.
  change (IZR (10 ^ 7)) with 10000000%R in *.
  assert (Hx : (IZR num / 10000000 = IZR n / 10000000 * powerRZ 2 (- ex))%R).
  { unfold num. rewrite mult_IZR, <- (pow2_IZR (- ex)) by lia. field. }
  rewrite Hx in Hr.
  (* the scaled value is in [2^52, 2^53) *)
  assert (Hrange : (4503599627370496 <= IZR n / 10000000 * powerRZ 2 (- ex)
                    < 9007199254740992)%R).
  { replace (- ex) with (52 + - k) by (unfold ex; lia). rewrite pow2_add.
    rewrite (pow2_IZR 52) by lia. change (2 ^ 52) with 4503599627370496.
    destruct HK as [HK1 HK2]. rewrite pow2_add in HK2. change (powerRZ 2 1) with (2 * 1)%R in HK2.
    pose proof (pow2_pos k) as Hpk. pose proof (pow2_pos (- k)) as Hpk'.
    assert (Hinv : (powerRZ 2 k * powerRZ 2 (- k) = 1)%R).
    { rewrite <- pow2_add. by replace (k + - k) with 0 by lia. }
    assert (Hq : (1 <= IZR n / 10000000 * powerRZ 2 (- k) < 2)%R).
    { assert (Hn' : (IZR n / 10000000 * 10000000 = IZR n)%R) by (field; lra).
      set (q := (IZR n / 10000000)%R) in *.
      split.
      - assert (powerRZ 2 k * powerRZ 2 (- k) <= q * powerRZ 2 (- k))%R; [|lra].
        apply Rmult_le_compat_r; [lra|]. lra.
      - assert (q * powerRZ 2 (- k) < 2 * (powerRZ 2 k * powerRZ 2 (- k)))%R; [|lra].
        replace (2 * (powerRZ 2 k * powerRZ 2 (- k)))%R
          with ((2 * powerRZ 2 k) * powerRZ 2 (- k))%R by ring.
        apply Rmult_lt_compat_r; [lra|]. lra. }
    lra. }
  pose proof Hr as [[Lr Ur] Tr].
  assert (Hmr : 2 ^ 52 ≤ mr ≤ 2 ^ 53).
  { change (2 ^ 52) with 4503599627370496. change (2 ^ 53) with 9007199254740992. split.
    - assert (4503599627370496 - 1 < mr); [|lia]. apply lt_IZR. rewrite minus_IZR. lra.
    - apply Z.lt_succ_r, lt_IZR. rewrite succ_IZR. lra. }
  assert (Hto : Uint63.to_Z (Uint63.of_Z mr) = mr).
  { rewrite Uint63.of_Z_spec. apply Z.mod_small.
    replace Uint63.wB with (2 ^ 63) by reflexivity.
    change (2 ^ 53) with 9007199254740992 in Hmr. change (2 ^ 63) with 9223372036854775808. lia. }
  (* the conversion of the mantissa is exact *)
  assert (Hof : ∃ (m0 : positive) (e0 : Z),
            binary_normalize prec emax mr 0 false = S754_finite false m0 e0 ∧
            Z.pos (digits2_pos m0) = 53 ∧ 0 ≤ e0 ≤ 1 ∧ F2R (Z.pos m0) e0 = IZR mr).
  { destruct (Z.eq_dec mr (2 ^ 53)) as [->|Hne].
    - exists 4503599627370496%positive, 1. split; [by vm_compute|]. split; [by vm_compute|].
      split; [lia|]. unfold F2R. rewrite (pow2_IZR 1), <- mult_IZR by lia. reflexivity.
    - destruct mr as [|m0|m0]; [lia| |lia].
      exists m0, 0. cbn [binary_normalize].
      assert (Hd : Z.pos (digits2_pos m0) = 53) by (apply (digits_53 (Z.pos m0)); lia).
      split; [apply binary_round_exact; [done|lia]|]. split; [done|]. split; [lia|].
      apply F2R_int. }
  destruct Hof as (m0 & e0 & Hof & Hd0 & He0 & Hv0).
  assert (Hld : Prim2SF (Z.ldexp (of_uint63 (Uint63.of_Z mr)) ex) = S754_finite false m0 (e0 + ex)).
  { rewrite Z_ldexp_spec, FloatAxioms.of_uint63_spec, Hto, Hof. cbn [SFldexp].
    apply binary_round_exact; [done|lia]. }
  exists mr, m0, (e0 + ex). split; [done|]. split; [done|]. split; [lra|].
  split; [done|]. split.
  - destruct s; [|done]. by rewrite FloatAxioms.opp_spec, Hld.
  - unfold F2R in *. rewrite pow2_add, <- Hv0. ring.
Qed.

Lemma ParseFloat_fixed7_signed (s : bool) (v : Z) :
  0 ≤ v →
  strconv.ParseFloat_fixed7 (gofmt.fixed7 s v) = strconv.nearest_float s v (10 ^ 7).
Proof.
  intros Hv. destruct s; [|by apply ParseFloat_fixed7_digits].
  unfold gofmt.fixed7, gofmt.sign_text.
  change ("-" +:+ ?x) with (String "-"%char x).
  cbn [strconv.ParseFloat_fixed7]. f_equal.
  rewrite digits_value_itoa by (apply Z.div_pos; lia).
  change ("." +:+ ?x) with (String "."%char x).
  cbn [strconv.digits_value]. change (gofmt.is_digit ".") with false. cbv iota.
  rewrite digits_value_fixed. cbn [strconv.digits_value].
  change (Z.of_nat 7) with 7. rewrite Z.mod_mod by lia.
  pose proof (Z.div_mod v (10 ^ 7) ltac:(lia)). lia.
Qed.

Lemma Rabs_scale (c u v : R) :
  (0 < c)%R → (Rabs u <= Rabs v)%R → (Rabs (u * c) <= Rabs (v * c))%R.
Proof.
  intros Hc H. rewrite !Rabs_mult, (Rabs_pos_eq c) by lra.
  apply Rmult_le_compat_r; lra.
Qed.

(** A rendered time reads back to a time that is rendered the same: the
    binary64 nearest to the text is at least as close to it as the time
    that was rendered. *)
Lemma MarshalJSON_stable (m : MTime) :
  small 38 (Prim2SF m) →
  MarshalJSON (strconv.ParseFloat_fixed7 (MarshalJSON m)) = MarshalJSON m.
Proof.
  intros Hs. unfold MarshalJSON. unfold gofmt.Sprintf_7f at 2 3.
  pose proof (Prim2SF_valid m) as Hvalid.
  destruct (Prim2SF m) as [s|s| |s mm e] eqn:Hm; try done.
  { rewrite ParseFloat_fixed7_signed by lia. by destruct s. }
  cbn [small] in Hs.
  destruct (scaled7_near mm e) as [HN0 HNv].
  pose proof (scaled7_rounds mm e) as HNr.
  set (N := gofmt.scaled7 mm e) in *.
  rewrite ParseFloat_fixed7_signed by done.
  destruct (Z.eq_dec N 0) as [->|HNne]; [by destruct s|].
  pose proof (F2R_below mm e) as Hbelow.
  assert (H38 : (powerRZ 2 (Z.pos (digits2_pos mm) + e) <= 274877906944)%R).
  { etrans; [apply (pow2_le _ 38); lia|]. rewrite pow2_IZR by lia. apply Req_le. reflexivity. }
  assert (HN62 : 0 < N < 2 ^ 62).
  { split; [lia|]. apply lt_IZR. change (2 ^ 62) with 4611686018427387904. lra. }
  destruct (nearest_float_value s N HN62) as (mr & md & ed & Hex & Hmr & Hx52 & Hmr52 & Hd & Hvd).
  set (ex := strconv.log2_quot N (10 ^ 7) - 52) in *.
  unfold gofmt.Sprintf_7f. rewrite Hd. f_equal.
  apply (rounds_to_unique (F2R (Z.pos md) ed * 10000000)); [apply scaled7_rounds|].
  apply (rounds_to_closer (F2R (Z.pos mm) e * 10000000)); [done|].
  (* in units of 2^ex *)
  pose proof (pow2_pos ex) as HP. pose proof (pow2_pos (- ex)) as HPi.
  assert (HPP : (powerRZ 2 ex * powerRZ 2 (- ex) = 1)%R).
  { rewrite <- pow2_add. by replace (ex + - ex) with 0 by lia. }
  set (x' := (IZR N / 10000000 * powerRZ 2 (- ex))%R) in *.
  set (a := (F2R (Z.pos mm) e * powerRZ 2 (- ex))%R).
  assert (HxP : (x' * (powerRZ 2 ex * 10000000) = IZR N)%R).
  { unfold x'. replace (IZR N / 10000000 * powerRZ 2 (- ex) * (powerRZ 2 ex * 10000000))%R
      with (IZR N * (powerRZ 2 ex * powerRZ 2 (- ex)))%R by (field; lra).
    rewrite HPP. ring. }
  assert (HaP : (a * (powerRZ 2 ex * 10000000) = F2R (Z.pos mm) e * 10000000)%R).
  { unfold a. replace (F2R (Z.pos mm) e * powerRZ 2 (- ex) * (powerRZ 2 ex * 10000000))%R
      with (F2R (Z.pos mm) e * 10000000 * (powerRZ 2 ex * powerRZ 2 (- ex)))%R by ring.
    rewrite HPP. ring. }
  replace (F2R (Z.pos md) ed * 10000000 - IZR N)%R
    with ((IZR mr - x') * (powerRZ 2 ex * 10000000))%R
    by (rewrite Rmult_minus_distr_r, HxP, Hvd; ring).
  replace (F2R (Z.pos mm) e * 10000000 - IZR N)%R
    with ((a - x') * (powerRZ 2 ex * 10000000))%R
    by (rewrite Rmult_minus_distr_r, HxP, HaP; ring).
  apply Rabs_scale; [nra|].
  destruct Hmr as [[Lr Ur] _].
  change (2 ^ 52) with 4503599627370496 in Hmr52.
  destruct (Z_le_gt_dec ex e) as [Hge|Hlt].
  - (* the rendered time is a multiple of 2^ex *)
    assert (Ha : a = IZR (Z.pos mm * 2 ^ (e - ex))).
    { unfold a, F2R. rewrite mult_IZR, <- (pow2_IZR (e - ex)) by lia.
      rewrite Rmult_assoc, <- pow2_add. by replace (e + - ex) with (e - ex) by lia. }
    rewrite Ha. set (j := Z.pos mm * 2 ^ (e - ex)).
    assert (Hj : j = mr ∨ j ≤ mr - 1 ∨ mr + 1 ≤ j) by lia.
    destruct Hj as [->|[Hj|Hj]]; [lra| |]; apply IZR_le in Hj;
      rewrite ?minus_IZR, ?plus_IZR in Hj; unfold Rabs;
      destruct (Rcase_abs (IZR mr - x')), (Rcase_abs (IZR j - x')); lra.
  - (* the rendered time is in a lower binade *)
    assert (Hd53 : Z.pos (digits2_pos mm) ≤ 53).
    { cbn in Hvalid. apply andb_prop in Hvalid as [Hc _]. apply Z.eqb_eq in Hc.
      unfold fexp, emin, prec, emax in Hc. lia. }
    assert (Ha : (a < 4503599627370496)%R).
    { unfold a. assert (H1 : (F2R (Z.pos mm) e * powerRZ 2 (- ex)
                              < powerRZ 2 (Z.pos (digits2_pos mm) + e) * powerRZ 2 (- ex))%R)
        by (apply Rmult_lt_compat_r; lra).
      rewrite <- pow2_add in H1.
      assert (H2 : (powerRZ 2 (Z.pos (digits2_pos mm) + e + - ex) <= powerRZ 2 52)%R)
        by (apply pow2_le; lia).
      rewrite (pow2_IZR 52) in H2 by lia. change (2 ^ 52) with 4503599627370496 in H2. lra. }
    assert (Hj : mr = 4503599627370496 ∨ 4503599627370496 + 1 ≤ mr) by lia.
    destruct Hj as [Hj|Hj]; [rewrite Hj in *|apply IZR_le in Hj; rewrite plus_IZR in Hj];
      unfold Rabs; destruct (Rcase_abs (_ - x')), (Rcase_abs (a - x')); lra.
Qed.





(** ** The digest [worker] stores: 64 lower-case hexadecimal digits *)

Lemma round_length (st : list Z) (kw : Z * Z) : length (sha256.round st kw) = length st.
Proof.
  unfold sha256.round.
  destruct st as [|a [|b [|c [|d [|e [|f [|g [|h [|i st]]]]]]]]]; reflexivity.
Qed.

Lemma fold_round_length (kws : list (Z * Z)) (st : list Z) :
  length (fold_left sha256.round kws st) = length st.
Proof.
  revert st. induction kws as [|kw kws IH]; intros st; [done|].
  cbn [fold_left]. by rewrite IH, round_length.
Qed.

Lemma zip_add_length (x y : list Z) :
  length x = length y → length (sha256.zip_add x y) = length x.
Proof.
  revert y. induction x as [|a x IH]; intros [|b y] H; try done.
  cbn in *. f_equal. apply IH. lia.
Qed.

Lemma compress_length (st block : list Z) : length (sha256.compress st block) = length st.
Proof. unfold sha256.compress. apply zip_add_length. by rewrite fold_round_length. Qed.

Lemma blocks_length (fuel : nat) (b st : list Z) :
  length (sha256.blocks fuel b st) = length st.
Proof.
  revert b st. induction fuel as [|fuel IH]; intros b st; [done|].
  cbn [sha256.blocks]. destruct b; [done|]. by rewrite IH, compress_length.
Qed.

Lemma flat_map_be_bytes_length (ws : list Z) :
  length (flat_map (sha256.be_bytes 4) ws) = (4 * length ws)%nat.
Proof.
  induction ws as [|w ws IH]; [done|].
  cbn [flat_map]. rewrite length_app, IH. cbn. lia.
Qed.

Lemma Sum256_length (msg : list byte) : length (sha256.Sum256 msg) = 32%nat.
Proof.
  unfold sha256.Sum256. rewrite length_map, flat_map_be_bytes_length, blocks_length.
  reflexivity.
Qed.

Lemma hex_char_lower (d : Z) : 0 ≤ d < 16 → is_lower_hex (gofmt.hex_char d) = true.
Proof.
  intros Hd. unfold is_lower_hex, gofmt.hex_char.
  destruct (Z.ltb_spec d 10).
  - rewrite nat_ascii_embedding by lia. apply orb_true_intro. left.
    apply andb_true_intro. split; apply Nat.leb_le; lia.
  - rewrite nat_ascii_embedding by lia. apply orb_true_intro. right.
    apply andb_true_intro. split; apply Nat.leb_le; lia.
Qed.

Lemma Sprintf_x_hex (b : list byte) :
  String.length (gofmt.Sprintf_x b) = (2 * length b)%nat ∧
  forallb is_lower_hex (list_ascii_of_string (gofmt.Sprintf_x b)) = true.
Proof.
  induction b as [|c b [IHl IHh]]; [done|].
  cbn [gofmt.Sprintf_x String.length length list_ascii_of_string forallb].
  assert (Hc : 0 ≤ Z.of_N (Byte.to_N c) < 256).
  { pose proof (Byte.to_N_bounded c). lia. }
  split; [lia|]. rewrite IHh, !hex_char_lower; [done| |].
  - apply Z.mod_pos_bound. lia.
  - split; [apply Z.div_pos; lia|apply Z.div_lt_upper_bound; lia].
Qed.

(** X13.  The digest of every entry [worker] returns is 64 lower-case
    hexadecimal digits. *)
Theorem worker_digest_is_64_hex_digits (fs : FileSystem) (t : task) (e : entry) :
  worker fs t = inr e →
  String.length (entry_SHA256 e) = 64%nat ∧
  forallb is_lower_hex (list_ascii_of_string (entry_SHA256 e)) = true.
Proof.
  intros (info & f & h & _ & _ & _ & ->)%worker_inr. cbn [entry_SHA256].
  destruct (Sprintf_x_hex (sha256.Sum h)) as [Hl Hh].
  unfold sha256.Sum in *. rewrite Sum256_length in Hl. done.
Qed.

Lemma worker_digest_is_64_hex_digits_witness :
  String.length (entry_SHA256 {| entry_MTime := margin_mtime (regular 100 500000000);
                                 entry_SHA256 := gofmt.Sprintf_x (sha256.Sum256 (text "abc"));
                                 entry_path := "models/a.ckpt" |}) = 64%nat.
Proof.
  pose proof (worker_digest_is_64_hex_digits models
                {| task_path := "models/a.ckpt";
                   task_d := FileInfoToDirEntry (regular 100 500000000) |}
                {| entry_MTime := margin_mtime (regular 100 500000000);
                   entry_SHA256 := gofmt.Sprintf_x (sha256.Sum256 (text "abc"));
                   entry_path := "models/a.ckpt" |}) as H.
  apply H. vm_compute; reflexivity.
Defined.

Section Queue.
Context (lib : GoLib) (fs : FileSystem) (root : string).

Local Abbreviation mp := (modelPath lib root).

(** X14.  Exactly which tasks a run queues, in terms of its inputs.  A task
    is queued if and only if it is the task of a loaded entry whose file is
    found and for which the test of line 144 holds ([changed]: the file is
    dated more than two seconds after the stored seconds, while [int64] and
    [time.Unix] hold them), with the information [os.Stat] returned, or the
    walk reported its path and entry without error, the entry is not a
    directory, the lower-cased extension is .safetensors or .ckpt, and no
    loaded key resolves to the path of a file that is found. *)
Theorem queued_tasks_exactly (c : cache) (iter : list (string * entry)) (t : task) :
  iter ≡ₚ map_to_list (Hashes c) →
  (t ∈ queued lib fs root c iter ↔
   (∃ p e fi, Hashes c !! p = Some e ∧ os_Stat fs (mp p) = inr fi ∧
              changed fi e = true ∧
              t = {| task_path := mp p; task_d := FileInfoToDirEntry fi |}) ∨
   (Visit (task_path t) (task_d t) None ∈ filepath_WalkDir fs root ∧
    IsDir (task_d t) = false ∧
    model_ext lib (task_path t) = true ∧
    ∀ p e fi, Hashes c !! p = Some e → mp p = task_path t →
              os_Stat fs (task_path t) ≠ inr fi)).
Proof.
  intros Hi. unfold queued. rewrite elem_of_app, elem_of_detect_tasks, elem_of_scan.
  assert (Hin : ∀ p e, (p, e) ∈ iter ↔ Hashes c !! p = Some e).
  { intros p e. rewrite Hi. apply elem_of_map_to_list. }
  split.
  - intros [(p & e & fi & Hp & Hst & Hc & ->)|(Hw & Hd & He & Hk)].
    + left. exists p, e, fi. by rewrite <- Hin.
    + right. split; [done|]. split; [done|]. split; [done|].
      intros p e fi Hp Hmp Hst. apply Hk, detect_known. exists p, e, fi. by rewrite Hin.
  - intros [(p & e & fi & Hp & Hst & Hc & ->)|(Hw & Hd & He & Hk)].
    + left. exists p, e, fi. by rewrite Hin.
    + right. split; [done|]. split; [done|]. split; [done|].
      intros (p & e & fi & Hp & Hmp & Hst)%detect_known.
      apply (Hk p e fi); [by apply Hin|done|done].
Qed.
End Queue.

Lemma queued_tasks_exactly_witness :
  {| task_path := "models/B.SafeTensors";
     task_d := FileInfoToDirEntry (regular 200 500000000) |}
    ∈ queued unix models "models" cache_fresh (map_to_list (Hashes cache_fresh)).
Proof.
  apply (queued_tasks_exactly unix models "models" cache_fresh
           (map_to_list (Hashes cache_fresh))
           {| task_path := "models/B.SafeTensors";
              task_d := FileInfoToDirEntry (regular 200 500000000) |}).
  - reflexivity.
  - right. split; [|split; [reflexivity|split; [vm_compute; reflexivity|]]].
    + vm_compute. right. by left.
    + intros p e fi Hp Hmp. unfold cache_fresh, only in Hp. cbn [Hashes] in Hp.
      apply lookup_singleton_Some in Hp as [<- _]. vm_compute in Hmp. discriminate Hmp.
Defined.

(** ** The collector and the staleness loop *)

(** X17.  The collector is not synchronised with the staleness loop.  With a
    hasher running, when the loop has two tasks to send and [worker] hashes
    the first, the goroutines can reach a state in which the collector has
    received that result (and stored it in [result.Hashes], line 132) while
    the main goroutine is still inside the loop over [result.Hashes] of
    line 136, about to send its second task. *)
Theorem collector_can_write_during_staleness_loop (lib : GoLib) (fs : FileSystem)
    (root : string) (c : cache) (iter : list (string * entry)) (t1 t2 : task)
    (more : list task) (r1 : entry) (MaxHashers NumCPU : Z) :
  d_tasks (detect lib fs root (Hashes c) iter) = t1 :: t2 :: more →
  worker fs t1 = inr r1 →
  0 ≤ MaxHashers → 0 < NumCPU →
  ∃ s, rtc (pipe_step fs)
           (pipe_start (queued lib fs root c iter) (hasher_count MaxHashers NumCPU)) s ∧
       collected s = [r1] ∧
       at_main s =
         Queueing (t2 :: more ++ scan lib fs root (d_known (detect lib fs root (Hashes c) iter))).
Proof.
  intros Hd Hw Hm Hc. pose proof (hasher_count_pos MaxHashers NumCPU Hm Hc) as Hn.
  destruct (hasher_count MaxHashers NumCPU) as [|n]; [lia|].
  unfold queued. rewrite Hd.
  set (rest := (t2 :: more ++ scan lib fs root (d_known (detect lib fs root (Hashes c) iter)))%list).
  change ((t1 :: t2 :: more) ++ ?x)%list with (t1 :: rest).
  set (st := fun (tc : list task) (h : hasher) (rc col : list entry) =>
              {| at_main := Queueing rest; taskChan := tc; taskChan_closed := false;
                 hashers := h :: replicate n Ranging; resultChan := rc;
                 resultChan_closed := false; collected := col;
                 collector_returned := false |}).
  exists (st [] Ranging [] [r1]). split; [|done].
  apply (rtc_l _ _ (st [t1] Ranging [] [])); [by exists MainG|].
  apply (rtc_l _ _ (st [] (Sending r1) [] [])).
  { exists (HasherG 0). cbn [fire]. unfold hasher_step, st. cbn [hashers taskChan].
    cbn [lookup list_lookup]. by rewrite Hw. }
  apply (rtc_l _ _ (st [] Ranging [r1] [])); [by exists (HasherG 0)|].
  apply (rtc_l _ _ (st [] Ranging [] [r1])); [by exists CollectorG|].
  apply rtc_refl.
Qed.

Lemma collector_can_write_during_staleness_loop_witness :
  ∃ s, rtc (pipe_step models)
           (pipe_start (queued unix models "models" cache_two_old
                          (map_to_list (Hashes cache_two_old)))
                       (hasher_count 1 4)) s ∧
       collected s = [{| entry_MTime := 101.5%float; entry_SHA256 := sha_abc;
                         entry_path := "models/a.ckpt" |}] ∧
       at_main s =
         Queueing ({| task_path := "models/B.SafeTensors";
                      task_d := FileInfoToDirEntry (regular 200 500000000) |}
                   :: [] ++ scan unix models "models"
                              (d_known (detect unix models "models" (Hashes cache_two_old)
                                          (map_to_list (Hashes cache_two_old))))).
Proof.
  apply (collector_can_write_during_staleness_loop unix models "models" cache_two_old
           (map_to_list (Hashes cache_two_old))
           {| task_path := "models/a.ckpt";
              task_d := FileInfoToDirEntry (regular 100 500000000) |}
           {| task_path := "models/B.SafeTensors";
              task_d := FileInfoToDirEntry (regular 200 500000000) |}
           []
           {| entry_MTime := 101.5%float; entry_SHA256 := sha_abc;
              entry_path := "models/a.ckpt" |}
           1 4).
  - vm_compute; reflexivity.
  - vm_compute; reflexivity.
  - lia.
  - lia.
Defined.

(** [int64(f)] for a finite [f]: its whole seconds when int64 holds them,
    the smallest int64 otherwise. *)
Lemma to_int64_whole (f : float) (n : Z) :
  whole_seconds f n →
  float64.to_int64 f = if int64.in_range n then n else int64.min.
Proof.
  unfold whole_seconds, float64.is_finite, float64.to_int64, truncates_to.
  destruct (Prim2SF f) as [s|s| |s m e]; intros [Hf Ht]; try done.
  { cbn [SF2R] in Ht. assert (n = 0); [|by subst].
    destruct Ht as [[_ [H1 H2]]|[H _]]; [|lra].
    assert (n ≤ 0) by (apply le_IZR; lra).
    assert (-1 < n) by (apply lt_IZR; lra). lia. }
  cbn [SF2R] in Ht.
  set (a := if 0 <=? e then Z.pos m * 2 ^ e else Z.pos m / 2 ^ (- e)).
  assert (Ha : (IZR a <= F2R (Z.pos m) e < IZR a + 1)%R ∧ 0 ≤ a).
  { unfold a. destruct (Z.leb_spec 0 e) as [He|He].
    - split.
      + rewrite mult_IZR, <- (pow2_IZR e He). unfold F2R. lra.
      + apply Z.mul_nonneg_nonneg; [lia|]. apply Z.pow_nonneg. lia.
    - pose proof (F2R_floor (Z.pos m) e (- e) ltac:(lia)) as H.
      replace (e + - e) with 0 in H by lia. rewrite F2R_int in H. cbn [powerRZ] in H.
      split; [lra|]. apply Z.div_pos; [lia|]. apply Z.pow_pos_nonneg; lia. }
  destruct Ha as [[Ha1 Ha2] Ha0].
  assert (Hpos : (0 < F2R (Z.pos m) e)%R).
  { unfold F2R. pose proof (pow2_pos e). assert (0 < IZR (Z.pos m))%R by (apply IZR_lt; lia). nra. }
  assert (Hv : (if s then - a else a) = n).
  { destruct s; cbn [cond_Zopp] in Ht.
    - assert (Hneg : F2R (- Z.pos m) e = (- F2R (Z.pos m) e)%R).
      { unfold F2R. rewrite opp_IZR. lra. }
      change (Z.neg m) with (- Z.pos m) in Ht. rewrite Hneg in Ht.
      destruct Ht as [[H _]|[_ [H1 H2]]]; [lra|].
      assert (n < - a + 1) by (apply lt_IZR; rewrite plus_IZR, opp_IZR; lra).
      assert (- a - 1 < n) by (apply lt_IZR; rewrite minus_IZR, opp_IZR; lra). lia.
    - destruct Ht as [[_ [H1 H2]]|[H _]]; [|lra].
      assert (n < a + 1) by (apply lt_IZR; rewrite plus_IZR; lra).
      assert (a - 1 < n) by (apply lt_IZR; rewrite minus_IZR; lra). lia. }
  by rewrite Hv.
Qed.

(** ** The staleness test, read on the stored seconds *)
Section Later.
Context (lib : GoLib) (fs : FileSystem) (root : string).

(** The test of line 144, read on the whole seconds of the stored time. *)
Lemma changed_whole_seconds (fi : FileInfo) (e : entry) (n : Z) :
  whole_seconds (entry_MTime e) n →
  (- 2 ^ 63 ≤ n < 2 ^ 63 - gotime.unixToInternal →
   (changed fi e = true ↔ n * gotime.Second + 2 * gotime.Second < ModTime fi)) ∧
  (n < - 2 ^ 63 ∨ 2 ^ 63 - gotime.unixToInternal ≤ n →
   - 2 ^ 63 * gotime.Second + 2 * gotime.Second < ModTime fi → changed fi e = true).
Proof.
  intros Hn. pose proof (to_int64_whole _ _ Hn) as Hi.
  unfold changed. rewrite Hi. unfold int64.in_range, int64.min, int64.max.
  unfold gotime.unixToInternal in *. split.
  - intros Hr.
    destruct (Z.leb_spec (- 2 ^ 63) n); [|lia].
    destruct (Z.leb_spec n (2 ^ 63 - 1)); [|lia]. cbn [andb].
    rewrite Unix_seconds by (unfold gotime.unixToInternal; lia).
    rewrite Z.ltb_lt. unfold gotime.Sub, int64.clamp, int64.min, int64.max, gotime.Second. lia.
  - intros Hr Hfi. apply Z.ltb_lt.
    destruct (Z.leb_spec (- 2 ^ 63) n); cbn [andb].
    + destruct (Z.leb_spec n (2 ^ 63 - 1)).
      * rewrite Unix_wrapped by (unfold gotime.unixToInternal; lia).
        unfold gotime.Sub, int64.clamp, int64.min, int64.max, gotime.Second in *. lia.
      * rewrite Unix_seconds by (unfold gotime.unixToInternal; lia).
        unfold gotime.Sub, int64.clamp, int64.min, int64.max, gotime.Second in *. lia.
    + rewrite Unix_seconds by (unfold gotime.unixToInternal; lia).
      unfold gotime.Sub, int64.clamp, int64.min, int64.max, gotime.Second in *. lia.
Qed.

(** C1 (amended).  For an entry of the loaded cache whose resolved path can
    be stat-ed, a task for that path is queued if and only if the test of
    line 144 holds for this entry, or for another key that resolves to the
    same path.  For a finite stored time whose whole seconds [n] (the time
    truncated towards zero) lie in [-2^63, 2^63 - 62135596800), the test
    holds exactly when the file's modification time is more than two
    seconds LATER than [n] seconds after the epoch: the difference is signed
    and the margin is not taken off.  For a stored time outside that range,
    which [int64] or the seconds of a [time.Time] cannot hold, the test
    compares with a time some 292 billion years in the past, and holds for
    every file dated after it.  When no task is queued for the path (and
    joining a result's relative path to the root gives its path back) the
    entry, digest included, is in the output as it was loaded. *)
Theorem rehash_iff_file_later (c : cache) iter done p e fi :
  schedule lib fs root c iter done →
  Hashes c !! p = Some e →
  os_Stat fs (modelPath lib root p) = inr fi →
  ((∃ t, t ∈ queued lib fs root c iter ∧ task_path t = modelPath lib root p) ↔
   (∃ p' e', Hashes c !! p' = Some e' ∧ modelPath lib root p' = modelPath lib root p ∧
             changed fi e' = true))
  ∧
  (∀ e' n, whole_seconds (entry_MTime e') n →
     (- 2 ^ 63 ≤ n < 2 ^ 63 - gotime.unixToInternal →
      (changed fi e' = true ↔ n * gotime.Second + 2 * gotime.Second < ModTime fi)) ∧
     (n < - 2 ^ 63 ∨ 2 ^ 63 - gotime.unixToInternal ≤ n →
      - 2 ^ 63 * gotime.Second + 2 * gotime.Second < ModTime fi →
      changed fi e' = true))
  ∧
  ((¬ ∃ t, t ∈ queued lib fs root c iter ∧ task_path t = modelPath lib root p) →
   forallb (coherent lib root) done = true →
   Hashes (main lib fs root c iter done) !! p = Some e).
Proof.
  intros Hs Hp Hst. split; [|split].
  - apply (queued_for_found lib fs root c iter done p e fi Hs Hp Hst).
  - intros e' n. apply changed_whole_seconds.
  - intros Hno Hco. simpl. rewrite collect_other.
    + unfold detect. by rewrite (detect_fold_found _ _ _ _ _ _ fi).
    + intros r Hr Hk. apply Hno.
      destruct (stored_result_task lib fs root c iter done r p Hs Hco Hr Hk) as (t & Ht & Hpath & _).
      by exists t.
Qed.
End Later.

Lemma rehash_iff_file_later_witness :
  Hashes (run unix models "models" cache_fresh) !! "checkpoint/a.ckpt"
    = Some (stored 101.5%float sha_abc).
Proof.
  apply (rehash_iff_file_later unix models "models" cache_fresh _ _
           "checkpoint/a.ckpt" _ (regular 100 500000000) (schedule_run _ _ _ _)).
  - by vm_compute.
  - by vm_compute.
  - intros (t & Ht & Hp). vm_compute in Ht, Hp.
    apply elem_of_cons in Ht as [->|Ht]; [done|].
    apply elem_of_cons in Ht as [->|Ht]; [done|].
    by apply elem_of_nil in Ht.
  - by vm_compute.
Defined.

(** The three ranges of the stored time on a.ckpt, modified 100.5 s after
    the epoch: 98.5 gives a rehash and 99 none; 2^63 - 1024, the largest
    float64 below 2^63, wraps around in [time.Unix] and gives a rehash, and
    so does 2^100, which [int64] cannot hold. *)
Example staleness_on_known_times :
  changed (regular 100 500000000) (stored 98.5%float "") = true ∧
  changed (regular 100 500000000) (stored 99%float "") = false ∧
  float64.to_int64 9223372036854774784%float = 2 ^ 63 - 1024 ∧
  changed (regular 100 500000000) (stored 9223372036854774784%float "") = true ∧
  changed (regular 100 500000000) (stored 0x1p100%float "") = true.
Proof. repeat split; vm_compute; reflexivity. Qed.

(** ** The stored time and its text *)






(** ** unicode/utf8: decoding and encoding a rune *)

Lemma code_range (c : ascii) : 0 ≤ utf8.code c < 256.
Proof. unfold utf8.code. pose proof (nat_ascii_bounded c). lia. Qed.

Lemma byte_code (c : ascii) : utf8.byte (utf8.code c) = c.
Proof. unfold utf8.byte, utf8.code. rewrite Nat2Z.id. apply ascii_nat_embedding. Qed.

Lemma byte_eq (c : ascii) (z : Z) : z = utf8.code c → utf8.byte z = c.
Proof. intros ->. apply byte_code. Qed.

Local Ltac dlia := Z.div_mod_to_equations; lia.

Local Ltac tests :=
  repeat match goal with
  | |- context [?a <? ?b] => destruct (Z.ltb_spec a b)
  | |- context [?a <=? ?b] => destruct (Z.leb_spec a b)
  | |- context [?a =? ?b] => destruct (Z.eqb_spec a b)
  end; cbn [orb andb negb].

Lemma AppendRune_2 (r : Z) :
  128 ≤ r ≤ 2047 →
  utf8.AppendRune r = String (utf8.byte (192 + r / 64)) (String (utf8.byte (128 + r mod 64)) "").
Proof.
  intros Hr. unfold utf8.AppendRune.
  destruct (Z.leb_spec 0 r); [|lia]. destruct (Z.leb_spec r 127); [lia|].
  destruct (Z.leb_spec r 2047); [|lia]. done.
Qed.

Lemma AppendRune_3 (r : Z) :
  2048 ≤ r ≤ 65535 → ¬ (55296 ≤ r ≤ 57343) →
  utf8.AppendRune r =
    String (utf8.byte (224 + r / 4096))
      (String (utf8.byte (128 + r / 64 mod 64)) (String (utf8.byte (128 + r mod 64)) "")).
Proof.
  intros Hr Hs. unfold utf8.AppendRune, utf8.MaxRune, utf8.RuneError.
  destruct (Z.leb_spec 0 r); [|lia]. destruct (Z.leb_spec r 127); [lia|].
  destruct (Z.leb_spec r 2047); [lia|]. cbn [andb].
  destruct (Z.ltb_spec r 0); [lia|]. destruct (Z.ltb_spec 1114111 r); [lia|]. cbn [orb].
  destruct (Z.leb_spec 55296 r), (Z.leb_spec r 57343); cbn [andb]; try lia;
    destruct (Z.leb_spec r 65535); try lia; done.
Qed.

Lemma AppendRune_4 (r : Z) :
  65536 ≤ r ≤ 1114111 →
  utf8.AppendRune r =
    String (utf8.byte (240 + r / 262144))
      (String (utf8.byte (128 + r / 4096 mod 64))
         (String (utf8.byte (128 + r / 64 mod 64)) (String (utf8.byte (128 + r mod 64)) ""))).
Proof.
  intros Hr. unfold utf8.AppendRune, utf8.MaxRune, utf8.RuneError.
  destruct (Z.leb_spec 0 r); [|lia]. destruct (Z.leb_spec r 127); [lia|].
  destruct (Z.leb_spec r 2047); [lia|]. cbn [andb].
  destruct (Z.ltb_spec r 0); [lia|]. destruct (Z.ltb_spec 1114111 r); [lia|]. cbn [orb].
  destruct (Z.leb_spec 55296 r), (Z.leb_spec r 57343); cbn [andb]; try lia;
    destruct (Z.leb_spec r 65535); try lia; done.
Qed.

(** What [DecodeRuneInString] finds at the start of a string: an ASCII
    byte, a byte that starts no valid sequence, or a sequence of two to
    four bytes, which is the encoding of the rune and is read the same
    whatever follows. *)
Lemma DecodeRune_spec (c : ascii) (rest : string) :
  ∃ r n, utf8.DecodeRuneInString (String c rest) = (r, n) ∧
    ((utf8.code c < 128 ∧ r = utf8.code c ∧ n = 1%nat) ∨
     (128 ≤ utf8.code c ∧ r = utf8.RuneError ∧ n = 1%nat) ∨
     (128 ≤ utf8.code c ∧ 128 ≤ r ∧ (2 ≤ n ≤ 4)%nat ∧
      utf8.AppendRune r = utf8.take n (String c rest) ∧
      String.length (utf8.take n (String c rest)) = n ∧
      ∀ T, utf8.DecodeRuneInString (utf8.take n (String c rest) +:+ T) = (r, n))).
Proof.
  pose proof (code_range c) as H0.
  unfold utf8.DecodeRuneInString. set (s0 := utf8.code c) in *.
  destruct (Z.ltb_spec s0 128) as [|Hge]; [eexists _, _; split; [done|]; by left|].
  destruct ((s0 <? 194) || (244 <? s0)) eqn:Hx; [eexists _, _; split; [done|]; right; by left|].
  pose proof Hx as Hx'. apply orb_false_elim in Hx' as [Hx1%Z.ltb_ge Hx2%Z.ltb_ge].
  destruct rest as [|c1 rest1]; [eexists _, _; split; [done|]; right; by left|].
  pose proof (code_range c1) as H1. set (s1 := utf8.code c1) in *.
  set (lo := if s0 =? 224 then 160 else if s0 =? 240 then 144 else 128).
  set (hi := if s0 =? 237 then 159 else if s0 =? 244 then 143 else 191).
  destruct ((s1 <? lo) || (hi <? s1)) eqn:Hy; [eexists _, _; split; [done|]; right; by left|].
  pose proof Hy as Hy'. apply orb_false_elim in Hy' as [Hy1%Z.ltb_ge Hy2%Z.ltb_ge].
  assert (Hlo : 128 ≤ lo) by (unfold lo; tests; lia).
  assert (Hhi : hi ≤ 191) by (unfold hi; tests; lia).
  assert (Hlo1 : s0 = 224 → 160 ≤ s1) by (intros E; unfold lo in Hy1; rewrite E in Hy1; done).
  assert (Hhi1 : s0 = 237 → s1 ≤ 159) by (intros E; unfold hi in Hy2; rewrite E in Hy2; done).
  assert (Hlo2 : s0 = 240 → 144 ≤ s1) by (intros E; unfold lo in Hy1; rewrite E in Hy1; done).
  assert (Hhi2 : s0 = 244 → s1 ≤ 143) by (intros E; unfold hi in Hy2; rewrite E in Hy2; done).
  assert (Hm1 : s1 mod 64 = s1 - 128) by dlia.
  destruct (Z.ltb_spec s0 224) as [Hs2|Hs2].
  { assert (Hm0 : s0 mod 32 = s0 - 192) by dlia.
    eexists _, _. split; [done|]. right. right. rewrite Hm0, Hm1.
    split; [done|]. split; [lia|]. split; [lia|]. split; [|split; [done|]].
    - rewrite AppendRune_2 by lia.
      cbn [utf8.take]. f_equal; [|f_equal]; apply byte_eq; fold s0; fold s1; dlia.
    - intros T. cbn [utf8.take]. change (String c (String c1 "") +:+ T) with (String c (String c1 T)).
      unfold utf8.DecodeRuneInString. fold s0 s1 lo hi.
      destruct (Z.ltb_spec s0 128); [lia|]. rewrite Hx, Hy.
      destruct (Z.ltb_spec s0 224); [|lia]. by rewrite Hm0, Hm1. }
  destruct rest1 as [|c2 rest2]; [eexists _, _; split; [done|]; right; by left|].
  pose proof (code_range c2) as H2. set (s2 := utf8.code c2) in *.
  destruct ((s2 <? 128) || (191 <? s2)) eqn:Hz; [eexists _, _; split; [done|]; right; by left|].
  pose proof Hz as Hz'. apply orb_false_elim in Hz' as [Hz1%Z.ltb_ge Hz2%Z.ltb_ge].
  assert (Hm2 : s2 mod 64 = s2 - 128) by dlia.
  destruct (Z.ltb_spec s0 240) as [Hs3|Hs3].
  { assert (Hm0 : s0 mod 16 = s0 - 224) by dlia.
    eexists _, _. split; [done|]. right. right. rewrite Hm0, Hm1, Hm2.
    split; [done|]. split; [lia|]. split; [lia|]. split; [|split; [done|]].
    - rewrite AppendRune_3 by lia.
      cbn [utf8.take]. f_equal; [|f_equal; [|f_equal]]; apply byte_eq; fold s0; fold s1; fold s2; dlia.
    - intros T. cbn [utf8.take].
      change (String c (String c1 (String c2 "")) +:+ T) with (String c (String c1 (String c2 T))).
      unfold utf8.DecodeRuneInString. fold s0 s1 s2 lo hi.
      destruct (Z.ltb_spec s0 128); [lia|]. rewrite Hx, Hy, Hz.
      destruct (Z.ltb_spec s0 224); [lia|]. destruct (Z.ltb_spec s0 240); [|lia].
      by rewrite Hm0, Hm1, Hm2. }
  destruct rest2 as [|c3 rest3]; [eexists _, _; split; [done|]; right; by left|].
  pose proof (code_range c3) as H3. set (s3 := utf8.code c3) in *.
  destruct ((s3 <? 128) || (191 <? s3)) eqn:Hw; [eexists _, _; split; [done|]; right; by left|].
  pose proof Hw as Hw'. apply orb_false_elim in Hw' as [Hw1%Z.ltb_ge Hw2%Z.ltb_ge].
  assert (Hm3 : s3 mod 64 = s3 - 128) by dlia.
  assert (Hm0 : s0 mod 8 = s0 - 240) by dlia.
  eexists _, _. split; [done|]. right. right. rewrite Hm0, Hm1, Hm2, Hm3.
  split; [done|]. split; [lia|]. split; [lia|]. split; [|split; [done|]].
  - rewrite AppendRune_4 by lia.
    cbn [utf8.take]. f_equal; [|f_equal; [|f_equal; [|f_equal]]]; apply byte_eq;
      fold s0; fold s1; fold s2; fold s3; dlia.
  - intros T. cbn [utf8.take].
    change (String c (String c1 (String c2 (String c3 ""))) +:+ T)
      with (String c (String c1 (String c2 (String c3 T)))).
    unfold utf8.DecodeRuneInString. fold s0 s1 s2 s3 lo hi.
    destruct (Z.ltb_spec s0 128); [lia|]. rewrite Hx, Hy, Hz, Hw.
    destruct (Z.ltb_spec s0 224); [lia|]. destruct (Z.ltb_spec s0 240); [lia|].
    by rewrite Hm0, Hm1, Hm2, Hm3.
Qed.

Lemma take_drop (n : nat) (s : string) : utf8.take n s +:+ utf8.drop n s = s.
Proof.
  revert s. induction n as [|n IH]; intros [|c s]; cbn [utf8.take utf8.drop]; try done.
  change (String c ?a +:+ ?b) with (String c (a +:+ b)). by rewrite IH.
Qed.

Lemma drop_length (n : nat) (s : string) :
  String.length (utf8.drop n s) = (String.length s - n)%nat.
Proof.
  revert s. induction n as [|n IH]; intros [|c s]; cbn [utf8.drop String.length]; try done.
Qed.

Lemma drop_app_length (a T : string) : utf8.drop (String.length a) (a +:+ T) = T.
Proof.
  induction a as [|c a IH]; [done|].
  change (String c a +:+ T) with (String c (a +:+ T)). cbn [String.length utf8.drop]. exact IH.
Qed.

Lemma append_length (a b : string) :
  String.length (a +:+ b) = (String.length a + String.length b)%nat.
Proof.
  induction a as [|c a IH]; [done|].
  change (String c a +:+ b) with (String c (a +:+ b)). cbn [String.length]. by rewrite IH.
Qed.

(** ** encoding/json: a string through the encoder and the decoder *)

(** An ASCII byte: the text written for it reads back as the byte. *)
Lemma unquote_ascii (c : ascii) (F : nat) (T : string) :
  utf8.code c < 128 →
  gojson.unquote_fuel (S F) (gojson.rune_text (utf8.code c, String c "") +:+ T)
    = String.append (String c "") <$> gojson.unquote_fuel F T.
Proof.
  destruct c as [b0 b1 b2 b3 b4 b5 b6 b7]. destruct b7.
  { intros H. exfalso. destruct b0, b1, b2, b3, b4, b5, b6; vm_compute in H; discriminate H. }
  intros _. destruct b0, b1, b2, b3, b4, b5, b6; reflexivity.
Qed.

(** A byte that is not valid UTF-8: six characters are written, and read
    back as U+FFFD. *)
Lemma unquote_invalid (c : ascii) (F : nat) (T : string) :
  gojson.unquote_fuel (S F) (gojson.rune_text (utf8.RuneError, String c "") +:+ T)
    = String.append (utf8.AppendRune utf8.RuneError) <$> gojson.unquote_fuel F T.
Proof. reflexivity. Qed.

(** A rune of two to four bytes: its bytes are written (an escape for
    U+2028 and U+2029) and read back. *)
Lemma unquote_rune (r : Z) (bytes : string) (c : ascii) (tl : string) (F : nat) (T : string) :
  bytes = String c tl → 128 ≤ utf8.code c → 128 ≤ r →
  (2 ≤ String.length bytes)%nat →
  utf8.AppendRune r = bytes →
  utf8.DecodeRuneInString (bytes +:+ T) = (r, String.length bytes) →
  gojson.unquote_fuel (S F) (gojson.rune_text (r, bytes) +:+ T)
    = String.append bytes <$> gojson.unquote_fuel F T.
Proof.
  intros Hb Hc Hr Hn Ha Hd. unfold gojson.rune_text.
  destruct (Z.ltb_spec r 128); [lia|].
  assert (Hinv : utf8.invalid (r, bytes) = false).
  { unfold utf8.invalid. cbn [fst snd].
    destruct (Nat.eqb_spec (String.length bytes) 1); [lia|]. apply andb_false_r. }
  rewrite Hinv.
  destruct (Z.eqb_spec r 8232) as [->|H1].
  { cbn [orb]. rewrite <- Ha. reflexivity. }
  destruct (Z.eqb_spec r 8233) as [->|H2].
  { cbn [orb]. rewrite <- Ha. reflexivity. }
  cbn [orb]. rewrite Hb in Hd |- *.
  change (String c tl +:+ T) with (String c (tl +:+ T)) in *.
  cbn [gojson.unquote_fuel].
  pose proof (code_range c).
  destruct (Z.eqb_spec (utf8.code c) 92); [lia|].
  destruct (Z.eqb_spec (utf8.code c) 34); [lia|].
  destruct (Z.ltb_spec (utf8.code c) 32); [lia|].
  destruct (Z.ltb_spec (utf8.code c) 128); [lia|]. cbn [orb].
  rewrite Hd. rewrite Ha, Hb.
  change (String c (tl +:+ T)) with (String c tl +:+ T).
  by rewrite drop_app_length.
Qed.

Lemma invalid_ascii (c : ascii) : utf8.code c < 128 → utf8.invalid (utf8.code c, String c "") = false.
Proof.
  intros H. unfold utf8.invalid, utf8.RuneError. cbn [fst].
  destruct (Z.eqb_spec (utf8.code c) 65533); [lia|done].
Qed.

(** The runes of a non-empty string: the first, then those of the rest. *)
Lemma runes_fuel_cons (f : nat) (c : ascii) (rest : string) :
  ∃ r n, utf8.DecodeRuneInString (String c rest) = (r, n) ∧ (1 ≤ n)%nat ∧
    utf8.runes_fuel (S f) (String c rest)
      = (r, utf8.take n (String c rest)) :: utf8.runes_fuel f (utf8.drop n (String c rest)).
Proof.
  destruct (DecodeRune_spec c rest) as (r & n & Hd & Hcase).
  exists r, n. split; [done|]. split.
  - destruct Hcase as [(_ & _ & ->)|[(_ & _ & ->)|(_ & _ & Hn & _)]]; lia.
  - cbn [utf8.runes_fuel]. by rewrite Hd.
Qed.

(** The text written for a string, read back: the string, with U+FFFD in
    the place of every byte that is not valid UTF-8. *)
Lemma unquote_runes (f : nat) (s : string) (F : nat) :
  (String.length s ≤ f)%nat →
  (String.length (gostrings.concat (map gojson.rune_text (utf8.runes_fuel f s))) ≤ F)%nat →
  gojson.unquote_fuel F (gostrings.concat (map gojson.rune_text (utf8.runes_fuel f s)))
    = Some (gostrings.concat (map gojson.read_back (utf8.runes_fuel f s))).
Proof.
  revert s F. induction f as [|f IH]; intros s F Hs HF.
  { destruct s; [|cbn in Hs; lia]. by destruct F. }
  destruct s as [|c rest]; [by destruct F|].
  destruct (DecodeRune_spec c rest) as (r & n & Hd & Hcase).
  cbn [utf8.runes_fuel] in *. rewrite Hd in *. cbn [map gostrings.concat] in *.
  set (s := String c rest) in *.
  set (T := gostrings.concat (map gojson.rune_text (utf8.runes_fuel f (utf8.drop n s)))) in *.
  assert (Hn1 : (1 ≤ n)%nat).
  { destruct Hcase as [(_ & _ & ->)|[(_ & _ & ->)|(_ & _ & Hn & _)]]; lia. }
  assert (Hrest : (String.length (utf8.drop n s) ≤ f)%nat).
  { rewrite drop_length. unfold s in *. cbn [String.length] in *. lia. }
  assert (Hstep : ∀ F', gojson.unquote_fuel (S F') (gojson.rune_text (r, utf8.take n s) +:+ T)
            = String.append (gojson.read_back (r, utf8.take n s)) <$> gojson.unquote_fuel F' T ∧
            (1 ≤ String.length (gojson.rune_text (r, utf8.take n s)))%nat).
  { intros F'. destruct Hcase as [(Hc & -> & ->)|[(Hc & -> & ->)|(Hc & Hr & Hn & Ha & Hl & Hdec)]].
    - unfold s. cbn [utf8.take]. rewrite unquote_ascii by done.
      unfold gojson.read_back. rewrite invalid_ascii by done. split; [done|].
      destruct c as [b0 b1 b2 b3 b4 b5 b6 b7]. destruct b7.
      { exfalso. destruct b0, b1, b2, b3, b4, b5, b6; vm_compute in Hc; discriminate Hc. }
      destruct b0, b1, b2, b3, b4, b5, b6; vm_compute; lia.
    - unfold s. cbn [utf8.take]. rewrite unquote_invalid. split; [done|]. vm_compute. lia.
    - split.
      + rewrite (unquote_rune r (utf8.take n s) c (utf8.take (n - 1) rest)); try done.
        * unfold gojson.read_back, utf8.invalid. cbn [fst snd]. rewrite Hl.
          destruct (Nat.eqb_spec n 1); [lia|]. by rewrite andb_false_r.
        * unfold s. destruct n as [|n']; [lia|]. cbn [utf8.take].
          by replace (S n' - 1)%nat with n' by lia.
        * lia.
        * rewrite Hl. apply Hdec.
      + unfold gojson.rune_text. destruct (Z.ltb_spec r 128); [lia|].
        unfold utf8.invalid. cbn [fst snd]. rewrite Hl.
        destruct (Nat.eqb_spec n 1); [lia|]. rewrite andb_false_r.
        destruct ((r =? 8232) || (r =? 8233)); [vm_compute; lia|]. lia. }
  destruct F as [|F'].
  { destruct (Hstep 0%nat) as [_ Hl]. rewrite append_length in HF. lia. }
  destruct (Hstep F') as [-> Hl]. rewrite append_length in HF.
  unfold T in *. rewrite IH; [done|done|lia].
Qed.

(** The decoder reads back what the encoder wrote: the string itself, but
    for the bytes that are not valid UTF-8. *)
Lemma unquote_string_text (s : string) :
  gojson.unquote (gojson.string_text s) = Some (gojson.coerced s).
Proof.
  unfold gojson.unquote, gojson.string_text, gojson.coerced, utf8.runes.
  by rewrite unquote_runes.
Qed.

Lemma reread_coerced (s : string) : gojson.reread s = gojson.coerced s.
Proof. unfold gojson.reread. by rewrite unquote_string_text. Qed.

Lemma coerced_valid_fuel (f : nat) (s : string) :
  (String.length s ≤ f)%nat →
  forallb (fun x => negb (utf8.invalid x)) (utf8.runes_fuel f s) = true →
  gostrings.concat (map gojson.read_back (utf8.runes_fuel f s)) = s.
Proof.
  revert s. induction f as [|f IH]; intros s Hs Hv.
  { destruct s; [done|]. cbn in Hs. lia. }
  destruct s as [|c rest]; [done|].
  destruct (runes_fuel_cons f c rest) as (r & n & Hd & Hn & Hr).
  rewrite Hr in *. cbn [map gostrings.concat forallb] in *.
  apply andb_prop in Hv as [Hx Hv]. apply negb_true_iff in Hx.
  unfold gojson.read_back at 1. rewrite Hx. cbn [snd].
  rewrite IH; [apply take_drop| |done].
  rewrite drop_length. cbn [String.length] in *. lia.
Qed.

(** A valid string is read back as it is. *)
Lemma reread_valid (s : string) : utf8.ValidString s = true → gojson.reread s = s.
Proof.
  intros Hv. rewrite reread_coerced. by apply coerced_valid_fuel.
Qed.

(** Two valid strings with the same text are the same string. *)
Lemma string_text_inj (a b : string) :
  utf8.ValidString a = true → utf8.ValidString b = true →
  gojson.string_text a = gojson.string_text b → a = b.
Proof.
  intros Ha Hb H. rewrite <- (reread_valid a Ha), <- (reread_valid b Hb), !reread_coerced.
  pose proof (unquote_string_text a) as H1. rewrite H, unquote_string_text in H1.
  by injection H1.
Qed.

Lemma take_app_length (a T : string) : utf8.take (String.length a) (a +:+ T) = a.
Proof.
  induction a as [|c a IH]; [by destruct T|].
  change (String c a +:+ T) with (String c (a +:+ T)). cbn [String.length utf8.take].
  by rewrite IH.
Qed.

(** Fuel beyond the length of the string changes nothing. *)
Lemma runes_fuel_enough (f1 f2 : nat) (s : string) :
  (String.length s ≤ f1)%nat → (String.length s ≤ f2)%nat →
  utf8.runes_fuel f1 s = utf8.runes_fuel f2 s.
Proof.
  revert f2 s. induction f1 as [|f1 IH]; intros f2 s H1 H2.
  { destruct s; [by destruct f2|]. cbn in H1. lia. }
  destruct s as [|c rest]; [by destruct f2|].
  destruct f2 as [|f2]; [cbn in H2; lia|].
  destruct (runes_fuel_cons f1 c rest) as (r & n & Hd & Hn & ->).
  destruct (runes_fuel_cons f2 c rest) as (r' & n' & Hd' & Hn' & ->).
  rewrite Hd in Hd'. injection Hd' as <- <-. f_equal.
  apply IH; rewrite drop_length; cbn [String.length] in *; lia.
Qed.

(** The runes of a string that starts with the bytes of a rune. *)
Lemma runes_app (r : Z) (b T : string) :
  b ≠ "" →
  utf8.DecodeRuneInString (b +:+ T) = (r, String.length b) →
  utf8.runes (b +:+ T) = (r, b) :: utf8.runes T.
Proof.
  intros Hb Hd. unfold utf8.runes. rewrite append_length.
  destruct b as [|c b]; [done|]. cbn [String.length Nat.add] in *.
  change (String c b +:+ T) with (String c (b +:+ T)) in *.
  cbn [utf8.runes_fuel]. rewrite Hd.
  change (String c (b +:+ T)) with (String c b +:+ T).
  change (S (String.length b)) with (String.length (String c b)).
  rewrite take_app_length, drop_app_length. f_equal.
  apply runes_fuel_enough; lia.
Qed.

(** What is read back is valid UTF-8. *)
Lemma coerced_valid_runes (f : nat) (s : string) :
  (String.length s ≤ f)%nat →
  utf8.ValidString (gostrings.concat (map gojson.read_back (utf8.runes_fuel f s))) = true.
Proof.
  revert s. induction f as [|f IH]; intros s Hs.
  { destruct s; [done|]. cbn in Hs. lia. }
  destruct s as [|c rest]; [done|].
  destruct (DecodeRune_spec c rest) as (r & n & Hd & Hcase).
  cbn [utf8.runes_fuel]. rewrite Hd. cbn [map gostrings.concat].
  set (s := String c rest) in *.
  assert (Hn1 : (1 ≤ n)%nat).
  { destruct Hcase as [(_ & _ & ->)|[(_ & _ & ->)|(_ & _ & Hn & _)]]; lia. }
  assert (Hrest : (String.length (utf8.drop n s) ≤ f)%nat).
  { rewrite drop_length. unfold s in *. cbn [String.length] in *. lia. }
  specialize (IH _ Hrest).
  set (T := gostrings.concat (map gojson.read_back (utf8.runes_fuel f (utf8.drop n s)))) in *.
  unfold utf8.ValidString in *.
  destruct Hcase as [(Hc & -> & ->)|[(Hc & -> & ->)|(Hc & Hr & Hn & Ha & Hl & Hdec)]].
  - unfold gojson.read_back. unfold s. cbn [utf8.take]. rewrite invalid_ascii by done. cbn [snd].
    rewrite (runes_app (utf8.code c) (String c "") T); [|done|].
    + cbn [forallb]. rewrite invalid_ascii by done. done.
    + change (String c "" +:+ T) with (String c T). unfold utf8.DecodeRuneInString.
      by destruct (Z.ltb_spec (utf8.code c) 128); [|lia].
  - unfold gojson.read_back. unfold s. cbn [utf8.take].
    change (utf8.invalid (utf8.RuneError, String c "")) with true. cbv iota.
    rewrite (runes_app utf8.RuneError (utf8.AppendRune utf8.RuneError) T); [|done|reflexivity].
    cbn [forallb]. by rewrite IH.
  - assert (Hinv : utf8.invalid (r, utf8.take n s) = false).
    { unfold utf8.invalid. cbn [fst snd]. rewrite Hl.
      destruct (Nat.eqb_spec n 1); [lia|]. apply andb_false_r. }
    unfold gojson.read_back. rewrite Hinv. cbn [snd].
    rewrite (runes_app r (utf8.take n s) T).
    + cbn [forallb]. by rewrite Hinv, IH.
    + unfold s. destruct n; [lia|]. done.
    + rewrite Hl. apply Hdec.
Qed.

Lemma coerced_is_valid (s : string) : utf8.ValidString (gojson.coerced s) = true.
Proof. by apply coerced_valid_runes. Qed.

(** ** The document read back *)



(** The nearest integer to a number that is at least the integer [j] is at
    least [j]. *)
Lemma rounds_to_ge (x : R) (n j : Z) : rounds_to x n → (IZR j <= x)%R → j ≤ n.
Proof.
  intros [[H1 H2] _] Hj.
  assert (j - 1 < n); [|lia]. apply lt_IZR. rewrite minus_IZR. lra.
Qed.

(** ** binary64: a time of 2^38 s or more is read back exactly *)

(** From 2^38 on, two neighbouring binary64 are more than 10^-7 apart: the
    text of seven decimals is nearer to the time that was rendered than to
    any other binary64, and [strconv.ParseFloat] returns that time. *)
Lemma reload_exact (m : MTime) (s : bool) (mm : positive) (e : Z) :
  Prim2SF m = S754_finite s mm e →
  39 ≤ Z.pos (digits2_pos mm) + e →
  Prim2SF (strconv.ParseFloat_fixed7 (MarshalJSON m)) = S754_finite s mm e.
Proof.
  intros Hm Hbig. pose proof (Prim2SF_valid m) as Hvalid. rewrite Hm in Hvalid.
  cbn in Hvalid. apply andb_prop in Hvalid as [Hc Hb].
  apply Z.eqb_eq in Hc. apply Z.leb_le in Hb.
  unfold fexp, emin, prec, emax in Hc, Hb.
  assert (Hd53 : Z.pos (digits2_pos mm) = 53) by lia.
  assert (He : -14 ≤ e ≤ 971) by lia.
  assert (Hmm : 2 ^ 52 ≤ Z.pos mm < 2 ^ 53).
  { pose proof (Zdigits2_log2 (Z.pos mm) ltac:(lia)) as Hd. cbn [Zdigits2] in Hd.
    pose proof (Z.log2_spec (Z.pos mm) ltac:(lia)) as [Hlo Hhi].
    rewrite Hd53 in Hd. replace (Z.log2 (Z.pos mm)) with 52 in * by lia. done. }
  unfold MarshalJSON, gofmt.Sprintf_7f. rewrite Hm.
  destruct (scaled7_near mm e) as [HN0 [HNl HNu]].
  pose proof (scaled7_rounds mm e) as HNr.
  set (N := gofmt.scaled7 mm e) in *.
  rewrite ParseFloat_fixed7_signed by done.
  set (v := F2R (Z.pos mm) e) in *.
  pose proof (pow2_pos e) as Pe. pose proof (pow2_pos (- e)) as Pe'.
  assert (HPP : (powerRZ 2 e * powerRZ 2 (- e) = 1)%R).
  { rewrite <- pow2_add. by replace (e + - e) with 0 by lia. }
  assert (Hmm52 : (4503599627370496 <= IZR (Z.pos mm) <= 9007199254740992 - 1)%R).
  { change (2 ^ 52) with 4503599627370496 in Hmm. change (2 ^ 53) with 9007199254740992 in Hmm.
    split; [apply IZR_le; lia|]. replace (9007199254740992 - 1)%R with (IZR (9007199254740992 - 1)) by (rewrite minus_IZR; done).
    apply IZR_le. lia. }
  assert (Hv : v = (IZR (Z.pos mm) * powerRZ 2 e)%R) by done.
  assert (H14 : (1 / 16384 <= powerRZ 2 e)%R).
  { pose proof (pow2_le (-14) e ltac:(lia)) as H.
    pose proof (pow2_neg 14 ltac:(lia)) as P14. change (2 ^ 14) with 16384 in P14.
    change (- (14)) with (-14) in P14. lra. }
  assert (H14' : (powerRZ 2 (- e) <= 16384)%R).
  { pose proof (pow2_le (- e) 14 ltac:(lia)) as H.
    rewrite (pow2_IZR 14) in H by lia. change (2 ^ 14) with 16384 in H. done. }
  (* the digits spell a number in the binade of the time *)
  assert (HJ : 2 ^ (52 + e) * 10 ^ 7 ≤ N).
  { apply (rounds_to_ge _ _ _ HNr). rewrite mult_IZR, <- pow2_IZR by lia.
    change (IZR (10 ^ 7)) with 10000000%R. rewrite pow2_add.
    rewrite (pow2_IZR 52) by lia. change (2 ^ 52) with 4503599627370496. fold v. rewrite Hv.
    nra. }
  assert (HNpos : 0 < N).
  { assert (0 < 2 ^ (52 + e)) by (apply Z.pow_pos_nonneg; lia). lia. }
  assert (HNlo : (powerRZ 2 (52 + e) * 10000000 <= IZR N)%R).
  { apply IZR_le in HJ. rewrite mult_IZR, <- pow2_IZR in HJ by lia. done. }
  assert (HNhi : (IZR N < powerRZ 2 (53 + e) * 10000000)%R).
  { rewrite pow2_add, (pow2_IZR 53) by lia. change (2 ^ 53) with 9007199254740992.
    fold v in HNu. rewrite Hv in HNu. nra. }
  unfold strconv.nearest_float.
  assert (Hn0 : (N =? 0) = false) by (apply Z.eqb_neq; lia). rewrite Hn0.
  pose proof (log2_quot_spec N (10 ^ 7) HNpos ltac:(lia)) as [HK1 HK2].
  change (IZR (10 ^ 7)) with 10000000%R in *.
  set (k := strconv.log2_quot N (10 ^ 7)) in *.
  assert (Hk : k = 52 + e).
  { assert (k < 53 + e).
    { apply pow2_lt_inv. pose proof (pow2_pos k). pose proof (pow2_pos (53 + e)). nra. }
    assert (52 + e < k + 1).
    { apply pow2_lt_inv. pose proof (pow2_pos (k + 1)). pose proof (pow2_pos (52 + e)). nra. }
    lia. }
  replace (k - 52) with e by lia.
  (* the mantissa *)
  set (x' := (IZR N / 10000000 * powerRZ 2 (- e))%R).
  assert (Hx' : (Rabs (x' - IZR (Z.pos mm)) <= 1 / 1000)%R).
  { assert (Heq : (x' - IZR (Z.pos mm) = (IZR N - v * 10000000) / 10000000 * powerRZ 2 (- e))%R).
    { unfold x'. rewrite Hv.
      replace ((IZR N - IZR (Z.pos mm) * powerRZ 2 e * 10000000) / 10000000 * powerRZ 2 (- e))%R
        with (IZR N / 10000000 * powerRZ 2 (- e) - IZR (Z.pos mm) * (powerRZ 2 e * powerRZ 2 (- e)))%R
        by (field; lra).
      rewrite HPP. ring. }
    rewrite Heq. fold v in HNl, HNu.
    set (d := (IZR N - v * 10000000)%R) in *.
    assert (Hd : (-1 / 2 <= d <= 1 / 2)%R) by (unfold d; lra).
    unfold Rabs. destruct (Rcase_abs _); nra. }
  assert (Hround : rounds_to x' (Z.pos mm)).
  { unfold Rabs in Hx'. destruct (Rcase_abs _); (split; [lra|]); intros [?|?]; lra. }
  set (mr := if 0 <=? e then gofmt.round_half_even N (10 ^ 7 * 2 ^ e)
             else gofmt.round_half_even (N * 2 ^ (- e)) (10 ^ 7)).
  assert (Hmr : mr = Z.pos mm).
  { apply (rounds_to_unique x'); [|done]. unfold mr.
    destruct (Z.leb_spec 0 e) as [He0|He0].
    - assert (Hp : 0 < 2 ^ e) by (apply Z.pow_pos_nonneg; lia).
      pose proof (round_half_even_rounds N (10 ^ 7 * 2 ^ e) ltac:(lia) ltac:(lia)) as Hr.
      replace (IZR N / IZR (10 ^ 7 * 2 ^ e))%R with x' in Hr; [done|].
      unfold x'. rewrite mult_IZR, <- (pow2_IZR e) by lia.
      change (IZR (10 ^ 7)) with 10000000%R.
      replace (IZR N / 10000000 * powerRZ 2 (- e))%R
        with (IZR N / (10000000 * powerRZ 2 e) * (powerRZ 2 e * powerRZ 2 (- e)))%R
        by (field; lra).
      rewrite HPP. ring.
    - assert (Hp : 0 < 2 ^ (- e)) by (apply Z.pow_pos_nonneg; lia).
      pose proof (round_half_even_rounds (N * 2 ^ (- e)) (10 ^ 7) ltac:(lia) ltac:(lia)) as Hr.
      replace (IZR (N * 2 ^ (- e)) / IZR (10 ^ 7))%R with x' in Hr; [done|].
      unfold x'. rewrite mult_IZR, <- (pow2_IZR (- e)) by lia.
      change (IZR (10 ^ 7)) with 10000000%R. field. }
  fold mr. rewrite Hmr.
  assert (Hto : Uint63.to_Z (Uint63.of_Z (Z.pos mm)) = Z.pos mm).
  { rewrite Uint63.of_Z_spec. apply Z.mod_small.
    replace Uint63.wB with (2 ^ 63) by reflexivity.
    change (2 ^ 53) with 9007199254740992 in Hmm. change (2 ^ 63) with 9223372036854775808. lia. }
  assert (Hld : Prim2SF (Z.ldexp (of_uint63 (Uint63.of_Z (Z.pos mm))) e) = S754_finite false mm e).
  { rewrite Z_ldexp_spec, FloatAxioms.of_uint63_spec, Hto. cbn [binary_normalize].
    rewrite binary_round_exact by (done || lia). cbn [SFldexp].
    replace (0 + e) with e by lia. apply binary_round_exact; [done|lia]. }
  destruct s; [|done]. by rewrite FloatAxioms.opp_spec, Hld.
Qed.

(** A rendered time reads back to a time that is rendered the same, for
    every finite time. *)
Lemma MarshalJSON_stable_finite (m : MTime) :
  float64.is_finite m = true →
  MarshalJSON (strconv.ParseFloat_fixed7 (MarshalJSON m)) = MarshalJSON m.
Proof.
  intros Hf. destruct (Prim2SF m) as [s|s| |s mm e] eqn:Hm.
  - apply MarshalJSON_stable. by rewrite Hm.
  - unfold float64.is_finite in Hf. by rewrite Hm in Hf.
  - unfold float64.is_finite in Hf. by rewrite Hm in Hf.
  - destruct (Z_le_gt_dec (Z.pos (digits2_pos mm) + e) 38) as [Hs|Hb].
    + apply MarshalJSON_stable. by rewrite Hm.
    + pose proof (reload_exact m s mm e Hm ltac:(lia)) as Hx.
      unfold MarshalJSON at 1 3. unfold gofmt.Sprintf_7f. by rewrite Hx, Hm.
Qed.

(** ** A stored time read back is not earlier *)

(** A time that is not negative and below 2^38 s, written to the document
    and read back, has at least the same whole seconds. *)
Lemma reload_not_earlier (m : MTime) :
  nonneg (Prim2SF m) → small 38 (Prim2SF m) →
  0 ≤ float64.to_int64 m ≤
    float64.to_int64 (strconv.ParseFloat_fixed7 (MarshalJSON m)) ∧
  float64.to_int64 (strconv.ParseFloat_fixed7 (MarshalJSON m)) < 2 ^ 40.
Proof.
  intros Hnn Hs.
  assert (Hx38 : (SF2R (Prim2SF m) < 274877906944)%R).
  { destruct (Prim2SF m) as [s|s| |s mm e]; try done; cbn [SF2R]; try lra.
    destruct s; [done|]. cbn [cond_Zopp small] in *.
    pose proof (F2R_below mm e) as Hb.
    assert (H38 : (powerRZ 2 (Z.pos (digits2_pos mm) + e) <= 274877906944)%R).
    { etrans; [apply (pow2_le _ 38); lia|]. rewrite pow2_IZR by lia. apply Req_le. reflexivity. }
    lra. }
  destruct (to_int64_floor m Hnn) as [F1 F2]; [lra|].
  set (n := float64.to_int64 m) in *.
  assert (Hn0 : 0 ≤ n).
  { assert (-1 < n); [|lia]. apply lt_IZR.
    assert (0 <= SF2R (Prim2SF m))%R; [|lra].
    destruct (Prim2SF m) as [s|s| |s mm e]; try done; cbn [SF2R]; try lra.
    destruct s; [done|]. cbn [cond_Zopp]. pose proof (F2R_pos mm e). lra. }
  unfold MarshalJSON, gofmt.Sprintf_7f.
  destruct (Prim2SF m) as [s|s| |s mm e] eqn:Hm; try done.
  { destruct s; [done|]. rewrite ParseFloat_fixed7_signed by lia.
    cbn [SF2R] in *. assert (n = 0).
    { assert (n < 1); [|lia]. apply lt_IZR. lra. }
    subst n. rewrite H. vm_compute. split; [split|]; congruence. }
  destruct s; [done|]. cbn [SF2R cond_Zopp small] in *.
  destruct (scaled7_near mm e) as [HN0 HNv].
  pose proof (scaled7_rounds mm e) as HNr.
  set (N := gofmt.scaled7 mm e) in *.
  rewrite ParseFloat_fixed7_signed by done.
  assert (HnN : n * 10000000 ≤ N).
  { apply (rounds_to_ge _ _ _ HNr). rewrite mult_IZR. lra. }
  destruct (Z.eq_dec N 0) as [HN|HNne].
  { rewrite HN. assert (n = 0) by lia. rewrite H. vm_compute. split; [split|]; congruence. }
  assert (HN62 : 0 < N < 2 ^ 62).
  { split; [lia|]. apply lt_IZR. change (2 ^ 62) with 4611686018427387904. lra. }
  destruct (nearest_float_value false N HN62) as (mr & md & ed & Hex & Hmr & Hx52 & Hmr52 & Hd & Hvd).
  set (ex := strconv.log2_quot N (10 ^ 7) - 52) in *.
  set (f' := strconv.nearest_float false N (10 ^ 7)) in *.
  assert (Hnn' : nonneg (Prim2SF f')) by (by rewrite Hd).
  assert (Hv' : SF2R (Prim2SF f') = (IZR mr * powerRZ 2 ex)%R) by (by rewrite Hd).
  pose proof (pow2_pos ex) as HP. pose proof (pow2_pos (- ex)) as HPi.
  assert (HPP : (powerRZ 2 ex * powerRZ 2 (- ex) = 1)%R).
  { rewrite <- pow2_add. by replace (ex + - ex) with 0 by lia. }
  assert (Hup : (IZR mr * powerRZ 2 ex <= 1099511627776 / 2)%R).
  { assert (H1 : (IZR mr <= 9007199254740992)%R).
    { destruct Hmr52 as [_ Hmr53]. apply IZR_le in Hmr53.
      change (2 ^ 53) with 9007199254740992 in Hmr53. lra. }
    assert (H2 : (powerRZ 2 ex <= powerRZ 2 (-14))%R) by (apply pow2_le; lia).
    pose proof (pow2_neg 14 ltac:(lia)) as P14. change (2 ^ 14) with 16384 in P14.
    change (- (14)) with (-14) in P14.
    assert (H3 : (powerRZ 2 (-14) = 1 / 16384)%R) by lra.
    assert (0 <= IZR mr)%R by (apply IZR_le; change (2 ^ 52) with 4503599627370496 in Hmr52; lia). nra. }
  destruct (to_int64_floor f' Hnn') as [G1 G2]; [rewrite Hv'; lra|].
  set (n' := float64.to_int64 f') in *.
  (* the whole seconds of m, in units of 2^ex, are an integer below mr *)
  assert (HJ : n * 2 ^ (- ex) ≤ mr).
  { apply (rounds_to_ge _ _ _ Hmr). rewrite mult_IZR, <- pow2_IZR by lia.
    apply Rmult_le_compat_r; [lra|].
    apply IZR_le in HnN. rewrite mult_IZR in HnN. lra. }
  assert (Hnle : (IZR n <= IZR mr * powerRZ 2 ex)%R).
  { apply IZR_le in HJ. rewrite mult_IZR, <- pow2_IZR in HJ by lia.
    assert (IZR n = IZR n * powerRZ 2 (- ex) * powerRZ 2 ex)%R by (rewrite Rmult_assoc, (Rmult_comm (powerRZ 2 (- ex))), HPP; ring).
    rewrite H. apply Rmult_le_compat_r; lra. }
  split; [split; [done|]|].
  - assert (n - 1 < n'); [|lia]. apply lt_IZR. rewrite minus_IZR. rewrite Hv' in G2. lra.
  - apply lt_IZR. rewrite Hv' in G1. change (2 ^ 40) with 1099511627776. lra.
Qed.

Section Kept.
Context (lib : GoLib) (fs : FileSystem) (root : string).

(** The later the stored second, the less the file has changed. *)
Lemma changed_mono (fi : FileInfo) (e e' : entry) :
  0 ≤ float64.to_int64 (entry_MTime e) ≤ float64.to_int64 (entry_MTime e') →
  float64.to_int64 (entry_MTime e') < 2 ^ 40 →
  changed fi e = false → changed fi e' = false.
Proof.
  intros Hle Hlt. unfold changed.
  rewrite !Unix_seconds by (unfold gotime.unixToInternal; lia).
  rewrite !Z.ltb_ge. unfold gotime.Sub, int64.clamp, int64.min, int64.max, gotime.Second. lia.
Qed.

(** An entry that is kept is kept again once read back, when its time is
    not negative: below 2^38 s the time read back has at least the same
    whole seconds, from there on it is the same time. *)
Lemma kept_stays_fresh (fi : FileInfo) (e : entry) :
  nonneg (Prim2SF (entry_MTime e)) →
  changed fi e = false → changed fi (reload_entry e) = false.
Proof.
  intros Hn. destruct (Prim2SF (entry_MTime e)) as [s|s| |s mm ex] eqn:Hm; try done.
  - destruct (reload_not_earlier (entry_MTime e)) as [H1 H2]; [by rewrite Hm|by rewrite Hm|].
    by apply changed_mono.
  - destruct (Z_le_gt_dec (Z.pos (digits2_pos mm) + ex) 38) as [Hs|Hb].
    + destruct (reload_not_earlier (entry_MTime e)) as [H1 H2]; [by rewrite Hm|by rewrite Hm|].
      by apply changed_mono.
    + pose proof (reload_exact (entry_MTime e) s mm ex Hm ltac:(lia)) as Hx.
      unfold changed, float64.to_int64. cbn [reload_entry entry_MTime]. by rewrite Hx, Hm.
Qed.
End Kept.

(** ** A second run over the document of the first *)
Section Again.
Context (lib : GoLib) (fs : FileSystem) (root : string).

Local Abbreviation mp := (modelPath lib root).




End Again.



(** ** What the conditions of the second-run theorems exclude *)

(** A file name that is not valid UTF-8.  The first run writes the key
    with U+FFFD in the place of the byte FF; the second run reads a key
    that names no file, deletes the entry, finds the file in the walk,
    hashes it again and merges the result; it writes the same document. *)
Example non_utf8_name_is_hashed_again :
  let out1 := run unix byte_names "bytes" empty_cache in
  let out2 := run unix byte_names "bytes" (reload out1) in
  forallb (valid_key unix "bytes") (hashed byte_names (queued unix byte_names "bytes" empty_cache [])) = false ∧
  forallb (coherent unix "bytes") (hashed byte_names (queued unix byte_names "bytes" empty_cache [])) = true ∧
  forallb (dated_alike byte_names) (filepath_WalkDir byte_names "bytes") = true ∧
  (map fst (map_to_list (Hashes out1))) = ["checkpoint/" +:+ utf8.of_bytes [255] +:+ ".ckpt"] ∧
  member_names (encode_map (Hashes out1)) = ["checkpoint/\ufffd.ckpt"] ∧
  (map fst (map_to_list (Hashes (reload out1))))
    = ["checkpoint/" +:+ utf8.of_bytes [239; 191; 189] +:+ ".ckpt"] ∧
  map task_path (queued unix byte_names "bytes" (reload out1) (map_to_list (Hashes (reload out1))))
    = [ff_ckpt] ∧
  encode_cache out2 = encode_cache out1.
Proof. repeat split; vm_compute; reflexivity. Qed.

(** A stored time that is negative.  a.ckpt was modified 148 s before the
    epoch and the cache stores a time just above -151: truncated it is
    -150, two seconds before the file, and the first run keeps the entry;
    the document rounds it to -151, three seconds before the file, and the
    second run hashes the file and stores another time. *)
Example negative_time_is_rounded_away :
  let out1 := run unix (dated (-148)) "tree" cache_before_epoch in
  let out2 := run unix (dated (-148)) "tree" (reload out1) in
  queued unix (dated (-148)) "tree" cache_before_epoch (map_to_list (Hashes cache_before_epoch)) = [] ∧
  numbers (encode_cache out1) = ["-151.0000000"] ∧
  map task_path (queued unix (dated (-148)) "tree" (reload out1) (map_to_list (Hashes (reload out1))))
    = ["tree/a.ckpt"] ∧
  numbers (encode_cache out2) = ["-147.0000000"].
Proof. repeat split; vm_compute; reflexivity. Qed.

(** A file dated January 1, 2300, after the last time [UnixNano] holds.
    The time stored for it is some 8 billion seconds before the epoch, and
    every run finds the file changed and hashes it again. *)
Example file_dated_2300_is_hashed_on_every_run :
  let out1 := run unix (dated 10413792000) "tree" empty_cache in
  numbers (encode_cache out1) = ["-8032952072.7095518"] ∧
  map task_path (d_tasks (detect unix (dated 10413792000) "tree" (Hashes (reload out1))
                            (map_to_list (Hashes (reload out1)))))
    = ["tree/a.ckpt"].
Proof. repeat split; vm_compute; reflexivity. Qed.

(** ** Entries whose file is gone, and files of other extensions *)
Section Dropped.
Context (lib : GoLib) (fs : FileSystem) (root : string).

Local Abbreviation mp := (modelPath lib root).


End Dropped.




(** A file of another extension with a changed entry under a key of its
    own: notes.txt is hashed, and the output gains the key
    "checkpoint/notes.txt", which the loaded cache did not hold. *)
Example other_extension_can_gain_a_key :
  model_ext unix "models/notes.txt" = false ∧
  Hashes cache_notes_old !! "checkpoint/notes.txt" = None ∧
  entry_SHA256 <$> Hashes (run unix models "models" cache_notes_old) !! "checkpoint/notes.txt"
    = Some (gofmt.Sprintf_x (sha256.Sum256 (text "n"))).
Proof. repeat split; vm_compute; reflexivity. Qed.

(** ** What the next run reads *)

(** X18.  A key, or a digest, through the document.  The decoder reads from
    the text the encoder wrote the string that was encoded, with U+FFFD in
    the place of every byte that is not valid UTF-8: a valid string is read
    back as it is, and two valid strings with the same text are the same
    string. *)
Theorem string_is_read_back (s : string) :
  gojson.unquote (gojson.string_text s) = Some (gojson.coerced s) ∧
  utf8.ValidString (gojson.coerced s) = true ∧
  (utf8.ValidString s = true → gojson.reread s = s) ∧
  (∀ s', utf8.ValidString s = true → utf8.ValidString s' = true →
         gojson.string_text s = gojson.string_text s' → s = s').
Proof.
  split; [apply unquote_string_text|]. split; [|split].
  - apply coerced_is_valid.
  - apply reread_valid.
  - intros s'. apply string_text_inj.
Qed.

(** X19.  An entry that a run keeps is kept by the next run.  When the
    stored time is not negative and the file is judged unchanged, it is
    judged unchanged again on the entry read back from the document, and
    the text of the time is the same. *)
Theorem kept_entry_is_kept_again (lib : GoLib) (fs : FileSystem) (root : string)
    (c : cache) iter done (k : string) (e : entry) (fi : FileInfo) :
  schedule lib fs root c iter done →
  Hashes c !! k = Some e →
  nonneg (Prim2SF (entry_MTime e)) →
  os_Stat fs (modelPath lib root k) = inr fi →
  changed fi e = false →
  (∀ r, r ∈ done → entry_key lib root r ≠ Some k) →
  Hashes (main lib fs root c iter done) !! k = Some e ∧
  changed fi (reload_entry e) = false ∧
  MarshalJSON (entry_MTime (reload_entry e)) = MarshalJSON (entry_MTime e).
Proof.
  intros Hs Hk Hn Hfi Hch Hnone. split; [|split].
  - cbn [main Hashes]. rewrite collect_other by done.
    rewrite detect_hashes_lookup by (by destruct Hs). by rewrite Hfi.
  - by apply kept_stays_fresh.
  - cbn [reload_entry entry_MTime]. apply MarshalJSON_stable_finite.
    unfold float64.is_finite. by destruct (Prim2SF (entry_MTime e)) as [[|]|[|]| |[|] ? ?].
Qed.

Lemma kept_entry_is_kept_again_witness :
  Hashes (main unix models "models" cache_later (map_to_list (Hashes cache_later))
            (hashed models (queued unix models "models" cache_later
                              (map_to_list (Hashes cache_later)))))
    !! "checkpoint/a.ckpt" = Some (stored 151%float "00") ∧
  changed (regular 100 500000000) (reload_entry (stored 151%float "00")) = false ∧
  MarshalJSON (entry_MTime (reload_entry (stored 151%float "00")))
    = MarshalJSON (entry_MTime (stored 151%float "00")).
Proof.
  apply (kept_entry_is_kept_again unix models "models" cache_later
           (map_to_list (Hashes cache_later))
           (hashed models (queued unix models "models" cache_later
                             (map_to_list (Hashes cache_later))))
           "checkpoint/a.ckpt" (stored 151%float "00") (regular 100 500000000)
           (schedule_run _ _ _ _)).
  - vm_compute; reflexivity.
  - exact I.
  - vm_compute; reflexivity.
  - vm_compute; reflexivity.
  - intros r Hr. vm_compute in Hr.
    apply elem_of_cons in Hr as [->|Hr]; [vm_compute; discriminate|].
    by apply elem_of_nil in Hr.
Defined.
